(** * kdtreed: the command parser and the session loop

    A shallow embedding of [daemon.go] and of the second source file (whose
    parser is textually identical and whose [HandleRequest] differs),
    followed by the properties of the specification that can be stated
    over it.

    Conventions.
    - A Go [string] is a sequence of bytes: [list ascii].  [bs "ADD"] is the
      byte sequence of a literal.
    - [int] is the 64-bit Go [int]; values are kept in [Z] and the only
      place where the range matters ([strconv.Atoi]) clamps explicitly.
    - A [float64] that holds an integral value is represented by that value
      in [Z]; [float64_of_int] is the int-to-float64 conversion (round to
      nearest, ties to even).
    - A Go function that mutates [*Expr] and may panic is a function
      [Expr -> option (A * Expr)]; [None] is a run-time panic. *)

From Stdlib Require Import Ascii String.
From Stdlib Require Import List ZArith Lia Bool Arith Permutation Sorted.
Import ListNotations.

Set Implicit Arguments.
Local Open Scope list_scope.

(** ** Bytes and strings *)

Definition bytes := list ascii.

Definition bs (s : string) : bytes := list_ascii_of_string s.

Definition bytes_eqb (a b : bytes) : bool :=
  if list_eq_dec ascii_dec a b then true else false.

Definition is_digit (c : ascii) : bool :=
  (48 <=? nat_of_ascii c) && (nat_of_ascii c <=? 57).

(** ** The fragment of [regexp] the daemon uses

    Patterns are kept in compiled form.  The alphabet of every token of
    the daemon is ASCII, so matching byte by byte agrees with Go's
    matching rune by rune. *)

Inductive regex : Type :=
| Eps : regex
| Lit : ascii -> regex
| Range : ascii -> ascii -> regex
| Cat : regex -> regex -> regex
| Alt : regex -> regex -> regex
| Plus : regex -> regex.

Definition in_range (lo hi c : ascii) : bool :=
  (nat_of_ascii lo <=? nat_of_ascii c) && (nat_of_ascii c <=? nat_of_ascii hi).

Section Matcher.
Variable A : Type.

(** One or more iterations, greedy: after each iteration that consumed
    input, another one is tried before the continuation. *)
Fixpoint plus_loop (m : bytes -> (bytes -> option A) -> option A)
         (fuel : nat) (s : bytes) (k : bytes -> option A) : option A :=
  m s (fun s' =>
    if length s' <? length s then
      match fuel with
      | S f =>
          match plus_loop m f s' k with
          | Some v => Some v
          | None => k s'
          end
      | O => k s'
      end
    else k s').

(** Backtracking matcher with the priorities of Go's regexp
    (leftmost-first: the left alternative first, repetition greedy).
    [k] receives what is left of the input after the match. *)
Fixpoint rmatch (r : regex) (s : bytes) (k : bytes -> option A) : option A :=
  match r with
  | Eps => k s
  | Lit c =>
      match s with
      | c' :: s' => if Ascii.eqb c c' then k s' else None
      | [] => None
      end
  | Range lo hi =>
      match s with
      | c' :: s' => if in_range lo hi c' then k s' else None
      | [] => None
      end
  | Cat a b => rmatch a s (fun s' => rmatch b s' k)
  | Alt a b =>
      match rmatch a s k with
      | Some v => Some v
      | None => rmatch b s k
      end
  | Plus a => plus_loop (fun s0 k0 => rmatch a s0 k0) (length s) s k
  end.
End Matcher.

(** The prefix of [s] matched by [r], when [r] matches at the start of [s]. *)
Definition match_prefix (r : regex) (s : bytes) : option bytes :=
  match rmatch r s (fun rest => Some (length rest)) with
  | Some n => Some (firstn (length s - n) s)
  | None => None
  end.

(** [regexp.Find]: the leftmost match, searched from every offset.
    The result is the offset and the matched text. *)
Fixpoint find_at (r : regex) (off : nat) (s : bytes) : option (nat * bytes) :=
  match match_prefix r s with
  | Some m => Some (off, m)
  | None =>
      match s with
      | [] => None
      | _ :: s' => find_at r (S off) s'
      end
  end.

Definition Find (r : regex) (s : bytes) : option bytes :=
  match find_at r 0 s with
  | Some (_, m) => Some m
  | None => None
  end.

(** [regexp.FindAllString r s (-1)]: successive non-overlapping matches.  An
    empty match directly after the previous match is dropped, and the
    search then moves one byte forward. *)
Fixpoint find_all (r : regex) (fuel : nat) (prev_end : bool) (s : bytes)
  : list bytes :=
  match fuel with
  | O => []
  | S f =>
      match find_at r 0 s with
      | None => []
      | Some (off, m) =>
          match m with
          | [] =>
              let tail :=
                match skipn off s with
                | [] => []
                | _ :: s' => find_all r f false s'
                end in
              if prev_end && (off =? 0) then tail else [] :: tail
          | _ :: _ => m :: find_all r f true (skipn (off + length m) s)
          end
      end
  end.

Definition FindAllString (r : regex) (s : bytes) : list bytes :=
  find_all r (S (length s)) false s.

Fixpoint lits (s : bytes) : regex :=
  match s with
  | [] => Eps
  | [c] => Lit c
  | c :: s' => Cat (Lit c) (lits s')
  end.

Definition re_digits : regex := Plus (Range "0" "9").

(** ["ADD|DEL|KNN|END"] *)
Definition re_action : regex :=
  Alt (lits (bs "ADD")) (Alt (lits (bs "DEL"))
      (Alt (lits (bs "KNN")) (lits (bs "END")))).

(** ["{[0-9]+, [0-9]+}"]; an opening brace that starts no repetition is a
    literal brace in Go's syntax. *)
Definition re_point : regex :=
  Cat (Lit "{") (Cat re_digits (Cat (Lit ",") (Cat (Lit " ")
      (Cat re_digits (Lit "}"))))).

(** ** UTF-8: what [range] over a string and [strings.TrimSpace] see *)

Definition byte_val (c : ascii) : nat := nat_of_ascii c.

Definition is_cont (b : nat) : bool := (128 <=? b) && (b <=? 191).

(** Width in bytes of the first rune of a non-empty string, as
    [utf8.DecodeRuneInString] reports it (1 for an invalid sequence). *)
Definition rune_width (s : bytes) : nat :=
  match map byte_val s with
  | [] => 0
  | a :: rest =>
      if a <? 194 then 1
      else if a <? 224 then
        match rest with
        | b :: _ => if is_cont b then 2 else 1
        | _ => 1
        end
      else if a <? 240 then
        match rest with
        | b :: c :: _ =>
            let lo := if a =? 224 then 160 else 128 in
            let hi := if a =? 237 then 159 else 191 in
            if (lo <=? b) && (b <=? hi) && is_cont c then 3 else 1
        | _ => 1
        end
      else if a <? 245 then
        match rest with
        | b :: c :: d :: _ =>
            let lo := if a =? 240 then 144 else 128 in
            let hi := if a =? 244 then 143 else 191 in
            if (lo <=? b) && (b <=? hi) && is_cont c && is_cont d then 4 else 1
        | _ => 1
        end
      else 1
  end.

(** The index values of [for x := range s]: the byte offsets at which the
    successive runes of [s] start. *)
Fixpoint range_indices (fuel : nat) (i : nat) (s : bytes) : list nat :=
  match fuel, s with
  | S f, _ :: _ =>
      let w := rune_width s in
      i :: range_indices f (i + w) (skipn w s)
  | _, _ => []
  end.

(** Width of the white-space rune ([unicode.IsSpace]) that starts [s],
    0 when [s] starts with none. *)
Definition space_width (s : bytes) : nat :=
  match map byte_val s with
  | [] => 0
  | a :: rest =>
      if a <? 128 then
        if ((9 <=? a) && (a <=? 13)) || (a =? 32) then 1 else 0
      else
        match rest with
        | [] => 0
        | b :: rest' =>
            if (a =? 194) && ((b =? 133) || (b =? 160)) then 2
            else
              match rest' with
              | [] => 0
              | c :: _ =>
                  if ((a =? 225) && (b =? 154) && (c =? 128))
                     || ((a =? 226) && (b =? 128) &&
                         (((128 <=? c) && (c <=? 138)) || (c =? 168)
                          || (c =? 169) || (c =? 175)))
                     || ((a =? 226) && (b =? 129) && (c =? 159))
                     || ((a =? 227) && (b =? 128) && (c =? 128))
                  then 3 else 0
              end
        end
  end.

(** The same for the last rune, on the reversed string
    ([utf8.DecodeLastRuneInString]). *)
Definition space_width_last (r : bytes) : nat :=
  match map byte_val r with
  | [] => 0
  | c :: rest =>
      if c <? 128 then
        if ((9 <=? c) && (c <=? 13)) || (c =? 32) then 1 else 0
      else
        match rest with
        | [] => 0
        | b :: rest' =>
            if (b =? 194) && ((c =? 133) || (c =? 160)) then 2
            else
              match rest' with
              | [] => 0
              | a :: _ =>
                  if ((a =? 225) && (b =? 154) && (c =? 128))
                     || ((a =? 226) && (b =? 128) &&
                         (((128 <=? c) && (c <=? 138)) || (c =? 168)
                          || (c =? 169) || (c =? 175)))
                     || ((a =? 226) && (b =? 129) && (c =? 159))
                     || ((a =? 227) && (b =? 128) && (c =? 128))
                  then 3 else 0
              end
        end
  end.

Fixpoint trim_with (width : bytes -> nat) (fuel : nat) (s : bytes) : bytes :=
  match fuel with
  | O => s
  | S f =>
      match width s with
      | O => s
      | w => trim_with width f (skipn w s)
      end
  end.

Definition TrimLeft (s : bytes) : bytes := trim_with space_width (length s) s.

Definition TrimRight (s : bytes) : bytes :=
  rev (trim_with space_width_last (length s) (rev s)).

(** [strings.TrimSpace] *)
Definition TrimSpace (s : bytes) : bytes := TrimRight (TrimLeft s).

(** ** [strconv.Atoi] and the conversion to [float64] *)

Definition maxUint64 : Z := 18446744073709551615.
Definition maxInt : Z := 9223372036854775807.
Definition minInt : Z := -9223372036854775808.

Definition digit_val (c : ascii) : Z := Z.of_nat (nat_of_ascii c) - 48.

Inductive uint_result : Type :=
| UOk : Z -> uint_result
| USyntax : uint_result
| URange : uint_result.

(** The digit loop of [strconv.ParseUint] in base 10 and 64 bits. *)
Fixpoint ParseUint_loop (n : Z) (s : bytes) : uint_result :=
  match s with
  | [] => UOk n
  | c :: s' =>
      if is_digit c then
        if (n >=? maxUint64 / 10 + 1)%Z then URange
        else
          let n1 := (n * 10 + digit_val c)%Z in
          if (n1 >? maxUint64)%Z then URange else ParseUint_loop n1 s'
      else USyntax
  end.

Definition ParseUint (s : bytes) : uint_result :=
  match s with
  | [] => USyntax
  | _ => ParseUint_loop 0 s
  end.

(** [strconv.Atoi] with the error dropped, as every caller in the daemon
    does ([value, _ := strconv.Atoi(token)]): 0 on a syntax error, the
    nearest bound of [int] when the number is out of range. *)
Definition Atoi (s : bytes) : Z :=
  let '(neg, body) :=
    match s with
    | c :: s' =>
        if Ascii.eqb c "+" then (false, s')
        else if Ascii.eqb c "-" then (true, s')
        else (false, s)
    | [] => (false, s)
    end in
  match ParseUint body with
  | USyntax => 0%Z
  | URange => if neg then minInt else maxInt
  | UOk un =>
      if neg then (if (un >? maxInt + 1) then minInt else - un)%Z
      else (if (un >=? maxInt + 1) then maxInt else un)%Z
  end.

(** [float64(x)] for an [int] [x]: exact up to 53 bits, beyond that rounded
    to 53 significant bits, ties to even. *)
Definition float64_of_int (x : Z) : Z :=
  let a := Z.abs x in
  if (a <? 2 ^ 53)%Z then x
  else
    let e := (Z.log2 a - 52)%Z in
    let q := (a / 2 ^ e)%Z in
    let r := (a mod 2 ^ e)%Z in
    let half := (2 ^ (e - 1))%Z in
    let q' := if (half <? r)%Z || ((r =? half)%Z && Z.odd q)
              then (q + 1)%Z else q in
    (Z.sgn x * (q' * 2 ^ e))%Z.

(** ** The parser state *)

Record Data : Type := mkData { value : Z }.

Record Expr : Type := mkExpr {
  buffer : bytes;
  position : nat;
  action : bytes;
  point : list Z;
  data : Data;
  valid : bool
}.

Definition with_position (e : Expr) (p : nat) : Expr :=
  mkExpr (buffer e) p (action e) (point e) (data e) (valid e).
Definition with_action (e : Expr) (a : bytes) : Expr :=
  mkExpr (buffer e) (position e) a (point e) (data e) (valid e).
Definition with_point (e : Expr) (p : list Z) : Expr :=
  mkExpr (buffer e) (position e) (action e) p (data e) (valid e).
Definition with_data (e : Expr) (d : Data) : Expr :=
  mkExpr (buffer e) (position e) (action e) (point e) d (valid e).
Definition with_valid (e : Expr) (v : bool) : Expr :=
  mkExpr (buffer e) (position e) (action e) (point e) (data e) v.

(** A method on [*Expr]: it reads and updates the expression and may
    panic ([None]). *)
Definition M (A : Type) : Type := Expr -> option (A * Expr).

Definition ret {A} (a : A) : M A := fun e => Some (a, e).
Definition bind {A B} (m : M A) (f : A -> M B) : M B :=
  fun e => match m e with
           | Some (a, e') => f a e'
           | None => None
           end.
Definition get : M Expr := fun e => Some (e, e).
Definition modify (f : Expr -> Expr) : M unit := fun e => Some (tt, f e).
Definition panic {A} : M A := fun _ => None.

Declare Scope go_scope.
Delimit Scope go_scope with go.
Notation "x <- m ;; k" := (bind m (fun x => k))
  (at level 61, m at next level, right associativity) : go_scope.
Notation "m ;;; k" := (bind m (fun _ => k))
  (at level 61, right associativity) : go_scope.
Local Open Scope go_scope.

(** Go's short-circuit [&&] and [||] over calls that mutate the state. *)
Definition andM (a b : M bool) : M bool :=
  x <- a ;; if x then b else ret false.
Definition orM (a b : M bool) : M bool :=
  x <- a ;; if x then ret true else b.

(** [s[p:]]: a slice bound beyond the length is a run-time panic. *)
Definition slice_from (s : bytes) (p : nat) : option bytes :=
  if p <=? length s then Some (skipn p s) else None.

Definition Current : M bytes :=
  fun e => match slice_from (buffer e) (position e) with
           | Some c => Some (c, e)
           | None => None
           end.

(** [string(x) != " "] for an [int] [x]: the conversion yields the UTF-8
    text of code point [x], which is a space exactly for [x = 32]. *)
Definition int_string_is_space (x : nat) : bool := x =? 32.

(** The loop of [SkipWhitespace]; [x] ranges over the index values. *)
Fixpoint skip_loop (idx : list nat) (pos : nat) : nat :=
  match idx with
  | [] => pos
  | x :: rest =>
      if negb (int_string_is_space x) then pos
      else skip_loop rest (pos + 1)
  end.

Definition SkipWhitespace : M unit :=
  cur <- Current ;;
  modify (fun e =>
    with_position e (skip_loop (range_indices (length cur) 0 cur) (position e))).

(** [Match]; [token] is the result of [regexp.Compile], [None] when the
    pattern does not compile. *)
Definition Match (token : option regex) : M (bytes * bool) :=
  SkipWhitespace ;;;
  match token with
  | None => ret ([], false)
  | Some re =>
      cur <- Current ;;
      match Find re cur with
      | Some m =>
          modify (fun e => with_position e (position e + length m)) ;;;
          ret (m, true)
      | None => ret ([], false)
      end
  end.

(** [MakePoint]: indexing [rst] out of range is a panic. *)
Definition MakePoint (p : bytes) : option (list Z) :=
  let rst := FindAllString re_digits p in
  match nth_error rst 0, nth_error rst 1 with
  | Some r0, Some r1 =>
      let x := Atoi r0 in
      let y := Atoi r1 in
      Some [float64_of_int x; float64_of_int y]
  | _, _ => None
  end.

Definition IsAction : M bool :=
  r <- Match (Some re_action) ;;
  let '(token, status) := r in
  if status then modify (fun e => with_action e token) ;;; ret true
  else modify (fun e => with_position e 0) ;;; ret false.

Definition IsEndAction : M bool :=
  rst <- IsAction ;;
  e <- get ;;
  if bytes_eqb (action e) (bs "END") then ret rst
  else modify (fun e => with_position e 0) ;;; ret false.

Definition IsPoint : M bool :=
  r <- Match (Some re_point) ;;
  let '(token, status) := r in
  if status then
    match MakePoint token with
    | Some p => modify (fun e => with_point e p) ;;; ret true
    | None => panic
    end
  else modify (fun e => with_position e 0) ;;; ret false.

Definition IsData : M bool :=
  r <- Match (Some re_digits) ;;
  let '(token, status) := r in
  if status then
    let value := Atoi token in
    modify (fun e => with_data e (mkData value)) ;;; ret true
  else modify (fun e => with_position e 0) ;;; ret false.

Definition IsCommand : M bool := andM (andM IsAction IsPoint) IsData.

Definition IsAddCommand : M bool :=
  rst <- IsCommand ;;
  e <- get ;;
  if bytes_eqb (action e) (bs "ADD") then ret rst
  else modify (fun e => with_position e 0) ;;; ret false.

Definition IsKnnCommand : M bool :=
  rst <- IsCommand ;;
  e <- get ;;
  if bytes_eqb (action e) (bs "KNN") then ret rst
  else modify (fun e => with_position e 0) ;;; ret false.

Definition IsPartialCommand : M bool := andM IsAction IsPoint.

Definition IsDelCommand : M bool :=
  rst <- IsPartialCommand ;;
  e <- get ;;
  if bytes_eqb (action e) (bs "DEL") then ret rst
  else modify (fun e => with_position e 0) ;;; ret false.

Definition IsFullCommand : M bool := orM IsAddCommand IsKnnCommand.

(** The zero value of [Expr] with the buffer set. *)
Definition new_Expr (command : bytes) : Expr :=
  mkExpr command 0 [] [] (mkData 0) false.

Definition ParseKDtreeCommand (command : bytes) : option Expr :=
  let command := TrimSpace command in
  let expr := new_Expr command in
  match orM (orM IsFullCommand IsDelCommand) IsEndAction expr with
  | Some (valid, expr) => Some (if valid then with_valid expr true else expr)
  | None => None
  end.
(** ** The session loop

    What a session does is recorded as a trace of events; the socket is
    the list of the results of the successive [ReadString] calls. *)

Definition StoreRecord : Type := (list Z * Data)%type.

(** The operations of the k-d tree library the daemon calls.  The
    library is not among the sources.  [Insert] and [Remove] are handed a
    point of the parser, which always has two coordinates, and are taken
    to return.  [KNN] is handed also the count of the command as it was
    read, unchecked, any number from 0 to 2^63 - 1; a call of it may
    panic, which is the result [None]: nothing in the sources recovers a
    panic, so it ends the session where it stands, and the process with
    it. *)
Class KDTree (T : Type) : Type := {
  Insert : T -> list Z -> Data -> T;
  Remove : T -> list Z -> T;
  KNN : T -> list Z -> Z -> option (list StoreRecord)
}.

Inductive read_result : Type :=
| ReadOk : bytes -> read_result
| ReadErr : read_result.

(** The texts written to the connection; the [%+v] rendering of points and
    records is not modelled, the values are kept. *)
Inductive response : Type :=
| Greeting : response                       (* "Connected to kdtreed..." *)
| ReadError : response                      (* "READ ERROR" *)
| InvalidCommand : response                 (* "INVALID COMMAND" *)
| Bye : response                            (* "BYE!!!" *)
| Added : list Z -> response                (* "<point> added" *)
| Deleted : list Z -> response              (* "<point> deleted" *)
| KnnResult : list StoreRecord -> response. (* "<rst>" *)

Inductive event : Type :=
| EvWrite : response -> event
| EvLock : event
| EvUnlock : event
| EvInsert : list Z -> Data -> event
| EvRemove : list Z -> event
| EvKNN : list Z -> Z -> event
| EvClose : event
| EvFatal : event.

Inductive outcome : Type :=
| Returned : outcome      (* the loop was left: the connection is closed *)
| Reading : outcome       (* blocked in [ReadString]: no more input *)
| ProcessExit : outcome   (* [log.Fatal]: the whole server process exits *)
| Panicked : outcome.     (* an unrecovered panic: the process dies *)

Definition emit {T} (evs : list event) (r : T * list event * outcome)
  : T * list event * outcome :=
  let '(t, rest, o) := r in (t, evs ++ rest, o).

(** [daemon.go].  Its [KdtreeStore] is the tree together with a mutex:
    the store is the tree, and taking and releasing the mutex are the
    events [EvLock] and [EvUnlock]. *)
Module Daemon.
Section WithTree.
Context {T : Type} `{KDTree T}.

Fixpoint loop (reads : list read_result) (store : T)
  : T * list event * outcome :=
  match reads with
  | [] => (store, [], Reading)
  | ReadErr :: rest => emit [EvWrite ReadError] (loop rest store)
  | ReadOk line :: rest =>
      match ParseKDtreeCommand line with
      | None => (store, [], Panicked)
      | Some parsed =>
          if negb (valid parsed) then
            emit [EvWrite InvalidCommand] (loop rest store)
          else if valid parsed && bytes_eqb (action parsed) (bs "END") then
            (store, [EvWrite Bye; EvClose], Returned)
          else if bytes_eqb (action parsed) (bs "ADD") then
            emit [EvLock; EvInsert (point parsed) (data parsed); EvUnlock;
                  EvWrite (Added (point parsed))]
                 (loop rest (Insert store (point parsed) (data parsed)))
          else if bytes_eqb (action parsed) (bs "DEL") then
            emit [EvLock; EvRemove (point parsed); EvUnlock;
                  EvWrite (Deleted (point parsed))]
                 (loop rest (Remove store (point parsed)))
          else if bytes_eqb (action parsed) (bs "KNN") then
            match KNN store (point parsed) (value (data parsed)) with
            | Some rst =>
                emit [EvKNN (point parsed) (value (data parsed));
                      EvWrite (KnnResult rst)]
                     (loop rest store)
            | None =>
                (store, [EvKNN (point parsed) (value (data parsed))],
                 Panicked)
            end
          else loop rest store
      end
  end.

Definition HandleRequest (reads : list read_result) (store : T)
  : T * list event * outcome :=
  emit [EvWrite Greeting] (loop reads store).
End WithTree.
End Daemon.

(** The second source file: the same parser, another [HandleRequest]. *)
Module Sibling.
Section WithTree.
Context {T : Type} `{KDTree T}.

Fixpoint loop (reads : list read_result) (tree : T)
  : T * list event * outcome :=
  match reads with
  | [] => (tree, [], Reading)
  | ReadErr :: _ => (tree, [EvFatal], ProcessExit)
  | ReadOk line :: rest =>
      match ParseKDtreeCommand line with
      | None => (tree, [], Panicked)
      | Some parsed =>
          if negb (valid parsed) then (tree, [EvClose], Returned)
          else if valid parsed && bytes_eqb (action parsed) (bs "END") then
            (tree, [EvClose], Returned)
          else if bytes_eqb (action parsed) (bs "ADD") then
            emit [EvInsert (point parsed) (data parsed);
                  EvWrite (Added (point parsed))]
                 (loop rest (Insert tree (point parsed) (data parsed)))
          else if bytes_eqb (action parsed) (bs "DEL") then
            emit [EvRemove (point parsed);
                  EvWrite (Deleted (point parsed))]
                 (loop rest (Remove tree (point parsed)))
          else if bytes_eqb (action parsed) (bs "KNN") then
            match KNN tree (point parsed) (value (data parsed)) with
            | Some rst =>
                emit [EvKNN (point parsed) (value (data parsed));
                      EvWrite (KnnResult rst)]
                     (loop rest tree)
            | None =>
                (tree, [EvKNN (point parsed) (value (data parsed))],
                 Panicked)
            end
          else loop rest tree
      end
  end.

Definition HandleRequest (reads : list read_result) (tree : T)
  : T * list event * outcome :=
  emit [EvWrite Greeting] (loop reads tree).
End WithTree.
End Sibling.

(** The lock discipline of a trace: every access to the tree happens
    between an [EvLock] and the next [EvUnlock].  [held] is whether the
    session holds the lock. *)
Fixpoint accesses_locked (held : bool) (tr : list event) : bool :=
  match tr with
  | [] => true
  | EvLock :: tr' => accesses_locked true tr'
  | EvUnlock :: tr' => accesses_locked false tr'
  | EvInsert _ _ :: tr' => held && accesses_locked held tr'
  | EvRemove _ :: tr' => held && accesses_locked held tr'
  | EvKNN _ _ :: tr' => held && accesses_locked held tr'
  | _ :: tr' => accesses_locked held tr'
  end.

(** The same for the mutations only. *)
Fixpoint mutations_locked (held : bool) (tr : list event) : bool :=
  match tr with
  | [] => true
  | EvLock :: tr' => mutations_locked true tr'
  | EvUnlock :: tr' => mutations_locked false tr'
  | EvInsert _ _ :: tr' => held && mutations_locked held tr'
  | EvRemove _ :: tr' => held && mutations_locked held tr'
  | _ :: tr' => mutations_locked held tr'
  end.

(** Whether the session holds the lock at the end of a trace. *)
Fixpoint lock_after (held : bool) (tr : list event) : bool :=
  match tr with
  | [] => held
  | EvLock :: tr' => lock_after true tr'
  | EvUnlock :: tr' => lock_after false tr'
  | _ :: tr' => lock_after held tr'
  end.

(** ** The store of the specification *)

Definition point_eqb (p q : list Z) : bool :=
  if list_eq_dec Z.eq_dec p q then true else false.

(** Squared Euclidean distance; ascending Euclidean distance is ascending
    squared distance. *)
Fixpoint dist2 (p q : list Z) : Z :=
  match p, q with
  | a :: p', b :: q' => ((a - b) * (a - b) + dist2 p' q')%Z
  | _, _ => 0%Z
  end.

Module SpecStore.

(** Modelled from the spec: the k-d tree of the library
    [github.com/kyroy/kdtree] ([Insert], [Remove], [KNN]) is not under
    src/.  Section 4.3 describes the store as a collection of records
    with these three operations; the collection is kept in insertion
    order, which stands for the traversal order of the index. *)
Definition Store : Type := list StoreRecord.

(** Modelled from the spec: [Insert(point, payload)] "adds a new record
    unconditionally; always succeeds; no uniqueness check". *)
Definition spec_Insert (st : Store) (p : list Z) (d : Data) : Store :=
  st ++ [(p, d)].

(** Modelled from the spec: [Delete(point)] "removes every record whose
    point equals the argument exactly; no-op (not an error) if none
    match". *)
Definition spec_Delete (st : Store) (p : list Z) : Store :=
  filter (fun r => negb (point_eqb (fst r) p)) st.

(** Insertion behind the records that are not farther from [q]. *)
Fixpoint insert_by (q : list Z) (r : StoreRecord) (l : list StoreRecord)
  : list StoreRecord :=
  match l with
  | [] => [r]
  | r' :: l' =>
      if (dist2 (fst r) q <? dist2 (fst r') q)%Z then r :: r' :: l'
      else r' :: insert_by q r l'
  end.

(** Stable: records at the same distance keep the order of the store. *)
Definition sort_by_distance (q : list Z) (l : list StoreRecord)
  : list StoreRecord :=
  fold_left (fun acc r => insert_by q r acc) l [].

(** Modelled from the spec: [KNearest(point, k)] "returns up to k records
    ordered by ascending Euclidean distance to point, ties broken by the
    underlying index's traversal order; if fewer than k records exist,
    returns all of them; k <= 0 returns an empty sequence". *)
Definition spec_KNearest (st : Store) (q : list Z) (k : Z)
  : list StoreRecord :=
  if (k <=? 0)%Z then []
  else firstn (Z.to_nat k) (sort_by_distance q st).

#[global] Instance spec_tree : KDTree Store := {
  Insert := spec_Insert;
  Remove := spec_Delete;
  KNN := fun st q k => Some (spec_KNearest st q k)
}.
End SpecStore.

(** ** The matcher and the grammar as the specification words them *)

Module Spec.

Fixpoint skip_spaces (s : bytes) : nat :=
  match s with
  | c :: s' => if Ascii.eqb c " " then S (skip_spaces s') else 0
  | [] => 0
  end.

(** Section 4.1: the pattern is tried at the first non-space character at
    or after the cursor; on a match the cursor moves past the match, on
    no match it stays where the skipping left it.  The result is the
    matched text, if any, and the new cursor. *)
Definition Match (buffer : bytes) (cursor : nat) (r : regex)
  : option bytes * nat :=
  let start := cursor + skip_spaces (skipn cursor buffer) in
  match match_prefix r (skipn start buffer) with
  | Some m => (Some m, start + length m)
  | None => (None, start)
  end.

(** A sequence of required tokens from the start of the line. *)
Fixpoint tokens (buffer : bytes) (cursor : nat) (rs : list regex) : bool :=
  match rs with
  | [] => true
  | r :: rs' =>
      match Match buffer cursor r with
      | (Some _, c) => tokens buffer c rs'
      | (None, _) => false
      end
  end.

(** Section 4.2: the four shapes, on the trimmed line.  What follows a
    structurally complete command is not looked at, which is the most
    permissive reading of the grammar. *)
Definition shape (line : bytes) : bool :=
  let b := TrimSpace line in
  tokens b 0 [lits (bs "ADD"); re_point; re_digits]
  || tokens b 0 [lits (bs "DEL"); re_point]
  || tokens b 0 [lits (bs "KNN"); re_point; re_digits]
  || tokens b 0 [lits (bs "END")].
End Spec.
(** ** Notions used to state the properties *)

(** The language of a pattern. *)
Inductive lang : regex -> bytes -> Prop :=
| lang_eps : lang Eps []
| lang_lit : forall c, lang (Lit c) [c]
| lang_range : forall lo hi c, in_range lo hi c = true -> lang (Range lo hi) [c]
| lang_cat : forall a b s1 s2,
    lang a s1 -> lang b s2 -> lang (Cat a b) (s1 ++ s2)
| lang_alt_l : forall a b s, lang a s -> lang (Alt a b) s
| lang_alt_r : forall a b s, lang b s -> lang (Alt a b) s
| lang_plus_one : forall a s, lang a s -> lang (Plus a) s
| lang_plus_more : forall a s1 s2,
    lang a s1 -> lang (Plus a) s2 -> lang (Plus a) (s1 ++ s2).

(** A digit group: one or more decimal digits. *)
Definition digit_group (d : bytes) : bool :=
  match d with
  | [] => false
  | _ => forallb is_digit d
  end.

(** The number a digit group denotes. *)
Definition dec_step (a : Z) (c : ascii) : Z := (a * 10 + digit_val c)%Z.

Definition dec_value (d : bytes) : Z := fold_left dec_step d 0%Z.

(** Whether a string starts with a digit. *)
Definition starts_with_digit (s : bytes) : bool :=
  match s with
  | c :: _ => is_digit c
  | [] => false
  end.

(** The text of a point: ["{x, y}"]. *)
Definition point_text (x y : bytes) : bytes :=
  bs "{" ++ x ++ bs ", " ++ y ++ bs "}".

(** A byte that is ASCII and not white space. *)
Definition plain (c : ascii) : bool :=
  let b := byte_val c in
  (b <? 128) && negb (((9 <=? b) && (b <=? 13)) || (b =? 32)).

(** The four action keywords. *)
Definition keywords : list bytes := [bs "ADD"; bs "DEL"; bs "KNN"; bs "END"].

(** The decoded point: the two coordinates as [float64]. *)
Definition coords (x y : bytes) : list Z :=
  [float64_of_int (Atoi x); float64_of_int (Atoi y)].

(** The texts of the four commands. *)
Definition line_add (x y n : bytes) : bytes :=
  bs "ADD" ++ bs " " ++ point_text x y ++ bs " " ++ n.
Definition line_del (x y : bytes) : bytes :=
  bs "DEL" ++ bs " " ++ point_text x y.
Definition line_knn (x y n : bytes) : bytes :=
  bs "KNN" ++ bs " " ++ point_text x y ++ bs " " ++ n.
Definition line_end : bytes := bs "END".

(** The three alternatives of [ParseKDtreeCommand] on a trimmed buffer. *)
Definition alternatives : M bool :=
  orM (orM IsFullCommand IsDelCommand) IsEndAction.

(** The result of a command that is checked against one keyword
    afterwards. *)
Definition guarded (kw : bytes) (r : bool * Expr) : bool * Expr :=
  if bytes_eqb (action (snd r)) kw then r
  else (false, with_position (snd r) 0).

(** The components of what [HandleRequest] returns. *)
Definition final_store {T} (r : T * list event * outcome) : T := fst (fst r).
Definition trace {T} (r : T * list event * outcome) : list event :=
  snd (fst r).
Definition result {T} (r : T * list event * outcome) : outcome := snd r.

(** [r] is at most as far from [q] as [r']. *)
Definition closer (q : list Z) (r r' : StoreRecord) : Prop :=
  (dist2 (fst r) q <= dist2 (fst r') q)%Z.


(** ** Plain scanning, to describe what the tokens find *)

(** Whether [p] is a prefix of [s]. *)
Fixpoint prefixb (p s : bytes) : bool :=
  match p, s with
  | [], _ => true
  | a :: p', b :: s' => Ascii.eqb a b && prefixb p' s'
  | _ :: _, [] => false
  end.

(** The keyword that [s] starts with. *)
Definition keyword_at (s : bytes) : option bytes :=
  find (fun kw => prefixb kw s) keywords.

(** The leftmost keyword that occurs in [s]. *)
Fixpoint first_keyword (s : bytes) : option bytes :=
  match keyword_at s with
  | Some kw => Some kw
  | None =>
      match s with
      | [] => None
      | _ :: s' => first_keyword s'
      end
  end.

(** The digits that [s] starts with, and what follows them. *)
Fixpoint take_digits (s : bytes) : bytes :=
  match s with
  | c :: s' => if is_digit c then c :: take_digits s' else []
  | [] => []
  end.

Fixpoint drop_digits (s : bytes) : bytes :=
  match s with
  | c :: s' => if is_digit c then drop_digits s' else s
  | [] => []
  end.

(** The leftmost run of digits in [s], taken as far as it goes. *)
Fixpoint first_digits (s : bytes) : option bytes :=
  match s with
  | [] => None
  | c :: s' => if is_digit c then Some (c :: take_digits s') else first_digits s'
  end.

(** The two digit groups of the point text that [s] starts with. *)
Definition point_at (s : bytes) : option (bytes * bytes) :=
  match s with
  | c :: s1 =>
      if Ascii.eqb c "{" then
        let x := take_digits s1 in
        match drop_digits s1 with
        | c1 :: c2 :: s2 =>
            if Ascii.eqb c1 "," && Ascii.eqb c2 " " then
              let y := take_digits s2 in
              match drop_digits s2 with
              | c3 :: _ =>
                  if Ascii.eqb c3 "}" && digit_group x && digit_group y
                  then Some (x, y) else None
              | [] => None
              end
            else None
        | _ => None
        end
      else None
  | [] => None
  end.

(** The digit groups of the leftmost point text that occurs in [s]. *)
Fixpoint first_point (s : bytes) : option (bytes * bytes) :=
  match point_at s with
  | Some xy => Some xy
  | None =>
      match s with
      | [] => None
      | _ :: s' => first_point s'
      end
  end.

(** What [ParseKDtreeCommand] returns on a trimmed buffer, read off the
    leftmost keyword of the buffer, the leftmost point text from byte 3
    on, and the leftmost run of digits from where the cursor stands after
    the point. *)
Definition scan_parse (B : bytes) : Expr :=
  match first_keyword B with
  | None => new_Expr B
  | Some kw =>
      match first_point (skipn 3 B) with
      | None =>
          if bytes_eqb kw (bs "END")
          then mkExpr B 3 kw [] (mkData 0) true
          else mkExpr B 0 kw [] (mkData 0) false
      | Some (x, y) =>
          let p2 := 3 + length (point_text x y) in
          match first_digits (skipn p2 B) with
          | None =>
              if bytes_eqb kw (bs "DEL")
              then mkExpr B p2 kw (coords x y) (mkData 0) true
              else if bytes_eqb kw (bs "END")
              then mkExpr B 3 kw (coords x y) (mkData 0) true
              else mkExpr B 0 kw (coords x y) (mkData 0) false
          | Some n =>
              if bytes_eqb kw (bs "ADD") || bytes_eqb kw (bs "KNN")
              then mkExpr B (p2 + length n) kw (coords x y)
                     (mkData (Atoi n)) true
              else if bytes_eqb kw (bs "DEL")
              then mkExpr B p2 kw (coords x y) (mkData (Atoi n)) true
              else mkExpr B 3 kw (coords x y) (mkData (Atoi n)) true
          end
      end
  end.

(** White space of one ASCII byte: tab, line feed, vertical tab, form
    feed, carriage return, blank. *)
Definition ascii_space (c : ascii) : bool :=
  let b := byte_val c in ((9 <=? b) && (b <=? 13)) || (b =? 32).

(** A point of two coordinates, none negative. *)
Definition point2 (p : list Z) : Prop :=
  exists a b, p = [a; b] /\ (0 <= a)%Z /\ (0 <= b)%Z.

(** No byte of [s] is a digit. *)
Definition digit_free (s : bytes) : bool :=
  forallb (fun c => negb (is_digit c)) s.

(** ** Notions for the sessions *)

(** The command an expression stands for, as the [if]s and the [switch]
    of [HandleRequest] tell the cases apart; [CmdNone] is a valid
    expression whose action is in no [case]. *)
Inductive command : Type :=
| CmdInvalid : command
| CmdEnd : command
| CmdAdd : list Z -> Data -> command
| CmdDel : list Z -> command
| CmdKnn : list Z -> Z -> command
| CmdNone : command.

Definition command_of (e : Expr) : command :=
  if negb (valid e) then CmdInvalid
  else if valid e && bytes_eqb (action e) (bs "END") then CmdEnd
  else if bytes_eqb (action e) (bs "ADD") then CmdAdd (point e) (data e)
  else if bytes_eqb (action e) (bs "DEL") then CmdDel (point e)
  else if bytes_eqb (action e) (bs "KNN")
       then CmdKnn (point e) (value (data e))
  else CmdNone.

(** Whether END is the leftmost keyword of the line that was read. *)
Definition is_end_line (r : read_result) : bool :=
  match r with
  | ReadOk line =>
      match first_keyword (TrimSpace line) with
      | Some kw => bytes_eqb kw (bs "END")
      | None => false
      end
  | ReadErr => false
  end.

Fixpoint count_writes (tr : list event) : nat :=
  match tr with
  | [] => 0
  | EvWrite _ :: tr' => S (count_writes tr')
  | _ :: tr' => count_writes tr'
  end.

(** The mutex of one session along a trace: it is taken only when free and
    released only when held, the tree is mutated only while it is held,
    nothing is written to the connection and the connection is not closed
    while it is held, and it is free at the end.  The nearest-neighbour
    read is allowed in either state. *)
Fixpoint lock_discipline (held : bool) (tr : list event) : bool :=
  match tr with
  | [] => negb held
  | EvLock :: tr' => negb held && lock_discipline true tr'
  | EvUnlock :: tr' => held && lock_discipline false tr'
  | EvInsert _ _ :: tr' => held && lock_discipline held tr'
  | EvRemove _ :: tr' => held && lock_discipline held tr'
  | EvKNN _ _ :: tr' => lock_discipline held tr'
  | EvWrite _ :: tr' => negb held && lock_discipline held tr'
  | EvClose :: tr' => negb held && lock_discipline held tr'
  | EvFatal :: tr' => negb held && lock_discipline held tr'
  end.

(** The tree after the mutations of a trace, in their order. *)
Definition replay {T} `{KDTree T} (tr : list event) (t : T) : T :=
  fold_left (fun t ev =>
               match ev with
               | EvInsert p d => Insert t p d
               | EvRemove p => Remove t p
               | _ => t
               end) tr t.

(** What an event hands to the tree: points of two coordinates, none
    negative, and payloads and counts between 0 and the largest [int]. *)
Definition event_ok (ev : event) : Prop :=
  match ev with
  | EvInsert p d => point2 p /\ (0 <= value d <= maxInt)%Z
  | EvRemove p => point2 p
  | EvKNN p k => point2 p /\ (0 <= k <= maxInt)%Z
  | _ => True
  end.

(** A trace without the events of the mutex. *)
Definition without_locks (tr : list event) : list event :=
  filter (fun ev => match ev with
                    | EvLock | EvUnlock => false
                    | _ => true
                    end) tr.

(** The status texts, which only [daemon.go] writes. *)
Definition is_status (ev : event) : bool :=
  match ev with
  | EvWrite ReadError | EvWrite InvalidCommand | EvWrite Bye => true
  | _ => false
  end.
(** * Properties *)

Unset Implicit Arguments.

(** ** The matcher *)

Lemma plus_loop_unfold :
  forall A (m : bytes -> (bytes -> option A) -> option A) fuel s k,
    plus_loop m fuel s k =
    m s (fun s' =>
      if length s' <? length s then
        match fuel with
        | S f =>
            match plus_loop m f s' k with
            | Some v => Some v
            | None => k s'
            end
        | O => k s'
        end
      else k s').
Proof. intros A m fuel s k. destruct fuel; reflexivity. Qed.

Lemma plus_loop_sound :
  forall A a (m : bytes -> (bytes -> option A) -> option A),
    (forall s k v, m s k = Some v ->
       exists s1 s2, s = s1 ++ s2 /\ lang a s1 /\ k s2 = Some v) ->
    forall fuel s k v, plus_loop m fuel s k = Some v ->
      exists s1 s2, s = s1 ++ s2 /\ lang (Plus a) s1 /\ k s2 = Some v.
Proof.
  intros A a m Hm fuel.
  induction fuel as [|f IH]; intros s k v Hp;
    rewrite plus_loop_unfold in Hp; apply Hm in Hp;
    destruct Hp as (s1 & s2 & Hs & Ha & Hk).
  - destruct (length s2 <? length s);
      exists s1, s2; auto using lang_plus_one.
  - destruct (length s2 <? length s).
    + destruct (plus_loop m f s2 k) as [w|] eqn:Hrec.
      * injection Hk as ->.
        apply IH in Hrec. destruct Hrec as (t1 & t2 & Ht & Hl & Hk').
        exists (s1 ++ t1), t2. subst. rewrite <- app_assoc.
        auto using lang_plus_more.
      * exists s1, s2; auto using lang_plus_one.
    + exists s1, s2; auto using lang_plus_one.
Qed.

Lemma rmatch_sound :
  forall A r s (k : bytes -> option A) v,
    rmatch r s k = Some v ->
    exists s1 s2, s = s1 ++ s2 /\ lang r s1 /\ k s2 = Some v.
Proof.
  intros A r. induction r as [|c|lo hi|a IHa b IHb|a IHa b IHb|a IHa];
    intros s k v Hm; simpl in Hm.
  - exists [], s. auto using lang_eps.
  - destruct s as [|c' s']; [discriminate|].
    destruct (Ascii.eqb c c') eqn:E; [|discriminate].
    apply Ascii.eqb_eq in E. subst c'.
    exists [c], s'. auto using lang_lit.
  - destruct s as [|c' s']; [discriminate|].
    destruct (in_range lo hi c') eqn:E; [|discriminate].
    exists [c'], s'. auto using lang_range.
  - apply IHa in Hm. destruct Hm as (s1 & s2 & Hs & Ha & Hk).
    apply IHb in Hk. destruct Hk as (t1 & t2 & Ht & Hb & Hk).
    exists (s1 ++ t1), t2. subst. rewrite <- app_assoc.
    auto using lang_cat.
  - destruct (rmatch a s k) as [w|] eqn:E.
    + injection Hm as ->. apply IHa in E.
      destruct E as (s1 & s2 & Hs & Ha & Hk).
      exists s1, s2. auto using lang_alt_l.
    + apply IHb in Hm. destruct Hm as (s1 & s2 & Hs & Hb & Hk).
      exists s1, s2. auto using lang_alt_r.
  - eapply plus_loop_sound in Hm; eauto.
Qed.

Lemma firstn_prefix_length :
  forall (m rest : bytes),
    firstn (length (m ++ rest) - length rest) (m ++ rest) = m.
Proof.
  intros m rest. rewrite length_app.
  replace (length m + length rest - length rest) with (length m) by lia.
  rewrite firstn_app, Nat.sub_diag, firstn_all. simpl. apply app_nil_r.
Qed.

Lemma match_prefix_sound :
  forall r s m, match_prefix r s = Some m ->
    exists rest, s = m ++ rest /\ lang r m.
Proof.
  intros r s m H. unfold match_prefix in H.
  destruct (rmatch r s (fun rest => Some (length rest))) as [n|] eqn:E;
    [|discriminate].
  apply rmatch_sound in E. destruct E as (s1 & s2 & Hs & Hl & Hk).
  injection Hk as <-. injection H as <-. subst s.
  rewrite firstn_prefix_length. eauto.
Qed.

Lemma match_prefix_intro :
  forall r m rest,
    rmatch r (m ++ rest) (fun t => Some (length t)) = Some (length rest) ->
    match_prefix r (m ++ rest) = Some m.
Proof.
  intros r m rest H. unfold match_prefix. rewrite H.
  now rewrite firstn_prefix_length.
Qed.

Lemma find_at_sound :
  forall r s off o m, find_at r off s = Some (o, m) ->
    exists pre post,
      s = pre ++ m ++ post /\ o = off + length pre /\ lang r m.
Proof.
  intros r s. induction s as [|c s IH]; intros off o m H; simpl in H.
  - destruct (match_prefix r []) as [m'|] eqn:E; [|discriminate].
    injection H as <- <-. apply match_prefix_sound in E.
    destruct E as (rest & Hs & Hl). exists [], rest. simpl. auto.
  - destruct (match_prefix r (c :: s)) as [m'|] eqn:E.
    + injection H as <- <-. apply match_prefix_sound in E.
      destruct E as (rest & Hs & Hl). exists [], rest. simpl. auto.
    + apply IH in H. destruct H as (pre & post & Hs & Ho & Hl).
      exists (c :: pre), post. subst. simpl. split; [reflexivity|].
      split; [lia|assumption].
Qed.

Lemma Find_sound :
  forall r s m, Find r s = Some m ->
    exists pre post, s = pre ++ m ++ post /\ lang r m.
Proof.
  intros r s m H. unfold Find in H.
  destruct (find_at r 0 s) as [[o m']|] eqn:E; [|discriminate].
  injection H as ->. apply find_at_sound in E.
  destruct E as (pre & post & Hs & _ & Hl). eauto.
Qed.

Lemma Find_length :
  forall r s m, Find r s = Some m -> length m <= length s.
Proof.
  intros r s m H. apply Find_sound in H.
  destruct H as (pre & post & -> & _). rewrite !length_app. lia.
Qed.

(** ** The code on sample inputs *)

Example find_action_leftmost :
  Find re_action (bs "xADD {1, 2} 3") = Some (bs "ADD").
Proof. reflexivity. Qed.

Example find_point_after_space :
  Find re_point (bs " {12, 345} 3") = Some (bs "{12, 345}").
Proof. reflexivity. Qed.

Example find_all_digit_groups :
  FindAllString re_digits (bs "{12, 345}") = [bs "12"; bs "345"].
Proof. reflexivity. Qed.

Example trim_space_line :
  TrimSpace (" "%char :: "009"%char :: bs "END" ++ ["013"%char; "010"%char])
  = bs "END".
Proof. reflexivity. Qed.

Example atoi_clamps : Atoi (bs "99999999999999999999") = maxInt.
Proof. reflexivity. Qed.

Example parse_add_line :
  ParseKDtreeCommand (bs "ADD {1, 2} 3" ++ ["010"%char]) =
  Some (mkExpr (bs "ADD {1, 2} 3") 10 (bs "ADD") [1; 2]%Z (mkData 3) true).
Proof. reflexivity. Qed.

Example parse_knn_line :
  ParseKDtreeCommand (bs "KNN {0, 0} 2") =
  Some (mkExpr (bs "KNN {0, 0} 2") 10 (bs "KNN") [0; 0]%Z (mkData 2) true).
Proof. reflexivity. Qed.

Example parse_unknown_line :
  ParseKDtreeCommand (bs "hello") =
  Some (mkExpr (bs "hello") 0 [] [] (mkData 0) false).
Proof. reflexivity. Qed.

(** The scenarios of section 8 of the specification, on its store. *)
Example scenario_round_trip :
  trace (Daemon.HandleRequest
           [ReadOk (bs "ADD {3, 4} 7"); ReadOk (bs "KNN {3, 4} 1")]
           ([] : SpecStore.Store)) =
  [EvWrite Greeting;
   EvLock; EvInsert [3; 4]%Z (mkData 7); EvUnlock; EvWrite (Added [3; 4]%Z);
   EvKNN [3; 4]%Z 1; EvWrite (KnnResult [([3; 4]%Z, mkData 7)])].
Proof. reflexivity. Qed.

Example scenario_ascending_distance :
  SpecStore.spec_KNearest
    [([1; 1]%Z, mkData 10); ([2; 2]%Z, mkData 20); ([10; 10]%Z, mkData 30)]
    [0; 0]%Z 2 =
  [([1; 1]%Z, mkData 10); ([2; 2]%Z, mkData 20)].
Proof. reflexivity. Qed.

Example scenario_empty_store :
  SpecStore.spec_KNearest [] [1; 1]%Z 5 = [].
Proof. reflexivity. Qed.

(** ** Digit groups and the text of a point *)

Lemma in_range_digit : forall c, in_range "0" "9" c = is_digit c.
Proof. reflexivity. Qed.

Lemma digit_group_cons :
  forall c d, digit_group (c :: d) = true ->
    is_digit c = true /\ forallb is_digit d = true.
Proof.
  intros c d H. simpl in H. now apply andb_true_iff in H.
Qed.

Lemma digit_group_forallb :
  forall d, digit_group d = true -> d <> [] /\ forallb is_digit d = true.
Proof.
  intros [|c d] H; [discriminate|]. split; [discriminate|exact H].
Qed.

Lemma forallb_digit_group :
  forall c d, is_digit c = true -> forallb is_digit d = true ->
    digit_group (c :: d) = true.
Proof. intros c d Hc Hd. simpl. now rewrite Hc, Hd. Qed.

Section DigitsLoop.
Variable A : Type.
Variable m : bytes -> (bytes -> option A) -> option A.
Hypothesis m_nil : forall k, m [] k = None.
Hypothesis m_cons :
  forall c s k, m (c :: s) k = if is_digit c then k s else None.

Lemma digits_loop_none :
  forall fuel s (k : bytes -> option A),
    starts_with_digit s = false -> plus_loop m fuel s k = None.
Proof.
  intros fuel s k H. rewrite plus_loop_unfold.
  destruct s as [|c s]; [apply m_nil|].
  rewrite m_cons. simpl in H. now rewrite H.
Qed.

Lemma digits_loop_greedy :
  forall d fuel c rest (k : bytes -> option A) v,
    is_digit c = true -> forallb is_digit d = true ->
    starts_with_digit rest = false ->
    length d <= fuel ->
    k rest = Some v ->
    plus_loop m fuel ((c :: d) ++ rest) k = Some v.
Proof.
  intros d. induction d as [|c' d IH]; intros fuel c rest k v Hc Hd Hr Hf Hk;
    rewrite plus_loop_unfold; cbn [app]; rewrite m_cons, Hc.
  - replace (length rest <? length (c :: rest)) with true
      by (symmetry; apply Nat.ltb_lt; simpl; lia).
    destruct fuel as [|f]; [assumption|].
    now rewrite digits_loop_none.
  - simpl in Hd. apply andb_true_iff in Hd. destruct Hd as [Hc' Hd].
    replace (length (c' :: d ++ rest) <? length (c :: c' :: d ++ rest))
      with true by (symmetry; apply Nat.ltb_lt; simpl; lia).
    destruct fuel as [|f]; [simpl in Hf; lia|].
    change (c' :: d ++ rest) with ((c' :: d) ++ rest).
    rewrite (IH f c' rest k v); auto. simpl in Hf. lia.
Qed.
End DigitsLoop.

Lemma rmatch_digits :
  forall A d rest (k : bytes -> option A) v,
    digit_group d = true -> starts_with_digit rest = false ->
    k rest = Some v ->
    rmatch re_digits (d ++ rest) k = Some v.
Proof.
  intros A d rest k v Hd Hr Hk. destruct d as [|c d]; [discriminate|].
  apply digit_group_cons in Hd. destruct Hd as [Hc Hd].
  unfold re_digits. cbn [rmatch].
  apply digits_loop_greedy; auto.
  simpl. rewrite length_app. lia.
Qed.

Lemma match_prefix_digits :
  forall d rest, digit_group d = true -> starts_with_digit rest = false ->
    match_prefix re_digits (d ++ rest) = Some d.
Proof.
  intros d rest Hd Hr. apply match_prefix_intro.
  now apply rmatch_digits.
Qed.

Lemma match_prefix_digits_none :
  forall s, starts_with_digit s = false -> match_prefix re_digits s = None.
Proof.
  intros s H. unfold match_prefix, re_digits. cbn [rmatch].
  now rewrite digits_loop_none.
Qed.

Lemma find_at_digits_skip :
  forall c s off, is_digit c = false ->
    find_at re_digits off (c :: s) = find_at re_digits (S off) s.
Proof.
  intros c s off H. cbn [find_at].
  now rewrite match_prefix_digits_none.
Qed.

Lemma find_at_digits :
  forall d rest off, digit_group d = true -> starts_with_digit rest = false ->
    find_at re_digits off (d ++ rest) = Some (off, d).
Proof.
  intros d rest off Hd Hr.
  destruct (d ++ rest) eqn:E; cbn [find_at]; rewrite <- E;
    now rewrite match_prefix_digits.
Qed.

Lemma match_prefix_point :
  forall x y rest, digit_group x = true -> digit_group y = true ->
    match_prefix re_point (point_text x y ++ rest) = Some (point_text x y).
Proof.
  intros x y rest Hx Hy. apply match_prefix_intro.
  unfold point_text, re_point. rewrite <- !app_assoc.
  cbn [rmatch bs list_ascii_of_string app Ascii.eqb Bool.eqb].
  apply rmatch_digits; auto.
  cbn [rmatch app Ascii.eqb Bool.eqb].
  apply rmatch_digits; auto.
Qed.

Lemma lang_digits_inv :
  forall r s, lang r s -> r = re_digits -> digit_group s = true.
Proof.
  intros r s H. induction H; intros E; try discriminate.
  - injection E as ->. inversion H; subst.
    rewrite in_range_digit in H3. simpl. now rewrite H3.
  - injection E as ->. inversion H; subst.
    rewrite in_range_digit in H4.
    specialize (IHlang2 eq_refl).
    apply digit_group_forallb in IHlang2. destruct IHlang2 as [_ Hs].
    simpl. now rewrite H4, Hs.
Qed.

Lemma lang_point_inv :
  forall m, lang re_point m ->
    exists x y, m = point_text x y /\
                digit_group x = true /\ digit_group y = true.
Proof.
  intros m H. unfold re_point in H.
  inversion H as [| | |a b s1 r1 H1 Hr1| | | |]; subst; clear H.
  inversion H1; subst; clear H1.
  inversion Hr1 as [| | |a b x r2 Hx Hr2| | | |]; subst; clear Hr1.
  inversion Hr2 as [| | |a b s3 r3 H3 Hr3| | | |]; subst; clear Hr2.
  inversion H3; subst; clear H3.
  inversion Hr3 as [| | |a b s4 r4 H4 Hr4| | | |]; subst; clear Hr3.
  inversion H4; subst; clear H4.
  inversion Hr4 as [| | |a b y r5 Hy Hr5| | | |]; subst; clear Hr4.
  inversion Hr5; subst; clear Hr5.
  exists x, y. split.
  - reflexivity.
  - split; eapply lang_digits_inv; eauto.
Qed.

Lemma find_all_point :
  forall x y fuel, digit_group x = true -> digit_group y = true ->
    find_all re_digits (S (S (S fuel))) false (point_text x y) = [x; y].
Proof.
  intros x y fuel Hx Hy. unfold point_text.
  cbn [find_all bs list_ascii_of_string app].
  rewrite find_at_digits_skip by reflexivity.
  rewrite find_at_digits; auto.
  destruct x as [|cx x]; [discriminate|].
  cbn [Nat.add skipn].
  rewrite skipn_app, skipn_all, Nat.sub_diag. cbn [app skipn].
  rewrite !find_at_digits_skip by reflexivity.
  rewrite find_at_digits; auto.
  destruct y as [|cy y]; [discriminate|].
  cbn [Nat.add skipn].
  rewrite skipn_app, skipn_all, Nat.sub_diag. cbn [app skipn].
  destruct fuel; reflexivity.
Qed.

Lemma FindAllString_point :
  forall x y, digit_group x = true -> digit_group y = true ->
    FindAllString re_digits (point_text x y) = [x; y].
Proof.
  intros x y Hx Hy. unfold FindAllString.
  assert (exists f, length (point_text x y) = S (S f)) as [f ->].
  { unfold point_text. destruct x; [discriminate|].
    simpl. rewrite !length_app. simpl. eexists.
    rewrite Nat.add_succ_r. reflexivity. }
  now apply find_all_point.
Qed.

Lemma MakePoint_point :
  forall x y, digit_group x = true -> digit_group y = true ->
    MakePoint (point_text x y) =
    Some [float64_of_int (Atoi x); float64_of_int (Atoi y)].
Proof.
  intros x y Hx Hy. unfold MakePoint.
  now rewrite FindAllString_point.
Qed.

Lemma MakePoint_total :
  forall cur token, Find re_point cur = Some token ->
    exists x y, token = point_text x y /\
      digit_group x = true /\ digit_group y = true /\
      MakePoint token = Some [float64_of_int (Atoi x); float64_of_int (Atoi y)].
Proof.
  intros cur token H. apply Find_sound in H.
  destruct H as (_ & _ & _ & Hl). apply lang_point_inv in Hl.
  destruct Hl as (x & y & -> & Hx & Hy).
  exists x, y. auto using MakePoint_point.
Qed.

(** ** The steps of the parser *)

(** The loop of [SkipWhitespace] stops at its first iteration: the index
    value there is 0, and [string(0)] is not a space. *)
Lemma skip_loop_stops :
  forall cur pos, skip_loop (range_indices (length cur) 0 cur) pos = pos.
Proof. intros [|c cur] pos; reflexivity. Qed.

Lemma slice_from_in_bounds :
  forall s p, p <= length s -> slice_from s p = Some (skipn p s).
Proof.
  intros s p H. unfold slice_from.
  now apply Nat.leb_le in H as ->.
Qed.

Lemma slice_from_app :
  forall (a b : bytes) p, p = length a -> slice_from (a ++ b) p = Some b.
Proof.
  intros a b p ->. rewrite slice_from_in_bounds.
  - now rewrite skipn_app, skipn_all, Nat.sub_diag.
  - rewrite length_app. lia.
Qed.

Lemma slice_from_some :
  forall s p cur, slice_from s p = Some cur ->
    p <= length s /\ length cur = length s - p.
Proof.
  intros s p cur H. unfold slice_from in H.
  destruct (p <=? length s) eqn:E; [|discriminate].
  injection H as <-. apply Nat.leb_le in E.
  now rewrite length_skipn.
Qed.

Lemma SkipWhitespace_id :
  forall B p a pt d v cur,
    slice_from B p = Some cur ->
    SkipWhitespace (mkExpr B p a pt d v) = Some (tt, mkExpr B p a pt d v).
Proof.
  intros B p a pt d v cur H.
  unfold SkipWhitespace, bind, Current, modify, with_position. simpl.
  rewrite H. now rewrite skip_loop_stops.
Qed.

Lemma Match_found :
  forall B p a pt d v re cur m,
    slice_from B p = Some cur -> Find re cur = Some m ->
    Match (Some re) (mkExpr B p a pt d v) =
    Some ((m, true), mkExpr B (p + length m) a pt d v).
Proof.
  intros B p a pt d v re cur m Hs Hf. unfold Match, bind.
  rewrite (@SkipWhitespace_id B p a pt d v cur Hs).
  unfold Current. simpl. rewrite Hs, Hf. reflexivity.
Qed.

Lemma Match_none :
  forall B p a pt d v re cur,
    slice_from B p = Some cur -> Find re cur = None ->
    Match (Some re) (mkExpr B p a pt d v) =
    Some (([], false), mkExpr B p a pt d v).
Proof.
  intros B p a pt d v re cur Hs Hf. unfold Match, bind.
  rewrite (@SkipWhitespace_id B p a pt d v cur Hs).
  unfold Current. simpl. rewrite Hs, Hf. reflexivity.
Qed.

Lemma IsAction_found :
  forall B p a pt d v cur m,
    slice_from B p = Some cur -> Find re_action cur = Some m ->
    IsAction (mkExpr B p a pt d v) =
    Some (true, mkExpr B (p + length m) m pt d v).
Proof.
  intros. unfold IsAction, bind.
  erewrite Match_found by eassumption. reflexivity.
Qed.

Lemma IsAction_none :
  forall B p a pt d v cur,
    slice_from B p = Some cur -> Find re_action cur = None ->
    IsAction (mkExpr B p a pt d v) = Some (false, mkExpr B 0 a pt d v).
Proof.
  intros. unfold IsAction, bind.
  erewrite Match_none by eassumption. reflexivity.
Qed.

Lemma IsPoint_found :
  forall B p a pt d v cur x y,
    slice_from B p = Some cur ->
    digit_group x = true -> digit_group y = true ->
    Find re_point cur = Some (point_text x y) ->
    IsPoint (mkExpr B p a pt d v) =
    Some (true, mkExpr B (p + length (point_text x y)) a
                  [float64_of_int (Atoi x); float64_of_int (Atoi y)] d v).
Proof.
  intros. unfold IsPoint, bind.
  erewrite Match_found by eassumption.
  now rewrite MakePoint_point.
Qed.

Lemma IsPoint_none :
  forall B p a pt d v cur,
    slice_from B p = Some cur -> Find re_point cur = None ->
    IsPoint (mkExpr B p a pt d v) = Some (false, mkExpr B 0 a pt d v).
Proof.
  intros. unfold IsPoint, bind.
  erewrite Match_none by eassumption. reflexivity.
Qed.

Lemma IsData_found :
  forall B p a pt d v cur m,
    slice_from B p = Some cur -> Find re_digits cur = Some m ->
    IsData (mkExpr B p a pt d v) =
    Some (true, mkExpr B (p + length m) a pt (mkData (Atoi m)) v).
Proof.
  intros. unfold IsData, bind.
  erewrite Match_found by eassumption. reflexivity.
Qed.

Lemma IsData_none :
  forall B p a pt d v cur,
    slice_from B p = Some cur -> Find re_digits cur = None ->
    IsData (mkExpr B p a pt d v) = Some (false, mkExpr B 0 a pt d v).
Proof.
  intros. unfold IsData, bind.
  erewrite Match_none by eassumption. reflexivity.
Qed.

(** *** No step panics, and each keeps the cursor within the buffer *)

Lemma found_in_bounds :
  forall B p cur re m,
    slice_from B p = Some cur -> Find re cur = Some m ->
    p + length m <= length B.
Proof.
  intros B p cur re m Hs Hf.
  apply slice_from_some in Hs. apply Find_length in Hf. lia.
Qed.

Lemma IsAction_total :
  forall B p a pt d v, p <= length B ->
    exists b p' a',
      IsAction (mkExpr B p a pt d v) = Some (b, mkExpr B p' a' pt d v) /\
      p' <= length B.
Proof.
  intros B p a pt d v Hp.
  pose proof (slice_from_in_bounds _ _ Hp) as Hs.
  destruct (Find re_action (skipn p B)) as [m|] eqn:Hf.
  - exists true, (p + length m), m. split.
    + eapply IsAction_found; eauto.
    + eapply found_in_bounds; eauto.
  - exists false, 0, a. split; [eapply IsAction_none; eauto|lia].
Qed.

Lemma IsPoint_total :
  forall B p a pt d v, p <= length B ->
    exists b p' pt',
      IsPoint (mkExpr B p a pt d v) = Some (b, mkExpr B p' a pt' d v) /\
      p' <= length B.
Proof.
  intros B p a pt d v Hp.
  pose proof (slice_from_in_bounds _ _ Hp) as Hs.
  destruct (Find re_point (skipn p B)) as [m|] eqn:Hf.
  - destruct (MakePoint_total _ _ Hf) as (x & y & -> & Hx & Hy & _).
    eexists true, _, _. split.
    + eapply IsPoint_found with (x := x) (y := y); eauto.
    + eapply found_in_bounds; eauto.
  - exists false, 0, pt. split; [eapply IsPoint_none; eauto|lia].
Qed.

Lemma IsData_total :
  forall B p a pt d v, p <= length B ->
    exists b p' d',
      IsData (mkExpr B p a pt d v) = Some (b, mkExpr B p' a pt d' v) /\
      p' <= length B.
Proof.
  intros B p a pt d v Hp.
  pose proof (slice_from_in_bounds _ _ Hp) as Hs.
  destruct (Find re_digits (skipn p B)) as [m|] eqn:Hf.
  - eexists true, _, _. split.
    + eapply IsData_found; eauto.
    + eapply found_in_bounds; eauto.
  - exists false, 0, d. split; [eapply IsData_none; eauto|lia].
Qed.

Lemma IsCommand_total :
  forall B p a pt d v, p <= length B ->
    exists b p' a' pt' d',
      IsCommand (mkExpr B p a pt d v) = Some (b, mkExpr B p' a' pt' d' v) /\
      p' <= length B.
Proof.
  intros B p a pt d v Hp. unfold IsCommand, andM, bind.
  destruct (IsAction_total _ _ a pt d v Hp) as (b1 & p1 & a1 & -> & Hp1).
  destruct b1; [|unfold ret; eauto 10].
  destruct (IsPoint_total _ _ a1 pt d v Hp1) as (b2 & p2 & pt2 & -> & Hp2).
  destruct b2; [|unfold ret; eauto 10].
  destruct (IsData_total _ _ a1 pt2 d v Hp2) as (b3 & p3 & d3 & -> & Hp3).
  eauto 10.
Qed.

Lemma IsPartialCommand_total :
  forall B p a pt d v, p <= length B ->
    exists b p' a' pt',
      IsPartialCommand (mkExpr B p a pt d v) =
        Some (b, mkExpr B p' a' pt' d v) /\
      p' <= length B.
Proof.
  intros B p a pt d v Hp. unfold IsPartialCommand, andM, bind.
  destruct (IsAction_total _ _ a pt d v Hp) as (b1 & p1 & a1 & -> & Hp1).
  destruct b1; [|unfold ret; eauto 10].
  destruct (IsPoint_total _ _ a1 pt d v Hp1) as (b2 & p2 & pt2 & -> & Hp2).
  eauto 10.
Qed.

(** A command checked against one keyword: not panicking is inherited
    from the command. *)
Lemma keyword_guard_total :
  forall (cmd : M bool) kw B p a pt d v,
    (exists b p' a' pt' d',
       cmd (mkExpr B p a pt d v) = Some (b, mkExpr B p' a' pt' d' v) /\
       p' <= length B) ->
    exists b p' a' pt' d',
      (rst <- cmd ;;
       e <- get ;;
       if bytes_eqb (action e) kw then ret rst
       else modify (fun e => with_position e 0) ;;; ret false)
        (mkExpr B p a pt d v) = Some (b, mkExpr B p' a' pt' d' v) /\
      p' <= length B.
Proof.
  intros cmd kw B p a pt d v (b & p' & a' & pt' & d' & Hc & Hp).
  unfold bind, get. rewrite Hc. simpl.
  destruct (bytes_eqb a' kw).
  - unfold ret. eauto 10.
  - unfold modify, ret, with_position. simpl.
    exists false, 0, a', pt', d'. split; [reflexivity|lia].
Qed.

Lemma IsAddCommand_total :
  forall B p a pt d v, p <= length B ->
    exists b p' a' pt' d',
      IsAddCommand (mkExpr B p a pt d v) =
        Some (b, mkExpr B p' a' pt' d' v) /\
      p' <= length B.
Proof.
  intros. apply keyword_guard_total. now apply IsCommand_total.
Qed.

Lemma IsKnnCommand_total :
  forall B p a pt d v, p <= length B ->
    exists b p' a' pt' d',
      IsKnnCommand (mkExpr B p a pt d v) =
        Some (b, mkExpr B p' a' pt' d' v) /\
      p' <= length B.
Proof.
  intros. apply keyword_guard_total. now apply IsCommand_total.
Qed.

Lemma IsDelCommand_total :
  forall B p a pt d v, p <= length B ->
    exists b p' a' pt' d',
      IsDelCommand (mkExpr B p a pt d v) =
        Some (b, mkExpr B p' a' pt' d' v) /\
      p' <= length B.
Proof.
  intros B p a pt d v Hp. apply keyword_guard_total.
  destruct (IsPartialCommand_total _ _ a pt d v Hp)
    as (b & p' & a' & pt' & Hc & Hp').
  eauto 10.
Qed.

Lemma IsEndAction_total :
  forall B p a pt d v, p <= length B ->
    exists b p' a' pt' d',
      IsEndAction (mkExpr B p a pt d v) =
        Some (b, mkExpr B p' a' pt' d' v) /\
      p' <= length B.
Proof.
  intros B p a pt d v Hp. apply keyword_guard_total.
  destruct (IsAction_total _ _ a pt d v Hp) as (b & p' & a' & Hc & Hp').
  eauto 10.
Qed.

Lemma alternatives_total :
  forall B p a pt d v, p <= length B ->
    exists b p' a' pt' d',
      orM (orM IsFullCommand IsDelCommand) IsEndAction (mkExpr B p a pt d v)
        = Some (b, mkExpr B p' a' pt' d' v) /\
      p' <= length B.
Proof.
  intros B p a pt d v Hp. unfold orM, IsFullCommand, orM, bind.
  destruct (IsAddCommand_total _ _ a pt d v Hp)
    as (b1 & p1 & a1 & pt1 & d1 & -> & Hp1).
  destruct b1; [unfold ret; eauto 10|].
  destruct (IsKnnCommand_total _ _ a1 pt1 d1 v Hp1)
    as (b2 & p2 & a2 & pt2 & d2 & -> & Hp2).
  destruct b2; [unfold ret; eauto 10|].
  destruct (IsDelCommand_total _ _ a2 pt2 d2 v Hp2)
    as (b3 & p3 & a3 & pt3 & d3 & -> & Hp3).
  destruct b3; [unfold ret; eauto 10|].
  destruct (IsEndAction_total _ _ a3 pt3 d3 v Hp3)
    as (b4 & p4 & a4 & pt4 & d4 & -> & Hp4).
  eauto 10.
Qed.

(** ** [strings.TrimSpace] on lines that start and end with a plain byte *)

Ltac reflect_bools :=
  repeat match goal with
  | H : _ && _ = true |- _ => apply andb_true_iff in H; destruct H
  | H : _ || _ = false |- _ => apply orb_false_iff in H; destruct H
  | H : _ && _ = false |- _ => apply andb_false_iff in H
  | H : _ || _ = true |- _ => apply orb_true_iff in H
  | H : negb _ = true |- _ => apply negb_true_iff in H
  | H : negb _ = false |- _ => apply negb_false_iff in H
  | H : (_ =? _) = true |- _ => apply Nat.eqb_eq in H
  | H : (_ =? _) = false |- _ => apply Nat.eqb_neq in H
  | H : (_ <? _) = true |- _ => apply Nat.ltb_lt in H
  | H : (_ <? _) = false |- _ => apply Nat.ltb_ge in H
  | H : (_ <=? _) = true |- _ => apply Nat.leb_le in H
  | H : (_ <=? _) = false |- _ => apply Nat.leb_gt in H
  | H : _ \/ _ |- _ => destruct H
  end.

Lemma is_digit_plain : forall c, is_digit c = true -> plain c = true.
Proof.
  intros c H. unfold is_digit in H. unfold plain, byte_val.
  destruct (nat_of_ascii c <? 128) eqn:E1;
  destruct ((9 <=? nat_of_ascii c) && (nat_of_ascii c <=? 13)) eqn:E2;
  destruct (nat_of_ascii c =? 32) eqn:E3; simpl; try reflexivity;
    reflect_bools; lia.
Qed.

Lemma space_width_plain :
  forall c s, plain c = true -> space_width (c :: s) = 0.
Proof.
  intros c s H. unfold plain in H. apply andb_true_iff in H.
  destruct H as [H1 H2]. apply negb_true_iff in H2.
  unfold space_width. cbn [map]. now rewrite H1, H2.
Qed.

Lemma TrimLeft_plain :
  forall c s, plain c = true -> TrimLeft (c :: s) = c :: s.
Proof.
  intros c s H. unfold TrimLeft. cbn [length trim_with].
  now rewrite space_width_plain.
Qed.

Lemma space_width_last_bound :
  forall pre c rest, plain c = true ->
    space_width_last (pre ++ c :: rest) <= length pre.
Proof.
  intros pre c rest H. unfold plain in H.
  apply andb_true_iff in H. destruct H as [H1 H2].
  apply negb_true_iff in H2.
  unfold space_width_last.
  destruct pre as [|p1 [|p2 [|p3 pre]]]; cbn [app map length].
  - rewrite H1, H2. lia.
  - repeat match goal with
    | |- context [if ?b then _ else _] => destruct b eqn:?
    | |- context [match ?l with [] => _ | _ :: _ => _ end] => destruct l
    end; try lia; reflect_bools; lia.
  - repeat match goal with
    | |- context [if ?b then _ else _] => destruct b eqn:?
    end; try lia; reflect_bools; lia.
  - repeat match goal with
    | |- context [if ?b then _ else _] => destruct b eqn:?
    end; lia.
Qed.

Lemma trim_last_keeps :
  forall fuel pre c rest, plain c = true ->
    exists j,
      trim_with space_width_last fuel (pre ++ c :: rest) =
      skipn j pre ++ c :: rest.
Proof.
  intros fuel. induction fuel as [|f IH]; intros pre c rest H.
  - exists 0. reflexivity.
  - cbn [trim_with].
    pose proof (space_width_last_bound pre c rest H) as Hb.
    destruct (space_width_last (pre ++ c :: rest)) as [|w] eqn:E.
    + exists 0. reflexivity.
    + rewrite skipn_app.
      replace (S w - length pre) with 0 by lia.
      change (skipn 0 (c :: rest)) with (c :: rest).
      destruct (IH (skipn (S w) pre) c rest H) as [j Hj].
      exists (j + S w). rewrite Hj. now rewrite skipn_skipn.
Qed.

(** Trimming removes only what follows the last plain byte. *)
Lemma TrimSpace_keeps :
  forall c0 a c g, plain c0 = true -> plain c = true ->
    exists g',
      TrimSpace (c0 :: a ++ c :: g) = c0 :: a ++ c :: g' /\
      (g = [] -> g' = []).
Proof.
  intros c0 a c g H0 H. unfold TrimSpace.
  rewrite TrimLeft_plain by assumption. unfold TrimRight.
  change (c0 :: a ++ c :: g) with ((c0 :: a) ++ c :: g).
  rewrite rev_app_distr. cbn [rev]. rewrite <- app_assoc. cbn [app].
  destruct (trim_last_keeps (length (c0 :: a ++ c :: g))
              (rev g) c (rev a ++ [c0]) H) as [j Hj].
  rewrite Hj. exists (rev (skipn j (rev g))). split.
  - rewrite rev_app_distr. cbn [rev]. rewrite rev_app_distr, rev_involutive.
    cbn [rev app]. rewrite <- app_assoc. reflexivity.
  - intros ->. cbn [rev]. now rewrite skipn_nil.
Qed.

Lemma TrimSpace_id :
  forall c0 a c, plain c0 = true -> plain c = true ->
    TrimSpace (c0 :: a ++ [c]) = c0 :: a ++ [c].
Proof.
  intros c0 a c H0 H.
  destruct (TrimSpace_keeps c0 a c [] H0 H) as (g' & E & Hg).
  now rewrite E, (Hg eq_refl).
Qed.

(** ** [strconv.Atoi] on digit groups *)

Lemma digit_val_range :
  forall c, is_digit c = true -> (0 <= digit_val c <= 9)%Z.
Proof.
  intros c H. unfold is_digit in H. unfold digit_val.
  apply andb_true_iff in H. destruct H as [H1 H2].
  apply Nat.leb_le in H1, H2. lia.
Qed.

Lemma dec_fold_ge :
  forall d n, forallb is_digit d = true -> (0 <= n)%Z ->
    (n <= fold_left dec_step d n)%Z.
Proof.
  intros d. induction d as [|c d IH]; intros n Hd Hn; cbn [fold_left].
  - lia.
  - simpl in Hd. apply andb_true_iff in Hd. destruct Hd as [Hc Hd].
    pose proof (digit_val_range c Hc).
    assert (0 <= dec_step n c)%Z by (unfold dec_step; lia).
    specialize (IH (dec_step n c) Hd H0). unfold dec_step in *. lia.
Qed.

Lemma ParseUint_loop_digits :
  forall d n, forallb is_digit d = true -> (0 <= n <= maxUint64)%Z ->
    ParseUint_loop n d =
    if (fold_left dec_step d n <=? maxUint64)%Z
    then UOk (fold_left dec_step d n) else URange.
Proof.
  intros d. induction d as [|c d IH]; intros n Hd Hn;
    cbn [ParseUint_loop fold_left].
  - replace (n <=? maxUint64)%Z with true
      by (symmetry; apply Z.leb_le; lia). reflexivity.
  - simpl in Hd. apply andb_true_iff in Hd. destruct Hd as [Hc Hd].
    rewrite Hc. pose proof (digit_val_range c Hc) as Hv.
    change (maxUint64 / 10 + 1)%Z with 1844674407370955162%Z.
    assert (0 <= dec_step n c)%Z as Hpos by (unfold dec_step; lia).
    pose proof (dec_fold_ge d (dec_step n c) Hd Hpos) as Hge.
    fold (dec_step n c).
    destruct (n >=? 1844674407370955162)%Z eqn:E1.
    + apply Z.geb_le in E1.
      replace (fold_left dec_step d (dec_step n c) <=? maxUint64)%Z
        with false; [reflexivity|].
      symmetry. apply Z.leb_gt. unfold dec_step, maxUint64 in *. lia.
    + destruct (dec_step n c >? maxUint64)%Z eqn:E2.
      * apply Z.gtb_lt in E2.
        replace (fold_left dec_step d (dec_step n c) <=? maxUint64)%Z
          with false; [reflexivity|].
        symmetry. apply Z.leb_gt. lia.
      * apply IH; [assumption|].
        rewrite Z.gtb_ltb in E2. apply Z.ltb_ge in E2. lia.
Qed.

Lemma digit_not_sign :
  forall c, is_digit c = true ->
    Ascii.eqb c "+" = false /\ Ascii.eqb c "-" = false.
Proof.
  intros c H. split.
  - destruct (Ascii.eqb c "+") eqn:E; [|reflexivity].
    apply Ascii.eqb_eq in E. subst. discriminate.
  - destruct (Ascii.eqb c "-") eqn:E; [|reflexivity].
    apply Ascii.eqb_eq in E. subst. discriminate.
Qed.

(** On a digit group [Atoi] yields the number, clamped to the largest
    [int]. *)
Lemma Atoi_digits :
  forall d, digit_group d = true -> Atoi d = Z.min (dec_value d) maxInt.
Proof.
  intros d H. destruct d as [|c d]; [discriminate|].
  pose proof H as H'. apply digit_group_cons in H'. destruct H' as [Hc Hd].
  destruct (digit_not_sign c Hc) as [Hp Hm].
  unfold Atoi. rewrite Hp, Hm. unfold ParseUint.
  rewrite ParseUint_loop_digits;
    [|simpl; now rewrite Hc, Hd|unfold maxUint64; lia].
  fold (dec_value (c :: d)).
  change (fold_left dec_step (c :: d) 0%Z) with (dec_value (c :: d)).
  destruct (dec_value (c :: d) <=? maxUint64)%Z eqn:E.
  - change (maxInt + 1)%Z with 9223372036854775808%Z.
    destruct (dec_value (c :: d) >=? 9223372036854775808)%Z eqn:E2.
    + apply Z.geb_le in E2. unfold maxInt. lia.
    + rewrite Z.geb_leb in E2. apply Z.leb_gt in E2. unfold maxInt. lia.
  - apply Z.leb_gt in E. unfold maxUint64, maxInt in *. lia.
Qed.

Lemma dec_value_nonneg :
  forall d, digit_group d = true -> (0 <= dec_value d)%Z.
Proof.
  intros d H. apply digit_group_forallb in H. destruct H as [_ H].
  unfold dec_value. apply (dec_fold_ge d 0 H). lia.
Qed.

Lemma Atoi_exact :
  forall d, digit_group d = true -> (dec_value d <= maxInt)%Z ->
    Atoi d = dec_value d.
Proof. intros d H Hb. rewrite Atoi_digits by assumption. lia. Qed.

Lemma float64_of_int_exact :
  forall x, (0 <= x <= 2 ^ 53)%Z -> float64_of_int x = x.
Proof.
  intros x H. unfold float64_of_int.
  destruct (Z.abs x <? 2 ^ 53)%Z eqn:E; [reflexivity|].
  apply Z.ltb_ge in E.
  assert (x = 2 ^ 53)%Z as -> by lia. reflexivity.
Qed.

Lemma coordinate_exact :
  forall d, digit_group d = true -> (dec_value d <= 2 ^ 53)%Z ->
    float64_of_int (Atoi d) = dec_value d.
Proof.
  intros d H Hb. pose proof (dec_value_nonneg d H).
  rewrite Atoi_exact; [|assumption|unfold maxInt; lia].
  apply float64_of_int_exact. lia.
Qed.

(** ** [Find] on the text of commands *)

Lemma find_at_offset :
  forall r s off1 off2,
    option_map snd (find_at r off1 s) = option_map snd (find_at r off2 s).
Proof.
  intros r s. induction s as [|c s IH]; intros off1 off2; cbn [find_at].
  - destruct (match_prefix r []); reflexivity.
  - destruct (match_prefix r (c :: s)); [reflexivity|apply IH].
Qed.

Lemma Find_snd : forall r s, Find r s = option_map snd (find_at r 0 s).
Proof.
  intros r s. unfold Find. destruct (find_at r 0 s) as [[o m]|]; reflexivity.
Qed.

Lemma Find_prefix :
  forall r m rest, match_prefix r (m ++ rest) = Some m ->
    Find r (m ++ rest) = Some m.
Proof.
  intros r m rest H. rewrite Find_snd.
  destruct (m ++ rest); cbn [find_at]; now rewrite H.
Qed.

Lemma Find_skip :
  forall r c s, match_prefix r (c :: s) = None -> Find r (c :: s) = Find r s.
Proof.
  intros r c s H. rewrite !Find_snd. cbn [find_at]. rewrite H.
  apply find_at_offset.
Qed.

Lemma Find_action_keyword :
  forall kw rest, In kw keywords -> Find re_action (kw ++ rest) = Some kw.
Proof.
  intros kw rest H. apply Find_prefix, match_prefix_intro.
  unfold keywords in H. simpl in H.
  destruct H as [<-|[<-|[<-|[<-|[]]]]]; reflexivity.
Qed.

Lemma Find_point_after_space :
  forall x y rest, digit_group x = true -> digit_group y = true ->
    Find re_point (bs " " ++ point_text x y ++ rest) = Some (point_text x y).
Proof.
  intros x y rest Hx Hy. cbn [bs list_ascii_of_string app].
  rewrite Find_skip by reflexivity.
  now apply Find_prefix, match_prefix_point.
Qed.

Lemma Find_digits_skip :
  forall c s, is_digit c = false -> Find re_digits (c :: s) = Find re_digits s.
Proof.
  intros c s H. apply Find_skip. now apply match_prefix_digits_none.
Qed.

Lemma Find_digits_prefix :
  forall d rest, digit_group d = true -> starts_with_digit rest = false ->
    Find re_digits (d ++ rest) = Some d.
Proof.
  intros d rest Hd Hr. now apply Find_prefix, match_prefix_digits.
Qed.

(** ** The parser on the text of commands *)

Lemma keyword_length : forall kw, In kw keywords -> length kw = 3.
Proof.
  intros kw H. unfold keywords in H. simpl in H.
  destruct H as [<-|[<-|[<-|[<-|[]]]]]; reflexivity.
Qed.

Lemma IsAction_keyword :
  forall kw rest a pt d v, In kw keywords ->
    IsAction (mkExpr (kw ++ rest) 0 a pt d v) =
    Some (true, mkExpr (kw ++ rest) 3 kw pt d v).
Proof.
  intros kw rest a pt d v H.
  rewrite (IsAction_found (kw ++ rest) 0 a pt d v (kw ++ rest) kw).
  - now rewrite (keyword_length kw H).
  - reflexivity.
  - now apply Find_action_keyword.
Qed.

Lemma IsPoint_after_keyword :
  forall kw x y rest a pt d v,
    In kw keywords -> digit_group x = true -> digit_group y = true ->
    IsPoint (mkExpr (kw ++ bs " " ++ point_text x y ++ rest) 3 a pt d v) =
    Some (true, mkExpr (kw ++ bs " " ++ point_text x y ++ rest)
                  (3 + length (point_text x y)) a (coords x y) d v).
Proof.
  intros kw x y rest a pt d v H Hx Hy.
  apply IsPoint_found with (cur := bs " " ++ point_text x y ++ rest);
    auto.
  - apply slice_from_app. now rewrite (keyword_length kw H).
  - now apply Find_point_after_space.
Qed.

(** After the point the cursor stands on the closing brace: the cursor
    was advanced by the length of the match, which began one byte later. *)
Lemma slice_after_point :
  forall kw x y rest, In kw keywords ->
    slice_from (kw ++ bs " " ++ point_text x y ++ rest)
               (3 + length (point_text x y)) =
    Some (bs "}" ++ rest).
Proof.
  intros kw x y rest H.
  replace (kw ++ bs " " ++ point_text x y ++ rest)
    with ((kw ++ bs " " ++ bs "{" ++ x ++ bs ", " ++ y) ++ bs "}" ++ rest).
  - apply slice_from_app. unfold point_text.
    rewrite !length_app, (keyword_length kw H). simpl. lia.
  - unfold point_text. now rewrite <- !app_assoc.
Qed.

Lemma IsData_payload :
  forall kw x y n a pt d v,
    In kw keywords -> digit_group n = true ->
    IsData (mkExpr (kw ++ bs " " ++ point_text x y ++ bs " " ++ n)
                   (3 + length (point_text x y)) a pt d v) =
    Some (true, mkExpr (kw ++ bs " " ++ point_text x y ++ bs " " ++ n)
                  (3 + length (point_text x y) + length n) a pt
                  (mkData (Atoi n)) v).
Proof.
  intros kw x y n a pt d v H Hn.
  apply IsData_found with (cur := bs "}" ++ bs " " ++ n).
  - now apply slice_after_point.
  - cbn [bs list_ascii_of_string app].
    rewrite !Find_digits_skip by reflexivity.
    rewrite <- (app_nil_r n) at 1.
    now apply Find_digits_prefix.
Qed.

Lemma IsCommand_full :
  forall kw x y n a pt d v,
    In kw keywords ->
    digit_group x = true -> digit_group y = true -> digit_group n = true ->
    IsCommand (mkExpr (kw ++ bs " " ++ point_text x y ++ bs " " ++ n)
                      0 a pt d v) =
    Some (true, mkExpr (kw ++ bs " " ++ point_text x y ++ bs " " ++ n)
                  (3 + length (point_text x y) + length n) kw (coords x y)
                  (mkData (Atoi n)) v).
Proof.
  intros kw x y n a pt d v H Hx Hy Hn. unfold IsCommand, andM, bind.
  rewrite IsAction_keyword by assumption.
  rewrite IsPoint_after_keyword by assumption.
  now rewrite IsData_payload.
Qed.

Lemma IsPartialCommand_point :
  forall kw x y rest a pt d v,
    In kw keywords -> digit_group x = true -> digit_group y = true ->
    IsPartialCommand
      (mkExpr (kw ++ bs " " ++ point_text x y ++ rest) 0 a pt d v) =
    Some (true, mkExpr (kw ++ bs " " ++ point_text x y ++ rest)
                  (3 + length (point_text x y)) kw (coords x y) d v).
Proof.
  intros kw x y rest a pt d v H Hx Hy. unfold IsPartialCommand, andM, bind.
  rewrite IsAction_keyword by assumption.
  now rewrite IsPoint_after_keyword.
Qed.

(** Whatever follows the point, a full command on a [DEL] line leaves the
    action and the point in the expression, and at most sets the payload. *)
Lemma IsCommand_point :
  forall kw x y rest a pt d v,
    In kw keywords -> digit_group x = true -> digit_group y = true ->
    exists b p' d',
      IsCommand
        (mkExpr (kw ++ bs " " ++ point_text x y ++ rest) 0 a pt d v) =
      Some (b, mkExpr (kw ++ bs " " ++ point_text x y ++ rest)
                 p' kw (coords x y) d' v).
Proof.
  intros kw x y rest a pt d v H Hx Hy. unfold IsCommand, andM, bind.
  rewrite IsAction_keyword by assumption.
  rewrite IsPoint_after_keyword by assumption.
  destruct (IsData_total (kw ++ bs " " ++ point_text x y ++ rest)
              (3 + length (point_text x y)) kw (coords x y) d v)
    as (b & p' & d' & E & _).
  - pose proof (slice_after_point kw x y rest H) as Hs.
    apply slice_from_some in Hs. tauto.
  - rewrite E. eauto.
Qed.

Lemma ParseKDtreeCommand_alternatives :
  forall command,
    ParseKDtreeCommand command =
    match alternatives (new_Expr (TrimSpace command)) with
    | Some (valid, expr) => Some (if valid then with_valid expr true else expr)
    | None => None
    end.
Proof. reflexivity. Qed.

Lemma in_keywords_ADD : In (bs "ADD") keywords.
Proof. simpl; auto. Qed.
Lemma in_keywords_DEL : In (bs "DEL") keywords.
Proof. simpl; auto. Qed.
Lemma in_keywords_KNN : In (bs "KNN") keywords.
Proof. simpl; auto. Qed.

Lemma orM_true :
  forall (a b : M bool) e e', a e = Some (true, e') ->
    orM a b e = Some (true, e').
Proof. intros a b e e' H. unfold orM, bind. now rewrite H. Qed.

Lemma orM_false :
  forall (a b : M bool) e e', a e = Some (false, e') -> orM a b e = b e'.
Proof. intros a b e e' H. unfold orM, bind. now rewrite H. Qed.

Lemma IsAddCommand_eval :
  forall e r, IsCommand e = Some r ->
    IsAddCommand e = Some (guarded (bs "ADD") r).
Proof.
  intros e [b e'] H. unfold IsAddCommand, bind, get, guarded.
  rewrite H. cbn [snd]. now destruct (bytes_eqb (action e') (bs "ADD")).
Qed.

Lemma IsKnnCommand_eval :
  forall e r, IsCommand e = Some r ->
    IsKnnCommand e = Some (guarded (bs "KNN") r).
Proof.
  intros e [b e'] H. unfold IsKnnCommand, bind, get, guarded.
  rewrite H. cbn [snd]. now destruct (bytes_eqb (action e') (bs "KNN")).
Qed.

Lemma IsDelCommand_eval :
  forall e r, IsPartialCommand e = Some r ->
    IsDelCommand e = Some (guarded (bs "DEL") r).
Proof.
  intros e [b e'] H. unfold IsDelCommand, bind, get, guarded.
  rewrite H. cbn [snd]. now destruct (bytes_eqb (action e') (bs "DEL")).
Qed.

Lemma IsEndAction_eval :
  forall e r, IsAction e = Some r ->
    IsEndAction e = Some (guarded (bs "END") r).
Proof.
  intros e [b e'] H. unfold IsEndAction, bind, get, guarded.
  rewrite H. cbn [snd]. now destruct (bytes_eqb (action e') (bs "END")).
Qed.

Lemma alternatives_add :
  forall x y n,
    digit_group x = true -> digit_group y = true -> digit_group n = true ->
    alternatives (new_Expr (line_add x y n)) =
    Some (true, mkExpr (line_add x y n)
                  (3 + length (point_text x y) + length n) (bs "ADD")
                  (coords x y) (mkData (Atoi n)) false).
Proof.
  intros x y n Hx Hy Hn. unfold alternatives, IsFullCommand.
  apply orM_true, orM_true, orM_true.
  erewrite IsAddCommand_eval
    by (apply (IsCommand_full (bs "ADD")); auto using in_keywords_ADD).
  reflexivity.
Qed.

Lemma alternatives_knn :
  forall x y n,
    digit_group x = true -> digit_group y = true -> digit_group n = true ->
    alternatives (new_Expr (line_knn x y n)) =
    Some (true, mkExpr (line_knn x y n)
                  (3 + length (point_text x y) + length n) (bs "KNN")
                  (coords x y) (mkData (Atoi n)) false).
Proof.
  intros x y n Hx Hy Hn. unfold alternatives, IsFullCommand.
  apply orM_true, orM_true.
  erewrite orM_false;
    [|erewrite IsAddCommand_eval
        by (apply (IsCommand_full (bs "KNN")); auto using in_keywords_KNN);
      reflexivity].
  erewrite IsKnnCommand_eval
    by (apply (IsCommand_full (bs "KNN")); auto using in_keywords_KNN).
  reflexivity.
Qed.

(** A [DEL] line with a complete point, whatever follows the point. *)
Lemma alternatives_del :
  forall x y rest,
    digit_group x = true -> digit_group y = true ->
    exists d',
      alternatives (new_Expr (line_del x y ++ rest)) =
      Some (true, mkExpr (line_del x y ++ rest)
                    (3 + length (point_text x y)) (bs "DEL")
                    (coords x y) d' false).
Proof.
  intros x y rest Hx Hy. unfold alternatives, IsFullCommand, new_Expr, line_del.
  rewrite <- !app_assoc.
  destruct (IsCommand_point (bs "DEL") x y rest [] [] (mkData 0) false
              in_keywords_DEL Hx Hy) as (b1 & p1 & d1 & H1).
  destruct (IsCommand_point (bs "DEL") x y rest (bs "DEL") (coords x y) d1
              false in_keywords_DEL Hx Hy) as (b2 & p2 & d2 & H2).
  exists d2. apply orM_true.
  erewrite orM_false;
    [|erewrite orM_false;
        [|erewrite IsAddCommand_eval by exact H1; reflexivity];
      erewrite IsKnnCommand_eval by exact H2; reflexivity].
  erewrite IsDelCommand_eval
    by (apply (IsPartialCommand_point (bs "DEL"));
        auto using in_keywords_DEL).
  reflexivity.
Qed.

Ltac norm_app :=
  cbn [bs list_ascii_of_string app];
  repeat (rewrite <- app_assoc; cbn [app]).

Lemma digit_group_last :
  forall n, digit_group n = true ->
    exists n' c, n = n' ++ [c] /\ plain c = true.
Proof.
  intros n H. apply digit_group_forallb in H. destruct H as [Hne Hall].
  destruct (exists_last Hne) as (n' & c & ->).
  exists n', c. split; [reflexivity|].
  rewrite forallb_app in Hall. apply andb_true_iff in Hall.
  destruct Hall as [_ Hc]. simpl in Hc. rewrite andb_true_r in Hc.
  now apply is_digit_plain.
Qed.

Lemma TrimSpace_line_add :
  forall x y n, digit_group n = true ->
    TrimSpace (line_add x y n) = line_add x y n.
Proof.
  intros x y n Hn. destruct (digit_group_last n Hn) as (n' & c & -> & Hc).
  unfold line_add.
  replace (bs "ADD" ++ bs " " ++ point_text x y ++ bs " " ++ n' ++ [c])
    with ("A"%char :: (bs "DD " ++ point_text x y ++ bs " " ++ n') ++ [c])
    by (now norm_app).
  now apply TrimSpace_id.
Qed.

Lemma TrimSpace_line_knn :
  forall x y n, digit_group n = true ->
    TrimSpace (line_knn x y n) = line_knn x y n.
Proof.
  intros x y n Hn. destruct (digit_group_last n Hn) as (n' & c & -> & Hc).
  unfold line_knn.
  replace (bs "KNN" ++ bs " " ++ point_text x y ++ bs " " ++ n' ++ [c])
    with ("K"%char :: (bs "NN " ++ point_text x y ++ bs " " ++ n') ++ [c])
    by (now norm_app).
  now apply TrimSpace_id.
Qed.

Lemma TrimSpace_line_del :
  forall x y g,
    exists g',
      TrimSpace (line_del x y ++ g) = line_del x y ++ g' /\
      (g = [] -> g' = []).
Proof.
  intros x y g. unfold line_del, point_text.
  destruct (TrimSpace_keeps "D" (bs "EL {" ++ x ++ bs ", " ++ y) "}" g
              eq_refl eq_refl) as (g' & E & Hg).
  exists g'. split; [|exact Hg].
  replace ((bs "DEL" ++ bs " " ++ bs "{" ++ x ++ bs ", " ++ y ++ bs "}") ++ g)
    with ("D"%char :: (bs "EL {" ++ x ++ bs ", " ++ y) ++ "}"%char :: g)
    by (now norm_app).
  rewrite E. now norm_app.
Qed.

Lemma ParseKDtreeCommand_add :
  forall x y n,
    digit_group x = true -> digit_group y = true -> digit_group n = true ->
    ParseKDtreeCommand (line_add x y n) =
    Some (mkExpr (line_add x y n)
            (3 + length (point_text x y) + length n) (bs "ADD")
            (coords x y) (mkData (Atoi n)) true).
Proof.
  intros x y n Hx Hy Hn. rewrite ParseKDtreeCommand_alternatives.
  rewrite TrimSpace_line_add by assumption.
  now rewrite alternatives_add.
Qed.

Lemma ParseKDtreeCommand_knn :
  forall x y n,
    digit_group x = true -> digit_group y = true -> digit_group n = true ->
    ParseKDtreeCommand (line_knn x y n) =
    Some (mkExpr (line_knn x y n)
            (3 + length (point_text x y) + length n) (bs "KNN")
            (coords x y) (mkData (Atoi n)) true).
Proof.
  intros x y n Hx Hy Hn. rewrite ParseKDtreeCommand_alternatives.
  rewrite TrimSpace_line_knn by assumption.
  now rewrite alternatives_knn.
Qed.

Lemma ParseKDtreeCommand_del :
  forall x y g,
    digit_group x = true -> digit_group y = true ->
    exists g' d',
      ParseKDtreeCommand (line_del x y ++ g) =
      Some (mkExpr (line_del x y ++ g')
              (3 + length (point_text x y)) (bs "DEL")
              (coords x y) d' true) /\
      (g = [] -> g' = []).
Proof.
  intros x y g Hx Hy. rewrite ParseKDtreeCommand_alternatives.
  destruct (TrimSpace_line_del x y g) as (g' & -> & Hg).
  destruct (alternatives_del x y g' Hx Hy) as (d' & ->).
  exists g', d'. split; [reflexivity|exact Hg].
Qed.

(** ** The session loop *)

Lemma emit_emit :
  forall T a b (r : T * list event * outcome),
    emit a (emit b r) = emit (a ++ b) r.
Proof.
  intros T a b [[t evs] o]. simpl. now rewrite app_assoc.
Qed.

Lemma emit_inv :
  forall T a (r : T * list event * outcome) t evs o,
    emit a r = (t, evs, o) ->
    exists evs', r = (t, evs', o) /\ evs = a ++ evs'.
Proof.
  intros T a [[t0 evs0] o0] t evs o H. simpl in H.
  injection H as <- <- <-. eauto.
Qed.

Section Sessions.
Context {T : Type} `{KDTree T}.

(** A session that is still reading goes on with the next reads. *)
Lemma Daemon_loop_app :
  forall pre more (store st' : T) evs,
    Daemon.loop pre store = (st', evs, Reading) ->
    Daemon.loop (pre ++ more) store = emit evs (Daemon.loop more st').
Proof.
  intros pre more. induction pre as [|r pre IH]; intros store st' evs Hl.
  - simpl in Hl. injection Hl as <- <-.
    simpl. now destruct (Daemon.loop more store) as [[? ?] ?].
  - cbn [app]. cbn [Daemon.loop] in *. destruct r as [line|].
    + destruct (ParseKDtreeCommand line) as [parsed|]; [|discriminate].
      repeat match type of Hl with
      | (if ?b then _ else _) = _ => destruct b
      | match ?o with Some _ => _ | None => _ end = _ => destruct o
      end; try discriminate;
      try (apply emit_inv in Hl; destruct Hl as (evs' & Hl & ->);
           rewrite (IH _ _ _ Hl), emit_emit; reflexivity).
      now apply IH.
    + apply emit_inv in Hl. destruct Hl as (evs' & Hl & ->).
      rewrite (IH _ _ _ Hl), emit_emit. reflexivity.
Qed.

Lemma Sibling_loop_app :
  forall pre more (tree st' : T) evs,
    Sibling.loop pre tree = (st', evs, Reading) ->
    Sibling.loop (pre ++ more) tree = emit evs (Sibling.loop more st').
Proof.
  intros pre more. induction pre as [|r pre IH]; intros tree st' evs Hl.
  - simpl in Hl. injection Hl as <- <-.
    simpl. now destruct (Sibling.loop more tree) as [[? ?] ?].
  - cbn [app]. cbn [Sibling.loop] in *. destruct r as [line|];
      [|discriminate].
    destruct (ParseKDtreeCommand line) as [parsed|]; [|discriminate].
    repeat match type of Hl with
    | (if ?b then _ else _) = _ => destruct b
    | match ?o with Some _ => _ | None => _ end = _ => destruct o
    end; try discriminate;
    try (apply emit_inv in Hl; destruct Hl as (evs' & Hl & ->);
         rewrite (IH _ _ _ Hl), emit_emit; reflexivity).
    now apply IH.
Qed.

(** A line that does not parse to a valid command is answered and leaves
    the store as it was. *)
Lemma Daemon_invalid_line :
  forall line e rest (store : T),
    ParseKDtreeCommand line = Some e -> valid e = false ->
    Daemon.loop (ReadOk line :: rest) store =
    emit [EvWrite InvalidCommand] (Daemon.loop rest store).
Proof.
  intros line e rest store Hp Hv. cbn [Daemon.loop].
  now rewrite Hp, Hv.
Qed.

Lemma Sibling_invalid_line :
  forall line e rest (tree : T),
    ParseKDtreeCommand line = Some e -> valid e = false ->
    Sibling.loop (ReadOk line :: rest) tree = (tree, [EvClose], Returned).
Proof.
  intros line e rest tree Hp Hv. cbn [Sibling.loop].
  now rewrite Hp, Hv.
Qed.

(** [daemon.go] never calls [log.Fatal], whatever is read. *)
Lemma Daemon_never_exits :
  forall reads (store : T),
    result (Daemon.HandleRequest reads store) <> ProcessExit /\
    ~ In EvFatal (trace (Daemon.HandleRequest reads store)).
Proof.
  intros reads store. unfold Daemon.HandleRequest.
  assert (result (Daemon.loop reads store) <> ProcessExit /\
          ~ In EvFatal (trace (Daemon.loop reads store))) as Hl.
  { revert store. induction reads as [|r reads IH]; intros store.
    - simpl. split; [discriminate|tauto].
    - cbn [Daemon.loop]. destruct r as [line|].
      + destruct (ParseKDtreeCommand line) as [parsed|];
          [|simpl; split; [discriminate|tauto]].
        repeat match goal with
        | |- context [if ?b then _ else _] => destruct b
        | |- context [match KNN ?t ?p ?k with _ => _ end] =>
            destruct (KNN t p k)
        end;
        try (simpl; split; [discriminate|intuition discriminate]);
        try apply IH;
        match goal with
        | |- context [Daemon.loop reads ?s] =>
            specialize (IH s); destruct (Daemon.loop reads s) as [[? ?] ?];
            unfold result, trace in *; simpl in *;
            split; [tauto|intuition discriminate]
        end.
      + specialize (IH store).
        destruct (Daemon.loop reads store) as [[? ?] ?].
        unfold result, trace in *; simpl in *.
        split; [tauto|intuition discriminate]. }
  destruct (Daemon.loop reads store) as [[? ?] ?].
  unfold result, trace in *; simpl in *.
  split; [tauto|intuition discriminate].
Qed.

(** The second source file never writes the farewell. *)
Lemma Sibling_never_says_bye :
  forall reads (tree : T),
    ~ In (EvWrite Bye) (trace (Sibling.loop reads tree)).
Proof.
  intros reads. induction reads as [|r reads IH]; intros tree.
  - simpl. tauto.
  - cbn [Sibling.loop]. destruct r as [line|].
    + destruct (ParseKDtreeCommand line) as [parsed|]; [|simpl; tauto].
      repeat match goal with
      | |- context [if ?b then _ else _] => destruct b
      | |- context [match KNN ?t ?p ?k with _ => _ end] =>
          destruct (KNN t p k)
      end;
      try (simpl; intuition discriminate);
      try apply IH;
      match goal with
      | |- context [Sibling.loop reads ?s] =>
          specialize (IH s); destruct (Sibling.loop reads s) as [[? ?] ?];
          unfold trace in *; simpl in *; intuition discriminate
      end.
    + simpl. intuition discriminate.
Qed.

(** In [daemon.go] every mutation of the tree happens under the lock, and
    the lock is free again after each command. *)
Lemma Daemon_mutations_locked :
  forall reads (store : T),
    mutations_locked false (trace (Daemon.HandleRequest reads store)) = true
    /\ lock_after false (trace (Daemon.HandleRequest reads store)) = false.
Proof.
  intros reads store. unfold Daemon.HandleRequest.
  assert (mutations_locked false (trace (Daemon.loop reads store)) = true /\
          lock_after false (trace (Daemon.loop reads store)) = false) as Hl.
  { revert store. induction reads as [|r reads IH]; intros store.
    - simpl. auto.
    - cbn [Daemon.loop]. destruct r as [line|].
      + destruct (ParseKDtreeCommand line) as [parsed|]; [|simpl; auto].
        repeat match goal with
        | |- context [if ?b then _ else _] => destruct b
        | |- context [match KNN ?t ?p ?k with _ => _ end] =>
            destruct (KNN t p k)
        end;
        try (simpl; split; reflexivity);
        try apply IH;
        match goal with
        | |- context [Daemon.loop reads ?s] =>
            specialize (IH s); destruct (Daemon.loop reads s) as [[? ?] ?];
            unfold trace in *; simpl in *; exact IH
        end.
      + specialize (IH store).
        destruct (Daemon.loop reads store) as [[? ?] ?].
        unfold trace in *; simpl in *. exact IH. }
  destruct (Daemon.loop reads store) as [[? ?] ?].
  unfold trace in *; simpl in *. exact Hl.
Qed.

End Sessions.

(** ** The parser: the claims of the specification *)

Lemma Match_token_found :
  forall re e token e',
    Match (Some re) e = Some ((token, true), e') ->
    exists cur, Find re cur = Some token.
Proof.
  intros re [B p a pt d v] token e' H.
  destruct (slice_from B p) as [cur|] eqn:Hs.
  - destruct (Find re cur) as [m|] eqn:E.
    + rewrite (Match_found B p a pt d v re cur m Hs E) in H.
      injection H as <- _. eauto.
    + rewrite (Match_none B p a pt d v re cur Hs E) in H. discriminate.
  - cbv beta iota delta [Match bind SkipWhitespace Current buffer position]
      in H.
    rewrite Hs in H. discriminate.
Qed.

(** C10 -- [ParseKDtreeCommand] returns an expression for every input
    string: no step panics.  In particular every token that [Match]
    returns for the point pattern contains exactly two digit groups, so
    that [MakePoint] finds [rst[0]] and [rst[1]]. *)
Theorem C10_parse_never_panics :
  (forall command, exists e, ParseKDtreeCommand command = Some e) /\
  (forall e token e',
     Match (Some re_point) e = Some ((token, true), e') ->
     length (FindAllString re_digits token) = 2 /\
     exists p, MakePoint token = Some p).
Proof.
  split.
  - intros command. rewrite ParseKDtreeCommand_alternatives.
    unfold alternatives, new_Expr.
    destruct (alternatives_total (TrimSpace command) 0 [] [] (mkData 0)
                false (Nat.le_0_l _))
      as (b & p' & a' & pt' & d' & -> & _).
    eauto.
  - intros e token e' H. apply Match_token_found in H.
    destruct H as [cur H].
    destruct (MakePoint_total _ _ H) as (x & y & -> & Hx & Hy & Hm).
    rewrite FindAllString_point by assumption. eauto.
Qed.

Lemma C10_parse_never_panics_witness :
  exists e, ParseKDtreeCommand (bs "ADD {1, 2} 3") = Some e.
Proof. exact (proj1 C10_parse_never_panics (bs "ADD {1, 2} 3")). Defined.

(** C9 -- a line that consists of a complete [DEL {x, y}] followed by any
    text is accepted as a valid delete of the point (x, y): what follows
    the point is not looked at. *)
Theorem C9_del_trailing_text_ignored :
  forall x y g,
    digit_group x = true -> digit_group y = true ->
    exists e,
      ParseKDtreeCommand (line_del x y ++ g) = Some e /\
      valid e = true /\ action e = bs "DEL" /\ point e = coords x y.
Proof.
  intros x y g Hx Hy.
  destruct (ParseKDtreeCommand_del x y g Hx Hy) as (g' & d' & -> & _).
  eexists. repeat split.
Qed.

Lemma C9_del_trailing_text_ignored_witness :
  exists e,
    ParseKDtreeCommand (line_del (bs "1") (bs "2") ++ bs " 5 and more")
      = Some e /\
    valid e = true /\ action e = bs "DEL" /\
    point e = coords (bs "1") (bs "2").
Proof.
  apply (C9_del_trailing_text_ignored (bs "1") (bs "2") (bs " 5 and more"));
    reflexivity.
Defined.

(** C5, as the specification states it, fails on digit groups beyond the
    range of the integer conversions: a payload of 2^63 is read as
    2^63 - 1, and a coordinate of 2^53 + 1 as 2^53. *)
Lemma C5_counterexample :
  ~ (exists e,
       ParseKDtreeCommand
         (line_add (bs "1") (bs "2") (bs "9223372036854775808")) = Some e /\
       valid e = true /\ action e = bs "ADD" /\
       point e = [dec_value (bs "1"); dec_value (bs "2")] /\
       value (data e) = dec_value (bs "9223372036854775808")) /\
  ~ (exists e,
       ParseKDtreeCommand
         (line_add (bs "9007199254740993") (bs "2") (bs "3")) = Some e /\
       valid e = true /\ action e = bs "ADD" /\
       point e = [dec_value (bs "9007199254740993"); dec_value (bs "2")] /\
       value (data e) = dec_value (bs "3")).
Proof.
  split.
  - intros (e & Hp & _ & _ & _ & Hd).
    vm_compute in Hp. injection Hp as <-. vm_compute in Hd. discriminate.
  - intros (e & Hp & _ & _ & Hpt & _).
    vm_compute in Hp. injection Hp as <-. vm_compute in Hpt. discriminate.
Qed.

(** C5 (amended) -- for digit groups x, y of value at most 2^53 and n of
    value at most 2^63 - 1, the lines [ADD {x, y} n], [DEL {x, y}],
    [KNN {x, y} n] and [END] parse to a valid command with that action,
    the point (x, y) and the payload n; and the point pattern does not
    match [{3,4}], which lacks the space after the comma. *)
Theorem C5_command_lines_parse :
  forall x y n,
    digit_group x = true -> digit_group y = true -> digit_group n = true ->
    (dec_value x <= 2 ^ 53)%Z -> (dec_value y <= 2 ^ 53)%Z ->
    (dec_value n <= maxInt)%Z ->
    (exists e, ParseKDtreeCommand (line_add x y n) = Some e /\
       valid e = true /\ action e = bs "ADD" /\
       point e = [dec_value x; dec_value y] /\
       value (data e) = dec_value n) /\
    (exists e, ParseKDtreeCommand (line_del x y) = Some e /\
       valid e = true /\ action e = bs "DEL" /\
       point e = [dec_value x; dec_value y]) /\
    (exists e, ParseKDtreeCommand (line_knn x y n) = Some e /\
       valid e = true /\ action e = bs "KNN" /\
       point e = [dec_value x; dec_value y] /\
       value (data e) = dec_value n) /\
    (exists e, ParseKDtreeCommand line_end = Some e /\
       valid e = true /\ action e = bs "END") /\
    Match (Some re_point) (new_Expr (bs "{3,4}")) =
      Some (([], false), new_Expr (bs "{3,4}")) /\
    (exists e, ParseKDtreeCommand (bs "ADD {3,4} 7") = Some e /\
       valid e = false).
Proof.
  intros x y n Hx Hy Hn Bx By Bn.
  assert (coords x y = [dec_value x; dec_value y]) as Hc.
  { unfold coords. now rewrite !coordinate_exact. }
  repeat split.
  - rewrite ParseKDtreeCommand_add by assumption.
    eexists. repeat split; cbn [point data value]; auto using Atoi_exact.
  - destruct (ParseKDtreeCommand_del x y [] Hx Hy) as (g' & d' & Hp & Hg).
    rewrite app_nil_r in Hp. rewrite Hp.
    eexists. repeat split; cbn [point]; auto.
  - rewrite ParseKDtreeCommand_knn by assumption.
    eexists. repeat split; cbn [point data value]; auto using Atoi_exact.
  - eexists. vm_compute. repeat split.
  - eexists. vm_compute. repeat split.
Qed.

Lemma C5_command_lines_parse_witness :
  exists e, ParseKDtreeCommand (line_add (bs "3") (bs "4") (bs "7")) = Some e /\
    valid e = true /\ action e = bs "ADD" /\
    point e = [dec_value (bs "3"); dec_value (bs "4")] /\
    value (data e) = dec_value (bs "7").
Proof.
  apply (C5_command_lines_parse (bs "3") (bs "4") (bs "7"));
    first [reflexivity | vm_compute; discriminate].
Defined.

(** C1 -- the code accepts lines that have none of the four shapes: the
    pattern of a token is searched anywhere in the rest of the line, so
    [BLEND] is read as [END], and [xADD {1, 2} 3] inserts a record (at
    the point (1, 2), with payload 2: the cursor lags one byte behind). *)
Theorem C1_shapeless_lines_accepted :
  Spec.shape (bs "BLEND") = false /\
  (exists e, ParseKDtreeCommand (bs "BLEND") = Some e /\
     valid e = true /\ action e = bs "END") /\
  Spec.shape (bs "xADD {1, 2} 3") = false /\
  (forall T (HT : KDTree T) (store : T),
     final_store (Daemon.HandleRequest [ReadOk (bs "xADD {1, 2} 3")] store)
     = Insert store [1; 2]%Z (mkData 2)).
Proof.
  split; [reflexivity|]. split.
  - eexists. vm_compute. repeat split.
  - split; [reflexivity|]. intros T HT store. vm_compute. reflexivity.
Qed.

(** C2 -- [Match] finds the pattern anywhere after the cursor and moves
    the cursor by the length of the match only: on [" ADD"] the cursor
    ends at 3, before the end of the match at 4, and on ["xADD"] the match
    succeeds although the pattern does not match at the first non-space
    character. *)
Theorem C2_match_is_not_anchored :
  Match (Some re_action) (new_Expr (bs " ADD")) =
    Some ((bs "ADD", true), with_position (new_Expr (bs " ADD")) 3) /\
  Spec.Match (bs " ADD") 0 re_action = (Some (bs "ADD"), 4) /\
  Match (Some re_action) (new_Expr (bs "xADD")) =
    Some ((bs "ADD", true), with_position (new_Expr (bs "xADD")) 3) /\
  Spec.Match (bs "xADD") 0 re_action = (None, 0).
Proof. repeat split. Qed.

(** ** The session loop: the claims of the specification *)

(** C3 -- in the second source file a read error ends the whole server
    process: [HandleRequest] calls [log.Fatal]. *)
Theorem C3_read_error_ends_process :
  forall T (HT : KDTree T) (tree : T),
    Sibling.HandleRequest [ReadErr] tree =
    (tree, [EvWrite Greeting; EvFatal], ProcessExit).
Proof. reflexivity. Qed.

(** C4 -- the nearest-neighbour read of [daemon.go] happens while the lock
    is not held, and the second source file mutates the tree without any
    lock. *)
Theorem C4_tree_accessed_unlocked :
  forall T (HT : KDTree T) (store : T),
    accesses_locked false
      (trace (Daemon.HandleRequest [ReadOk (bs "KNN {0, 0} 1")] store))
    = false /\
    mutations_locked false
      (trace (Sibling.HandleRequest [ReadOk (bs "ADD {1, 2} 3")] store))
    = false.
Proof.
  intros T HT store. split; [|vm_compute; reflexivity].
  assert (ParseKDtreeCommand (bs "KNN {0, 0} 1") =
          Some (mkExpr (bs "KNN {0, 0} 1") 10 (bs "KNN") [0; 0]%Z
                  (mkData 1) true)) as Hp by (vm_compute; reflexivity).
  unfold Daemon.HandleRequest. cbn [Daemon.loop]. rewrite Hp.
  cbn [valid action point data value negb andb].
  change (bytes_eqb (bs "KNN") (bs "END")) with false.
  change (bytes_eqb (bs "KNN") (bs "ADD")) with false.
  change (bytes_eqb (bs "KNN") (bs "DEL")) with false.
  change (bytes_eqb (bs "KNN") (bs "KNN")) with true.
  cbv iota. destruct (KNN store [0; 0]%Z 1); reflexivity.
Qed.

(** C6 -- in the second source file a valid [END] ends the session
    without the farewell: when a session that is still reading receives a
    line that parses to a valid [END], the connection is closed, nothing
    more is read, and no farewell is written anywhere in the session.
    [daemon.go] writes the farewell immediately before it closes. *)
Theorem C6_end_without_farewell :
  forall T (HT : KDTree T) pre line rest (store st' : T) evs e,
    ParseKDtreeCommand line = Some e ->
    valid e = true -> action e = bs "END" ->
    (Sibling.loop pre store = (st', evs, Reading) ->
     Sibling.HandleRequest (pre ++ ReadOk line :: rest) store =
       (st', EvWrite Greeting :: evs ++ [EvClose], Returned) /\
     ~ In (EvWrite Bye)
          (trace (Sibling.HandleRequest (pre ++ ReadOk line :: rest) store)))
    /\
    (Daemon.loop pre store = (st', evs, Reading) ->
     Daemon.HandleRequest (pre ++ ReadOk line :: rest) store =
     (st', EvWrite Greeting :: evs ++ [EvWrite Bye; EvClose], Returned)).
Proof.
  intros T HT pre line rest store st' evs e Hp Hv Ha. split; intros Hl.
  - split.
    + unfold Sibling.HandleRequest.
      rewrite (Sibling_loop_app pre (ReadOk line :: rest) store st' evs Hl).
      cbn [Sibling.loop]. rewrite Hp, Hv, Ha. reflexivity.
    + unfold Sibling.HandleRequest.
      destruct (Sibling.loop (pre ++ ReadOk line :: rest) store)
        as [[t tr] o] eqn:E.
      pose proof (Sibling_never_says_bye (pre ++ ReadOk line :: rest) store)
        as Hn.
      rewrite E in Hn. unfold trace in *. cbn [emit fst snd app In] in *.
      intros [Hd|Hd]; [discriminate|exact (Hn Hd)].
  - unfold Daemon.HandleRequest.
    rewrite (Daemon_loop_app pre (ReadOk line :: rest) store st' evs Hl).
    cbn [Daemon.loop]. rewrite Hp, Hv, Ha. reflexivity.
Qed.

Lemma C6_end_without_farewell_witness :
  Sibling.HandleRequest
    ([ReadOk (bs "ADD {1, 2} 3")] ++ ReadOk (bs "END") :: [ReadOk (bs "END")])
    ([] : SpecStore.Store) =
    ([([1; 2]%Z, mkData 3)],
     EvWrite Greeting ::
       [EvInsert [1; 2]%Z (mkData 3); EvWrite (Added [1; 2]%Z)] ++ [EvClose],
     Returned) /\
  ~ In (EvWrite Bye)
       (trace (Sibling.HandleRequest
                 ([ReadOk (bs "ADD {1, 2} 3")]
                    ++ ReadOk (bs "END") :: [ReadOk (bs "END")])
                 ([] : SpecStore.Store))).
Proof.
  apply (proj1 (C6_end_without_farewell SpecStore.Store SpecStore.spec_tree
                  [ReadOk (bs "ADD {1, 2} 3")] (bs "END") [ReadOk (bs "END")]
                  [] [([1; 2]%Z, mkData 3)]
                  [EvInsert [1; 2]%Z (mkData 3); EvWrite (Added [1; 2]%Z)]
                  (mkExpr (bs "END") 3 (bs "END") [] (mkData 0) true)
                  eq_refl eq_refl eq_refl));
    reflexivity.
Defined.

(** *** How the three commands reach the tree *)

Section Dispatch.
Context {T : Type} `{KDTree T}.

Lemma Daemon_add_line :
  forall x y n rest (store : T),
    digit_group x = true -> digit_group y = true -> digit_group n = true ->
    Daemon.loop (ReadOk (line_add x y n) :: rest) store =
    emit [EvLock; EvInsert (coords x y) (mkData (Atoi n)); EvUnlock;
          EvWrite (Added (coords x y))]
         (Daemon.loop rest (Insert store (coords x y) (mkData (Atoi n)))).
Proof.
  intros x y n rest store Hx Hy Hn. cbn [Daemon.loop].
  rewrite ParseKDtreeCommand_add by assumption. reflexivity.
Qed.

Lemma Daemon_del_line :
  forall x y rest (store : T),
    digit_group x = true -> digit_group y = true ->
    Daemon.loop (ReadOk (line_del x y) :: rest) store =
    emit [EvLock; EvRemove (coords x y); EvUnlock;
          EvWrite (Deleted (coords x y))]
         (Daemon.loop rest (Remove store (coords x y))).
Proof.
  intros x y rest store Hx Hy. cbn [Daemon.loop].
  destruct (ParseKDtreeCommand_del x y [] Hx Hy) as (g' & d' & Hp & _).
  rewrite app_nil_r in Hp. rewrite Hp. reflexivity.
Qed.

Lemma Daemon_knn_line :
  forall x y n rest (store : T),
    digit_group x = true -> digit_group y = true -> digit_group n = true ->
    Daemon.loop (ReadOk (line_knn x y n) :: rest) store =
    match KNN store (coords x y) (Atoi n) with
    | Some rst =>
        emit [EvKNN (coords x y) (Atoi n); EvWrite (KnnResult rst)]
             (Daemon.loop rest store)
    | None => (store, [EvKNN (coords x y) (Atoi n)], Panicked)
    end.
Proof.
  intros x y n rest store Hx Hy Hn. cbn [Daemon.loop].
  rewrite ParseKDtreeCommand_knn by assumption. reflexivity.
Qed.

End Dispatch.

(** ** The store of the specification *)

Section StoreOfTheSpec.
Import SpecStore.
Variable q : list Z.

Lemma closer_trans :
  forall a b c, closer q a b -> closer q b c -> closer q a c.
Proof. unfold closer. intros. lia. Qed.

Lemma insert_by_perm :
  forall r l, Permutation (insert_by q r l) (r :: l).
Proof.
  intros r l. induction l as [|r' l IH]; cbn [insert_by].
  - reflexivity.
  - destruct (dist2 (fst r) q <? dist2 (fst r') q)%Z.
    + reflexivity.
    + rewrite IH. apply perm_swap.
Qed.

Lemma insert_by_sorted :
  forall r l, StronglySorted (closer q) l ->
    StronglySorted (closer q) (insert_by q r l).
Proof.
  intros r l Hs. induction Hs as [|r' l Hs IH Hall]; cbn [insert_by].
  - constructor; constructor.
  - destruct (dist2 (fst r) q <? dist2 (fst r') q)%Z eqn:E.
    + apply Z.ltb_lt in E.
      assert (closer q r r') as Hrr by (unfold closer; lia).
      constructor; [now constructor|].
      constructor; [assumption|].
      eapply Forall_impl; [|exact Hall].
      intros a Ha. eapply closer_trans; eassumption.
    + apply Z.ltb_ge in E. constructor; [assumption|].
      eapply Permutation_Forall;
        [symmetry; apply insert_by_perm|].
      constructor; [exact E|assumption].
Qed.

Lemma sort_fold_sorted :
  forall l acc, StronglySorted (closer q) acc ->
    StronglySorted (closer q)
      (fold_left (fun acc r => insert_by q r acc) l acc).
Proof.
  intros l. induction l as [|r l IH]; intros acc Hs; cbn [fold_left].
  - assumption.
  - apply IH. now apply insert_by_sorted.
Qed.

Lemma sort_fold_perm :
  forall l acc,
    Permutation (fold_left (fun acc r => insert_by q r acc) l acc) (l ++ acc).
Proof.
  intros l. induction l as [|r l IH]; intros acc; cbn [fold_left app].
  - reflexivity.
  - rewrite IH. rewrite insert_by_perm. symmetry. apply Permutation_middle.
Qed.

Lemma sort_by_distance_sorted :
  forall st, StronglySorted (closer q) (sort_by_distance q st).
Proof. intros st. apply sort_fold_sorted. constructor. Qed.

Lemma sort_by_distance_perm :
  forall st, Permutation (sort_by_distance q st) st.
Proof.
  intros st. unfold sort_by_distance. rewrite sort_fold_perm.
  now rewrite app_nil_r.
Qed.

Lemma StronglySorted_app_inv :
  forall (a b : list StoreRecord),
    StronglySorted (closer q) (a ++ b) ->
    StronglySorted (closer q) a /\
    forall r r', In r a -> In r' b -> closer q r r'.
Proof.
  intros a b. induction a as [|x a IH]; cbn [app]; intros Hs.
  - split; [constructor|]. intros r r' [].
  - inversion Hs as [|? ? Hs' Hall]; subst.
    destruct (IH Hs') as [Ha Hab]. split.
    + constructor; [assumption|].
      rewrite Forall_forall in *. intros z Hz. apply Hall.
      apply in_or_app. now left.
    + intros r r' [<-|Hr] Hr'.
      * rewrite Forall_forall in Hall. apply Hall.
        apply in_or_app. now right.
      * now apply Hab.
Qed.

Lemma spec_Delete_idempotent :
  forall st p, spec_Delete (spec_Delete st p) p = spec_Delete st p.
Proof.
  intros st p. unfold spec_Delete. induction st as [|r st IH]; cbn [filter].
  - reflexivity.
  - destruct (negb (point_eqb (fst r) p)) eqn:E; cbn [filter].
    + now rewrite E, IH.
    + exact IH.
Qed.

Lemma spec_Delete_absent :
  forall st p, (forall r, In r st -> fst r <> p) -> spec_Delete st p = st.
Proof.
  intros st p. unfold spec_Delete. induction st as [|r st IH]; intros Hn;
    cbn [filter].
  - reflexivity.
  - unfold point_eqb at 1.
    destruct (list_eq_dec Z.eq_dec (fst r) p) as [E|E].
    + exfalso. apply (Hn r); [now left|exact E].
    + cbn [negb]. f_equal. apply IH. intros r' Hr'. apply Hn. now right.
Qed.

End StoreOfTheSpec.

(** C7 -- the session hands the point and the count of a [KNN] line to
    the tree and writes what the tree returns (where the call panics, the
    session ends there).  On the store of the
    specification, [KNearest] returns at most k records, in ascending
    distance from the query point, taken from the store so that no record
    left out is nearer than a record returned; all the records when the
    store holds no more than k; and none for k <= 0, so that
    [KNN {0, 0} 0] is answered with the empty list on every store. *)
Theorem C7_knearest :
  forall (st : SpecStore.Store) (q : list Z) (k : Z),
    let res := SpecStore.spec_KNearest st q k in
    length res <= Z.to_nat k /\
    StronglySorted (closer q) res /\
    (exists rest,
       Permutation (res ++ rest) st /\
       forall r r', In r res -> In r' rest -> closer q r r') /\
    ((Z.of_nat (length st) <= k)%Z -> Permutation res st) /\
    ((k <= 0)%Z -> res = []) /\
    (forall T (HT : KDTree T) (store : T),
       Daemon.HandleRequest [ReadOk (bs "KNN {0, 0} 0")] store =
       match KNN store [0; 0]%Z 0 with
       | Some rst =>
           (store, [EvWrite Greeting; EvKNN [0; 0]%Z 0;
                    EvWrite (KnnResult rst)], Reading)
       | None => (store, [EvWrite Greeting; EvKNN [0; 0]%Z 0], Panicked)
       end) /\
    Daemon.HandleRequest [ReadOk (bs "KNN {0, 0} 0")] st =
      (st, [EvWrite Greeting; EvKNN [0; 0]%Z 0; EvWrite (KnnResult [])],
       Reading).
Proof.
  intros st q k res. subst res. unfold SpecStore.spec_KNearest.
  assert (forall T (HT : KDTree T) (store : T),
       Daemon.HandleRequest [ReadOk (bs "KNN {0, 0} 0")] store =
       match KNN store [0; 0]%Z 0 with
       | Some rst =>
           (store, [EvWrite Greeting; EvKNN [0; 0]%Z 0;
                    EvWrite (KnnResult rst)], Reading)
       | None => (store, [EvWrite Greeting; EvKNN [0; 0]%Z 0], Panicked)
       end) as Hd.
  { intros T HT store. unfold Daemon.HandleRequest.
    rewrite (Daemon_knn_line (bs "0") (bs "0") (bs "0") [] store
               eq_refl eq_refl eq_refl).
    change (coords (bs "0") (bs "0")) with [0; 0]%Z.
    change (Atoi (bs "0")) with 0%Z.
    destruct (KNN store [0; 0]%Z 0); reflexivity. }
  destruct (k <=? 0)%Z eqn:E.
  - apply Z.leb_le in E.
    split; [|split; [|split; [|split; [|split; [|split]]]]].
    + simpl. lia.
    + constructor.
    + exists st. split; [reflexivity|]. intros r r' [].
    + intros Hk. assert (length st = 0) as Hl by lia.
      destruct st; [reflexivity|discriminate].
    + reflexivity.
    + exact Hd.
    + apply Hd.
  - apply Z.leb_gt in E.
    pose proof (sort_by_distance_sorted q st) as Hs.
    pose proof (sort_by_distance_perm q st) as Hp.
    rewrite <- (firstn_skipn (Z.to_nat k)) in Hs.
    apply StronglySorted_app_inv in Hs. destruct Hs as [Hs Hsep].
    split; [|split; [|split; [|split; [|split; [|split]]]]].
    + apply firstn_le_length.
    + exact Hs.
    + exists (skipn (Z.to_nat k) (SpecStore.sort_by_distance q st)).
      split; [now rewrite firstn_skipn|exact Hsep].
    + intros Hk. rewrite firstn_all2; [exact Hp|].
      rewrite (Permutation_length Hp). lia.
    + intros Hk. lia.
    + exact Hd.
    + apply Hd.
Qed.

Lemma C7_knearest_witness :
  SpecStore.spec_KNearest
    [([10; 10]%Z, mkData 30); ([2; 2]%Z, mkData 20); ([1; 1]%Z, mkData 10)]
    [0; 0]%Z 0 = [].
Proof.
  apply (proj1 (proj2 (proj2 (proj2 (proj2
    (C7_knearest
       [([10; 10]%Z, mkData 30); ([2; 2]%Z, mkData 20);
        ([1; 1]%Z, mkData 10)] [0; 0]%Z 0)))))).
  vm_compute. discriminate.
Defined.

(** C8 -- a [DEL {x, y}] line read twice in a row is answered with the
    same "deleted" acknowledgment both times, whatever the tree does.  On
    the store of the specification, a delete of a point that no record has
    leaves the store as it was, and the second of two equal deletes leaves
    the store as the first left it. *)
Theorem C8_delete_idempotent :
  forall x y,
    digit_group x = true -> digit_group y = true ->
    let p := coords x y in
    let ack := [EvLock; EvRemove p; EvUnlock; EvWrite (Deleted p)] in
    (forall T (HT : KDTree T) (store : T),
       trace (Daemon.HandleRequest
                [ReadOk (line_del x y); ReadOk (line_del x y)] store) =
       EvWrite Greeting :: ack ++ ack) /\
    (forall st : SpecStore.Store,
       (forall r, In r st -> fst r <> p) ->
       Daemon.HandleRequest [ReadOk (line_del x y)] st =
       (st, EvWrite Greeting :: ack, Reading)) /\
    (forall st : SpecStore.Store,
       Daemon.HandleRequest
         [ReadOk (line_del x y); ReadOk (line_del x y)] st =
       (SpecStore.spec_Delete st p, EvWrite Greeting :: ack ++ ack, Reading)
       /\
       SpecStore.spec_Delete (SpecStore.spec_Delete st p) p =
       SpecStore.spec_Delete st p).
Proof.
  intros x y Hx Hy p ack. subst p ack.
  split; [|split; [|intros st; split]].
  - intros T HT store. unfold Daemon.HandleRequest.
    rewrite !Daemon_del_line by assumption. reflexivity.
  - intros st Hn. unfold Daemon.HandleRequest.
    rewrite Daemon_del_line by assumption. cbn [Daemon.loop emit app Remove
      SpecStore.spec_tree].
    now rewrite spec_Delete_absent.
  - unfold Daemon.HandleRequest.
    rewrite !Daemon_del_line by assumption. cbn [Daemon.loop emit app Remove
      SpecStore.spec_tree].
    now rewrite spec_Delete_idempotent.
  - apply spec_Delete_idempotent.
Qed.

Lemma C8_delete_idempotent_witness :
  Daemon.HandleRequest
    [ReadOk (line_del (bs "5") (bs "5")); ReadOk (line_del (bs "5") (bs "5"))]
    [([5; 5]%Z, mkData 1); ([1; 2]%Z, mkData 3); ([5; 5]%Z, mkData 2)] =
  ([([1; 2]%Z, mkData 3)],
   EvWrite Greeting ::
     [EvLock; EvRemove [5; 5]%Z; EvUnlock; EvWrite (Deleted [5; 5]%Z)] ++
     [EvLock; EvRemove [5; 5]%Z; EvUnlock; EvWrite (Deleted [5; 5]%Z)],
   Reading).
Proof.
  apply (proj1 (proj2 (proj2 (C8_delete_idempotent
    (bs "5") (bs "5") eq_refl eq_refl))
    [([5; 5]%Z, mkData 1); ([1; 2]%Z, mkData 3); ([5; 5]%Z, mkData 2)])).
Defined.

(** * Further properties of the code *)

(** ** The tokens as plain scanning *)

Lemma prefixb_true :
  forall p s, prefixb p s = true <-> exists rest, s = p ++ rest.
Proof.
  intros p. induction p as [|a p IH]; intros s; cbn [prefixb].
  - split; [intros _; exists s; reflexivity|reflexivity].
  - destruct s as [|b s].
    + split; [discriminate|intros [rest H]; discriminate].
    + rewrite andb_true_iff, Ascii.eqb_eq, IH. split.
      * intros [-> [rest ->]]. exists rest. reflexivity.
      * intros [rest H]. injection H as -> ->. eauto.
Qed.

Lemma lang_action_inv : forall m, lang re_action m -> In m keywords.
Proof.
  intros m H. unfold re_action in H. cbn in H.
  repeat match goal with
  | H : lang (Alt _ _) _ |- _ => inversion H; subst; clear H
  | H : lang (Cat _ _) _ |- _ => inversion H; subst; clear H
  | H : lang (Lit _) _ |- _ => inversion H; subst; clear H
  end; simpl; auto.
Qed.

Lemma match_prefix_keyword :
  forall kw rest, In kw keywords ->
    match_prefix re_action (kw ++ rest) = Some kw.
Proof.
  intros kw rest H. apply match_prefix_intro.
  unfold keywords in H. simpl in H.
  destruct H as [<-|[<-|[<-|[<-|[]]]]]; reflexivity.
Qed.

Lemma match_prefix_action :
  forall s, match_prefix re_action s = keyword_at s.
Proof.
  intros s. unfold keyword_at.
  destruct (find (fun kw => prefixb kw s) keywords) as [kw|] eqn:K.
  - apply find_some in K. destruct K as [Hin Hp].
    apply prefixb_true in Hp. destruct Hp as [rest ->].
    now apply match_prefix_keyword.
  - destruct (match_prefix re_action s) as [m|] eqn:E; [|reflexivity].
    apply match_prefix_sound in E. destruct E as (rest & -> & Hl).
    apply lang_action_inv in Hl.
    pose proof (find_none _ _ K m Hl) as Hn. cbn beta in Hn.
    assert (prefixb m (m ++ rest) = true) as Ht
      by (apply prefixb_true; eauto).
    congruence.
Qed.

Lemma Find_unfold :
  forall r s,
    Find r s =
    match match_prefix r s with
    | Some m => Some m
    | None =>
        match s with
        | [] => None
        | _ :: s' => Find r s'
        end
    end.
Proof.
  intros r s. destruct (match_prefix r s) as [m|] eqn:E.
  - rewrite Find_snd. destruct s; cbn [find_at]; now rewrite E.
  - destruct s as [|c s].
    + rewrite Find_snd. cbn [find_at]. now rewrite E.
    + now apply Find_skip.
Qed.

Lemma Find_action_scan : forall s, Find re_action s = first_keyword s.
Proof.
  intros s. induction s as [|c s IH]; rewrite Find_unfold;
    rewrite match_prefix_action; cbn [first_keyword].
  - reflexivity.
  - destruct (keyword_at (c :: s)); [reflexivity|exact IH].
Qed.

Lemma take_drop_digits : forall s, s = take_digits s ++ drop_digits s.
Proof.
  intros s. induction s as [|c s IH]; cbn [take_digits drop_digits].
  - reflexivity.
  - destruct (is_digit c); [cbn [app]; now rewrite <- IH|reflexivity].
Qed.

Lemma take_digits_all : forall s, forallb is_digit (take_digits s) = true.
Proof.
  intros s. induction s as [|c s IH]; cbn [take_digits].
  - reflexivity.
  - destruct (is_digit c) eqn:E; [|reflexivity].
    cbn [forallb]. now rewrite E, IH.
Qed.

Lemma drop_digits_start : forall s, starts_with_digit (drop_digits s) = false.
Proof.
  intros s. induction s as [|c s IH]; cbn [drop_digits].
  - reflexivity.
  - destruct (is_digit c) eqn:E; [exact IH|]. cbn. exact E.
Qed.

Lemma take_digits_app :
  forall d rest, forallb is_digit d = true -> starts_with_digit rest = false ->
    take_digits (d ++ rest) = d /\ drop_digits (d ++ rest) = rest.
Proof.
  intros d rest Hd Hr. induction d as [|c d IH]; cbn [app].
  - destruct rest as [|c rest]; [split; reflexivity|].
    cbn in Hr. cbn [take_digits drop_digits]. now rewrite Hr.
  - cbn [forallb] in Hd. apply andb_true_iff in Hd. destruct Hd as [Hc Hd].
    cbn [take_digits drop_digits]. rewrite Hc.
    destruct (IH Hd) as [-> ->]. split; reflexivity.
Qed.

Lemma match_prefix_digits_scan :
  forall s,
    match_prefix re_digits s =
    match s with
    | c :: s' => if is_digit c then Some (c :: take_digits s') else None
    | [] => None
    end.
Proof.
  intros [|c s].
  - now apply match_prefix_digits_none.
  - destruct (is_digit c) eqn:E.
    + rewrite (take_drop_digits s) at 1.
      change (c :: take_digits s ++ drop_digits s)
        with ((c :: take_digits s) ++ drop_digits s).
      apply match_prefix_digits.
      * apply forallb_digit_group; [exact E|apply take_digits_all].
      * apply drop_digits_start.
    + apply match_prefix_digits_none. exact E.
Qed.

Lemma Find_digits_scan : forall s, Find re_digits s = first_digits s.
Proof.
  intros s. induction s as [|c s IH]; rewrite Find_unfold;
    rewrite match_prefix_digits_scan; cbn [first_digits].
  - reflexivity.
  - destruct (is_digit c); [reflexivity|exact IH].
Qed.

Lemma point_at_some :
  forall s x y, point_at s = Some (x, y) ->
    digit_group x = true /\ digit_group y = true /\
    exists rest, s = point_text x y ++ rest.
Proof.
  intros s x y H. unfold point_at in H.
  destruct s as [|c s1]; [discriminate|].
  destruct (Ascii.eqb c "{") eqn:E0; [|discriminate].
  apply Ascii.eqb_eq in E0. subst c.
  destruct (drop_digits s1) as [|c1 [|c2 s2]] eqn:D1; try discriminate.
  destruct (Ascii.eqb c1 "," && Ascii.eqb c2 " ") eqn:E1; [|discriminate].
  apply andb_true_iff in E1. destruct E1 as [E1 E2].
  apply Ascii.eqb_eq in E1, E2. subst c1 c2.
  destruct (drop_digits s2) as [|c3 rest] eqn:D2; [discriminate|].
  destruct (Ascii.eqb c3 "}" && digit_group (take_digits s1)
            && digit_group (take_digits s2)) eqn:E3; [|discriminate].
  apply andb_true_iff in E3. destruct E3 as [E3 Hy].
  apply andb_true_iff in E3. destruct E3 as [E3 Hx].
  apply Ascii.eqb_eq in E3. subst c3.
  injection H as <- <-. split; [exact Hx|]. split; [exact Hy|].
  exists rest. unfold point_text. cbn [bs list_ascii_of_string app].
  rewrite (take_drop_digits s1) at 1. rewrite D1.
  rewrite (take_drop_digits s2) at 1. rewrite D2.
  repeat (rewrite <- app_assoc; cbn [app]). reflexivity.
Qed.

Lemma point_at_text :
  forall x y rest, digit_group x = true -> digit_group y = true ->
    point_at (point_text x y ++ rest) = Some (x, y).
Proof.
  intros x y rest Hx Hy.
  pose proof (digit_group_forallb _ Hx) as [_ Hxa].
  pose proof (digit_group_forallb _ Hy) as [_ Hya].
  unfold point_text. cbn [bs list_ascii_of_string app point_at Ascii.eqb
    Bool.eqb].
  repeat (rewrite <- app_assoc; cbn [app]).
  destruct (take_digits_app x ("," :: " " :: y ++ "}" :: rest)%char Hxa
              eq_refl) as [-> ->].
  cbn [Ascii.eqb Bool.eqb andb].
  destruct (take_digits_app y ("}" :: rest)%char Hya eq_refl) as [-> ->].
  cbn [Ascii.eqb Bool.eqb andb]. now rewrite Hx, Hy.
Qed.

Lemma match_prefix_point_scan :
  forall s,
    match_prefix re_point s =
    match point_at s with
    | Some (x, y) => Some (point_text x y)
    | None => None
    end.
Proof.
  intros s. destruct (point_at s) as [[x y]|] eqn:P.
  - apply point_at_some in P. destruct P as (Hx & Hy & rest & ->).
    now apply match_prefix_point.
  - destruct (match_prefix re_point s) as [m|] eqn:E; [|reflexivity].
    apply match_prefix_sound in E. destruct E as (rest & -> & Hl).
    apply lang_point_inv in Hl. destruct Hl as (x & y & -> & Hx & Hy).
    rewrite point_at_text in P by assumption. discriminate.
Qed.

Lemma Find_point_scan :
  forall s,
    Find re_point s =
    match first_point s with
    | Some (x, y) => Some (point_text x y)
    | None => None
    end.
Proof.
  intros s. induction s as [|c s IH]; rewrite Find_unfold;
    rewrite match_prefix_point_scan; cbn [first_point].
  - destruct (point_at []) as [[x y]|]; reflexivity.
  - destruct (point_at (c :: s)) as [[x y]|]; [reflexivity|exact IH].
Qed.

Lemma first_keyword_some :
  forall s kw, first_keyword s = Some kw ->
    In kw keywords /\ length kw = 3 /\ 3 <= length s.
Proof.
  intros s kw H. rewrite <- Find_action_scan in H.
  pose proof (Find_length _ _ _ H) as Hl.
  apply Find_sound in H. destruct H as (pre & post & _ & Hlang).
  apply lang_action_inv in Hlang.
  pose proof (keyword_length kw Hlang). repeat split; [assumption|lia|lia].
Qed.

Lemma first_point_some :
  forall s x y, first_point s = Some (x, y) ->
    digit_group x = true /\ digit_group y = true /\
    length (point_text x y) <= length s.
Proof.
  intros s x y H.
  assert (digit_group x = true /\ digit_group y = true) as [Hx Hy].
  { induction s as [|c s IH]; cbn [first_point] in H.
    - destruct (point_at []) as [xy|] eqn:P; [|discriminate].
      injection H as ->. apply point_at_some in P. tauto.
    - destruct (point_at (c :: s)) as [xy|] eqn:P.
      + injection H as ->. apply point_at_some in P. tauto.
      + auto. }
  repeat split; try assumption.
  pose proof (Find_point_scan s) as Hf. rewrite H in Hf.
  now apply Find_length in Hf.
Qed.

Lemma first_digits_some :
  forall s n, first_digits s = Some n ->
    digit_group n = true /\ length n <= length s.
Proof.
  intros s n H. split.
  - induction s as [|c s IH]; cbn [first_digits] in H; [discriminate|].
    destruct (is_digit c) eqn:E; [|auto].
    injection H as <-. apply forallb_digit_group;
      [exact E|apply take_digits_all].
  - rewrite <- Find_digits_scan in H. now apply Find_length in H.
Qed.

Lemma IsAction_scan :
  forall B p a pt d v, p <= length B ->
    IsAction (mkExpr B p a pt d v) =
    Some match first_keyword (skipn p B) with
         | Some kw => (true, mkExpr B (p + 3) kw pt d v)
         | None => (false, mkExpr B 0 a pt d v)
         end.
Proof.
  intros B p a pt d v Hp.
  pose proof (slice_from_in_bounds _ _ Hp) as Hs.
  destruct (first_keyword (skipn p B)) as [kw|] eqn:K.
  - destruct (first_keyword_some _ _ K) as (_ & Hl & _).
    rewrite <- Find_action_scan in K.
    rewrite (IsAction_found B p a pt d v _ kw Hs K). now rewrite Hl.
  - rewrite <- Find_action_scan in K.
    now rewrite (IsAction_none B p a pt d v _ Hs K).
Qed.

Lemma IsPoint_scan :
  forall B p a pt d v, p <= length B ->
    IsPoint (mkExpr B p a pt d v) =
    Some match first_point (skipn p B) with
         | Some (x, y) =>
             (true, mkExpr B (p + length (point_text x y)) a (coords x y) d v)
         | None => (false, mkExpr B 0 a pt d v)
         end.
Proof.
  intros B p a pt d v Hp.
  pose proof (slice_from_in_bounds _ _ Hp) as Hs.
  pose proof (Find_point_scan (skipn p B)) as Hf.
  destruct (first_point (skipn p B)) as [[x y]|] eqn:P.
  - destruct (first_point_some _ _ _ P) as (Hx & Hy & _).
    now rewrite (IsPoint_found B p a pt d v _ x y Hs Hx Hy Hf).
  - now rewrite (IsPoint_none B p a pt d v _ Hs Hf).
Qed.

Lemma IsData_scan :
  forall B p a pt d v, p <= length B ->
    IsData (mkExpr B p a pt d v) =
    Some match first_digits (skipn p B) with
         | Some n => (true, mkExpr B (p + length n) a pt (mkData (Atoi n)) v)
         | None => (false, mkExpr B 0 a pt d v)
         end.
Proof.
  intros B p a pt d v Hp.
  pose proof (slice_from_in_bounds _ _ Hp) as Hs.
  destruct (first_digits (skipn p B)) as [n|] eqn:D;
    rewrite <- Find_digits_scan in D.
  - now rewrite (IsData_found B p a pt d v _ n Hs D).
  - now rewrite (IsData_none B p a pt d v _ Hs D).
Qed.

(** X1 -- [SkipWhitespace] never moves the cursor: with the cursor within
    the buffer it returns the expression as it was, blanks at the cursor
    or not; with the cursor beyond the buffer the slice panics. *)
Theorem X1_SkipWhitespace_never_skips :
  forall e,
    SkipWhitespace e =
    if position e <=? length (buffer e) then Some (tt, e) else None.
Proof.
  intros [B p a pt d v]. cbn [position buffer].
  destruct (p <=? length B) eqn:E.
  - apply Nat.leb_le in E.
    exact (SkipWhitespace_id B p a pt d v _ (slice_from_in_bounds _ _ E)).
  - unfold SkipWhitespace, bind, Current, slice_from. cbn [position buffer].
    now rewrite E.
Qed.

(** X2 -- with the cursor within the buffer, [Match] either fails and
    leaves the expression as it was, or returns a token that the pattern
    matches and that occurs in the buffer at or after the cursor; it then
    adds the length of the token to the cursor, wherever the token was
    found, changes nothing else, and the cursor stays within the
    buffer. *)
Theorem X2_Match_result :
  forall re e, position e <= length (buffer e) ->
    (exists m pre post,
       Match (Some re) e =
         Some ((m, true), with_position e (position e + length m)) /\
       skipn (position e) (buffer e) = pre ++ m ++ post /\
       lang re m /\
       position e + length m <= length (buffer e)) \/
    Match (Some re) e = Some (([], false), e).
Proof.
  intros re [B p a pt d v] Hp. cbn [position buffer] in *.
  pose proof (slice_from_in_bounds _ _ Hp) as Hs.
  destruct (Find re (skipn p B)) as [m|] eqn:F.
  - left. pose proof (found_in_bounds _ _ _ _ _ Hs F) as Hb.
    pose proof F as F'. apply Find_sound in F'.
    destruct F' as (pre & post & Hsplit & Hl).
    exists m, pre, post.
    rewrite (Match_found B p a pt d v re _ m Hs F). auto.
  - right. exact (Match_none B p a pt d v re _ Hs F).
Qed.

Lemma X2_Match_result_witness :
  (exists m pre post,
     Match (Some re_digits) (new_Expr (bs "ab12c")) =
       Some ((m, true), with_position (new_Expr (bs "ab12c")) (0 + length m))
     /\ skipn 0 (bs "ab12c") = pre ++ m ++ post /\
     lang re_digits m /\ 0 + length m <= length (bs "ab12c")) \/
  Match (Some re_digits) (new_Expr (bs "ab12c")) =
    Some (([], false), new_Expr (bs "ab12c")).
Proof.
  apply (X2_Match_result re_digits (new_Expr (bs "ab12c"))).
  simpl. lia.
Defined.

(** X3 -- with the cursor within the buffer, [IsAction] succeeds exactly
    when one of ADD, DEL, KNN, END occurs anywhere at or after the cursor;
    it takes the leftmost one as the action and moves the cursor 3 bytes
    on (not to the end of the keyword).  Otherwise it resets the cursor to
    0 and changes nothing else. *)
Theorem X3_IsAction_leftmost_keyword :
  forall e, position e <= length (buffer e) ->
    IsAction e =
    Some match first_keyword (skipn (position e) (buffer e)) with
         | Some kw =>
             (true, with_action (with_position e (position e + 3)) kw)
         | None => (false, with_position e 0)
         end.
Proof.
  intros [B p a pt d v] Hp. cbn [position buffer] in *.
  now rewrite IsAction_scan.
Qed.

Lemma X3_IsAction_leftmost_keyword_witness :
  IsAction (new_Expr (bs "BLEND KNN")) =
  Some (true, with_action (with_position (new_Expr (bs "BLEND KNN")) 3)
                (bs "END")).
Proof.
  apply (X3_IsAction_leftmost_keyword (new_Expr (bs "BLEND KNN"))).
  simpl. lia.
Defined.

(** X4 -- with the cursor within the buffer, [IsPoint] succeeds exactly
    when a text [{x, y}] with two digit groups occurs at or after the
    cursor; it decodes the leftmost one into the point and adds the length
    of that text to the cursor.  Otherwise it resets the cursor to 0 and
    leaves the point as it was. *)
Theorem X4_IsPoint_leftmost_point :
  forall e, position e <= length (buffer e) ->
    IsPoint e =
    Some match first_point (skipn (position e) (buffer e)) with
         | Some (x, y) =>
             (true,
              with_point
                (with_position e (position e + length (point_text x y)))
                (coords x y))
         | None => (false, with_position e 0)
         end.
Proof.
  intros [B p a pt d v] Hp. cbn [position buffer] in *.
  rewrite IsPoint_scan by assumption.
  destruct (first_point (skipn p B)) as [[x y]|]; reflexivity.
Qed.

Lemma X4_IsPoint_leftmost_point_witness :
  IsPoint (new_Expr (bs "{3,4} {5, 6}")) =
  Some (true,
        with_point (with_position (new_Expr (bs "{3,4} {5, 6}")) 6)
          [5; 6]%Z).
Proof.
  apply (X4_IsPoint_leftmost_point (new_Expr (bs "{3,4} {5, 6}"))).
  simpl. lia.
Defined.

(** X5 -- with the cursor within the buffer, [IsData] succeeds exactly
    when a digit occurs at or after the cursor; the payload is the number
    of the leftmost run of digits, taken as far as the digits go, and the
    cursor moves on by the length of that run.  Otherwise it resets the
    cursor to 0 and leaves the payload as it was. *)
Theorem X5_IsData_leftmost_digits :
  forall e, position e <= length (buffer e) ->
    IsData e =
    Some match first_digits (skipn (position e) (buffer e)) with
         | Some n =>
             (true,
              with_data (with_position e (position e + length n))
                (mkData (Atoi n)))
         | None => (false, with_position e 0)
         end.
Proof.
  intros [B p a pt d v] Hp. cbn [position buffer] in *.
  now rewrite IsData_scan.
Qed.

Lemma X5_IsData_leftmost_digits_witness :
  IsData (new_Expr (bs "} 42x7")) =
  Some (true, with_data (with_position (new_Expr (bs "} 42x7")) 2)
                (mkData 42)).
Proof.
  apply (X5_IsData_leftmost_digits (new_Expr (bs "} 42x7"))).
  simpl. lia.
Defined.

(** ** The parser in closed form *)

Lemma andM_true :
  forall (a b : M bool) e e', a e = Some (true, e') -> andM a b e = b e'.
Proof. intros a b e e' H. unfold andM, bind. now rewrite H. Qed.

Lemma andM_false :
  forall (a b : M bool) e e', a e = Some (false, e') ->
    andM a b e = Some (false, e').
Proof. intros a b e e' H. unfold andM, bind. now rewrite H. Qed.

Lemma alternatives_first :
  forall e0 e1, IsAddCommand e0 = Some (true, e1) ->
    alternatives e0 = Some (true, e1).
Proof.
  intros e0 e1 H1. unfold alternatives, IsFullCommand.
  now apply orM_true, orM_true, orM_true.
Qed.

Lemma alternatives_second :
  forall e0 e1 e2,
    IsAddCommand e0 = Some (false, e1) -> IsKnnCommand e1 = Some (true, e2) ->
    alternatives e0 = Some (true, e2).
Proof.
  intros e0 e1 e2 H1 H2. unfold alternatives, IsFullCommand.
  apply orM_true, orM_true. now rewrite (orM_false _ _ _ _ H1).
Qed.

Lemma alternatives_third :
  forall e0 e1 e2 e3,
    IsAddCommand e0 = Some (false, e1) -> IsKnnCommand e1 = Some (false, e2) ->
    IsDelCommand e2 = Some (true, e3) ->
    alternatives e0 = Some (true, e3).
Proof.
  intros e0 e1 e2 e3 H1 H2 H3. unfold alternatives, IsFullCommand.
  apply orM_true.
  assert (orM IsAddCommand IsKnnCommand e0 = Some (false, e2)) as H12
    by now rewrite (orM_false _ _ _ _ H1).
  now rewrite (orM_false _ _ _ _ H12).
Qed.

Lemma alternatives_fourth :
  forall e0 e1 e2 e3 r,
    IsAddCommand e0 = Some (false, e1) -> IsKnnCommand e1 = Some (false, e2) ->
    IsDelCommand e2 = Some (false, e3) -> IsEndAction e3 = Some r ->
    alternatives e0 = Some r.
Proof.
  intros e0 e1 e2 e3 r H1 H2 H3 H4. unfold alternatives, IsFullCommand.
  assert (orM IsAddCommand IsKnnCommand e0 = Some (false, e2)) as H12
    by now rewrite (orM_false _ _ _ _ H1).
  assert (orM (orM IsAddCommand IsKnnCommand) IsDelCommand e0
          = Some (false, e3)) as H123
    by now rewrite (orM_false _ _ _ _ H12).
  now rewrite (orM_false _ _ _ _ H123).
Qed.

Section ClosedForm.
Variable B : bytes.

Lemma sequence_no_keyword :
  first_keyword B = None ->
  forall a pt d v,
    IsAction (mkExpr B 0 a pt d v) = Some (false, mkExpr B 0 a pt d v) /\
    IsCommand (mkExpr B 0 a pt d v) = Some (false, mkExpr B 0 a pt d v) /\
    IsPartialCommand (mkExpr B 0 a pt d v)
      = Some (false, mkExpr B 0 a pt d v).
Proof.
  intros K a pt d v.
  assert (IsAction (mkExpr B 0 a pt d v) = Some (false, mkExpr B 0 a pt d v))
    as HA.
  { rewrite IsAction_scan by lia. cbn [skipn]. now rewrite K. }
  split; [exact HA|]. split.
  - unfold IsCommand.
    apply andM_false. now apply andM_false.
  - unfold IsPartialCommand. now apply andM_false.
Qed.

Variable kw : bytes.
Hypothesis K : first_keyword B = Some kw.

Lemma keyword_step :
  forall a pt d v,
    IsAction (mkExpr B 0 a pt d v) = Some (true, mkExpr B 3 kw pt d v).
Proof.
  intros a pt d v. rewrite IsAction_scan by lia. cbn [skipn].
  now rewrite K.
Qed.

Lemma keyword_fits : 3 <= length B.
Proof. now destruct (first_keyword_some _ _ K) as (_ & _ & H). Qed.

Lemma sequence_no_point :
  first_point (skipn 3 B) = None ->
  forall a pt d v,
    IsCommand (mkExpr B 0 a pt d v) = Some (false, mkExpr B 0 kw pt d v) /\
    IsPartialCommand (mkExpr B 0 a pt d v)
      = Some (false, mkExpr B 0 kw pt d v).
Proof.
  intros P a pt d v.
  assert (IsPoint (mkExpr B 3 kw pt d v) = Some (false, mkExpr B 0 kw pt d v))
    as HP.
  { rewrite IsPoint_scan by apply keyword_fits. now rewrite P. }
  split.
  - unfold IsCommand. apply andM_false.
    now rewrite (andM_true _ _ _ _ (keyword_step a pt d v)).
  - unfold IsPartialCommand.
    now rewrite (andM_true _ _ _ _ (keyword_step a pt d v)).
Qed.

Variables x y : bytes.
Hypothesis P : first_point (skipn 3 B) = Some (x, y).

Lemma point_step :
  forall a pt d v,
    IsPoint (mkExpr B 3 a pt d v) =
    Some (true, mkExpr B (3 + length (point_text x y)) a (coords x y) d v).
Proof.
  intros a pt d v. rewrite IsPoint_scan by apply keyword_fits.
  now rewrite P.
Qed.

Lemma point_fits : 3 + length (point_text x y) <= length B.
Proof.
  destruct (first_point_some _ _ _ P) as (_ & _ & H).
  rewrite length_skipn in H. pose proof keyword_fits. lia.
Qed.

Lemma partial_step :
  forall a pt d v,
    IsPartialCommand (mkExpr B 0 a pt d v) =
    Some (true, mkExpr B (3 + length (point_text x y)) kw (coords x y) d v).
Proof.
  intros a pt d v. unfold IsPartialCommand.
  rewrite (andM_true _ _ _ _ (keyword_step a pt d v)).
  apply point_step.
Qed.

Lemma sequence_no_digits :
  first_digits (skipn (3 + length (point_text x y)) B) = None ->
  forall a pt d v,
    IsCommand (mkExpr B 0 a pt d v) =
    Some (false, mkExpr B 0 kw (coords x y) d v).
Proof.
  intros D a pt d v. unfold IsCommand.
  rewrite (andM_true _ _ _ _ (partial_step a pt d v)).
  rewrite IsData_scan by apply point_fits. now rewrite D.
Qed.

Lemma sequence_digits :
  forall n,
    first_digits (skipn (3 + length (point_text x y)) B) = Some n ->
    forall a pt d v,
      IsCommand (mkExpr B 0 a pt d v) =
      Some (true, mkExpr B (3 + length (point_text x y) + length n) kw
                    (coords x y) (mkData (Atoi n)) v).
Proof.
  intros n D a pt d v. unfold IsCommand.
  rewrite (andM_true _ _ _ _ (partial_step a pt d v)).
  rewrite IsData_scan by apply point_fits. now rewrite D.
Qed.

End ClosedForm.

Ltac eval_alternative :=
  first
    [ erewrite IsAddCommand_eval by eauto; reflexivity
    | erewrite IsKnnCommand_eval by eauto; reflexivity
    | erewrite IsDelCommand_eval by eauto; reflexivity
    | erewrite IsEndAction_eval by eauto; reflexivity ].

Ltac eval_alternatives :=
  first
    [ solve [eapply alternatives_first; eval_alternative]
    | solve [eapply alternatives_second; eval_alternative]
    | solve [eapply alternatives_third; eval_alternative]
    | solve [eapply alternatives_fourth; eval_alternative] ].

Lemma alternatives_scan :
  forall B, alternatives (new_Expr B) =
    Some (valid (scan_parse B), with_valid (scan_parse B) false).
Proof.
  intros B. unfold scan_parse, new_Expr.
  destruct (first_keyword B) as [kw|] eqn:K.
  - pose proof (keyword_step B kw K) as HA.
    assert (In kw keywords) as Hin by (now apply first_keyword_some in K).
    destruct (first_point (skipn 3 B)) as [[x y]|] eqn:P.
    + pose proof (partial_step B kw K x y P) as HPc.
      destruct (first_digits (skipn (3 + length (point_text x y)) B))
        as [n|] eqn:D.
      * pose proof (sequence_digits B kw K x y P n D) as HC.
        unfold keywords in Hin. simpl in Hin.
        destruct Hin as [<-|[<-|[<-|[<-|[]]]]]; eval_alternatives.
      * pose proof (sequence_no_digits B kw K x y P D) as HC.
        unfold keywords in Hin. simpl in Hin.
        destruct Hin as [<-|[<-|[<-|[<-|[]]]]]; eval_alternatives.
    + pose proof (fun a pt d v =>
                    proj1 (sequence_no_point B kw K P a pt d v)) as HC.
      pose proof (fun a pt d v =>
                    proj2 (sequence_no_point B kw K P a pt d v)) as HPc.
      unfold keywords in Hin. simpl in Hin.
      destruct Hin as [<-|[<-|[<-|[<-|[]]]]]; eval_alternatives.
  - pose proof (fun a pt d v =>
                  proj1 (sequence_no_keyword B K a pt d v)) as HA.
    pose proof (fun a pt d v =>
                  proj1 (proj2 (sequence_no_keyword B K a pt d v))) as HC.
    pose proof (fun a pt d v =>
                  proj2 (proj2 (sequence_no_keyword B K a pt d v))) as HPc.
    eval_alternatives.
Qed.

Lemma ParseKDtreeCommand_scan :
  forall command,
    ParseKDtreeCommand command = Some (scan_parse (TrimSpace command)).
Proof.
  intros command. rewrite ParseKDtreeCommand_alternatives.
  rewrite alternatives_scan.
  destruct (scan_parse (TrimSpace command)) as [B p a pt d v].
  cbn [valid with_valid buffer position action point data].
  now destruct v.
Qed.

(** X6 -- [ParseKDtreeCommand] in closed form: on every input it returns
    the expression that is read off the trimmed line by three plain scans,
    for the leftmost keyword of the line, for the leftmost point text from
    byte 3 on, and for the leftmost run of digits from the cursor after
    the point (3 plus the length of the point text). *)
Theorem X6_parse_closed_form :
  forall command,
    ParseKDtreeCommand command = Some (scan_parse (TrimSpace command)).
Proof. exact ParseKDtreeCommand_scan. Qed.

(** ** What the parser hands on *)

Lemma float64_of_int_nonneg :
  forall x, (0 <= x)%Z -> (0 <= float64_of_int x)%Z.
Proof.
  intros x Hx. unfold float64_of_int.
  destruct (Z.abs x <? 2 ^ 53)%Z; [exact Hx|].
  set (e := (Z.log2 (Z.abs x) - 52)%Z).
  assert (0 <= 2 ^ e)%Z as Hp by (apply Z.pow_nonneg; lia).
  assert (0 <= Z.abs x / 2 ^ e)%Z as Hq.
  { destruct (Z.eq_dec (2 ^ e) 0) as [E|E].
    - rewrite E. now rewrite Z.div_0_r.
    - apply Z.div_pos; lia. }
  assert (0 <= Z.sgn x)%Z as Hs by (apply Z.sgn_nonneg; exact Hx).
  destruct ((2 ^ (e - 1) <? Z.abs x mod 2 ^ e)%Z
            || ((Z.abs x mod 2 ^ e =? 2 ^ (e - 1))%Z
                && Z.odd (Z.abs x / 2 ^ e))); nia.
Qed.

Lemma Atoi_range :
  forall n, digit_group n = true -> (0 <= Atoi n <= maxInt)%Z.
Proof.
  intros n H. rewrite Atoi_digits by assumption.
  pose proof (dec_value_nonneg n H). unfold maxInt in *. lia.
Qed.

Lemma coords_point2 :
  forall x y, digit_group x = true -> digit_group y = true ->
    point2 (coords x y).
Proof.
  intros x y Hx Hy. unfold point2, coords.
  exists (float64_of_int (Atoi x)), (float64_of_int (Atoi y)).
  split; [reflexivity|].
  split; apply float64_of_int_nonneg; now apply Atoi_range.
Qed.

Lemma scan_parse_wf :
  forall B,
    buffer (scan_parse B) = B /\
    position (scan_parse B) <= length B /\
    action (scan_parse B) =
      match first_keyword B with Some kw => kw | None => [] end /\
    (valid (scan_parse B) = true ->
       In (action (scan_parse B)) keywords /\
       (action (scan_parse B) <> bs "END" -> point2 (point (scan_parse B))) /\
       (0 <= value (data (scan_parse B)) <= maxInt)%Z) /\
    (valid (scan_parse B) = false -> position (scan_parse B) = 0).
Proof.
  intros B. unfold scan_parse.
  destruct (first_keyword B) as [kw|] eqn:K.
  - destruct (first_keyword_some _ _ K) as (Hin & _ & H3).
    assert (0 <= 0 <= maxInt)%Z as H0 by (unfold maxInt; lia).
    destruct (first_point (skipn 3 B)) as [[x y]|] eqn:P.
    + destruct (first_point_some _ _ _ P) as (Hx & Hy & _).
      pose proof (point_fits B kw K x y P) as Hp2.
      pose proof (coords_point2 x y Hx Hy) as Hc.
      destruct (first_digits (skipn (3 + length (point_text x y)) B))
        as [n|] eqn:D.
      * destruct (first_digits_some _ _ D) as (Hn & Hl).
        rewrite length_skipn in Hl.
        pose proof (Atoi_range n Hn) as Hr.
        destruct (bytes_eqb kw (bs "ADD") || bytes_eqb kw (bs "KNN"));
          [|destruct (bytes_eqb kw (bs "DEL"))];
          cbn [buffer position action point data valid value];
          repeat split; auto; try lia; try discriminate.
      * destruct (bytes_eqb kw (bs "DEL"));
          [|destruct (bytes_eqb kw (bs "END"))];
          cbn [buffer position action point data valid value];
          repeat split; auto; try lia; try discriminate.
    + destruct (bytes_eqb kw (bs "END")) eqn:E;
        cbn [buffer position action point data valid value];
        repeat split; auto; try lia; try discriminate.
      unfold bytes_eqb in E.
      destruct (list_eq_dec ascii_dec kw (bs "END")); [|discriminate].
      intros Hne. contradiction.
  - cbn. repeat split; auto; try lia; discriminate.
Qed.

(** X7 -- what [ParseKDtreeCommand] returns, on every input: the buffer
    is the trimmed line and the cursor lies within it; the action is the
    leftmost keyword of the trimmed line (empty when there is none, and
    then the whole expression is at its zero value); a valid expression
    has one of the four keywords as action, a point of exactly two
    coordinates, none negative, unless the action is END, and a payload
    between 0 and 2^63 - 1; an invalid expression has the cursor back
    at 0. *)
Theorem X7_parse_result_well_formed :
  forall command,
    exists e,
      ParseKDtreeCommand command = Some e /\
      buffer e = TrimSpace command /\
      position e <= length (buffer e) /\
      action e =
        match first_keyword (TrimSpace command) with
        | Some kw => kw
        | None => []
        end /\
      (first_keyword (TrimSpace command) = None ->
       e = new_Expr (TrimSpace command)) /\
      (valid e = true ->
         In (action e) keywords /\
         (action e <> bs "END" -> point2 (point e)) /\
         (0 <= value (data e) <= maxInt)%Z) /\
      (valid e = false -> position e = 0).
Proof.
  intros command. exists (scan_parse (TrimSpace command)).
  destruct (scan_parse_wf (TrimSpace command)) as (Hb & Hp & Ha & Hv & Hi).
  split; [apply ParseKDtreeCommand_scan|].
  split; [exact Hb|]. split; [now rewrite Hb|]. split; [exact Ha|].
  split; [|split; assumption].
  intros K. unfold scan_parse. now rewrite K.
Qed.

(** ** White space around a line *)

Lemma ascii_space_width :
  forall c s, ascii_space c = true ->
    space_width (c :: s) = 1 /\ space_width_last (c :: s) = 1.
Proof.
  intros c s H. unfold ascii_space in H.
  assert ((byte_val c <? 128) = true) as Hlt.
  { apply Nat.ltb_lt.
    destruct ((9 <=? byte_val c) && (byte_val c <=? 13)) eqn:E1;
    destruct (byte_val c =? 32) eqn:E2; try discriminate;
      reflect_bools; lia. }
  unfold space_width, space_width_last. cbn [map].
  now rewrite Hlt, H.
Qed.

Lemma trim_with_spaces :
  forall (width : bytes -> nat) ws fuel s,
    (forall c t, ascii_space c = true -> width (c :: t) = 1) ->
    forallb ascii_space ws = true ->
    trim_with width (length ws + fuel) (ws ++ s) = trim_with width fuel s.
Proof.
  intros width ws fuel s Hw. induction ws as [|c ws IH]; intros Hs.
  - reflexivity.
  - cbn [forallb] in Hs. apply andb_true_iff in Hs. destruct Hs as [Hc Hs].
    cbn [length Nat.add app trim_with]. rewrite (Hw c _ Hc).
    cbn [skipn]. now apply IH.
Qed.

Lemma forallb_reverse :
  forall (f : ascii -> bool) l, forallb f (rev l) = forallb f l.
Proof.
  intros f l. induction l as [|c l IH]; cbn [rev forallb].
  - reflexivity.
  - rewrite forallb_app, IH. cbn [forallb].
    rewrite andb_true_r. apply andb_comm.
Qed.

Lemma TrimLeft_spaces :
  forall pre s, forallb ascii_space pre = true ->
    plain (hd " "%char s) = true ->
    TrimLeft (pre ++ s) = s.
Proof.
  intros pre s Hpre Hs. destruct s as [|c0 s]; [discriminate|].
  cbn [hd] in Hs. unfold TrimLeft. rewrite length_app.
  rewrite trim_with_spaces;
    [|intros c t Hc; apply (ascii_space_width c t Hc)|assumption].
  cbn [length trim_with]. now rewrite space_width_plain.
Qed.

Lemma TrimRight_spaces :
  forall s post, forallb ascii_space post = true ->
    plain (last s " "%char) = true ->
    TrimRight (s ++ post) = s.
Proof.
  intros s post Hpost Hs.
  destruct s as [|c0 s0]; [discriminate|].
  destruct (@exists_last _ (c0 :: s0)) as (a & c & E); [discriminate|].
  rewrite E in *. rewrite last_last in Hs.
  unfold TrimRight. rewrite rev_app_distr, rev_app_distr. cbn [rev app].
  rewrite !length_app. cbn [length].
  replace (length a + 1 + length post)
    with (length (rev post) + (length a + 1))
    by (rewrite length_rev; lia).
  rewrite trim_with_spaces;
    [|intros c' t Hc; apply (ascii_space_width c' t Hc)
     |now rewrite forallb_reverse].
  rewrite Nat.add_1_r. cbn [trim_with].
  pose proof (space_width_last_bound [] c (rev a) Hs) as Hb.
  cbn [app length] in Hb.
  destruct (space_width_last (c :: rev a)); [|lia].
  cbn [rev]. now rewrite rev_involutive.
Qed.

Lemma TrimSpace_spaces :
  forall pre s post,
    forallb ascii_space pre = true -> forallb ascii_space post = true ->
    plain (hd " "%char s) = true -> plain (last s " "%char) = true ->
    TrimSpace (pre ++ s ++ post) = s.
Proof.
  intros pre s post Hpre Hpost Hh Hl. unfold TrimSpace.
  rewrite TrimLeft_spaces; [now apply TrimRight_spaces|assumption|].
  destruct s; [discriminate|exact Hh].
Qed.

Lemma TrimSpace_blank :
  forall ws, forallb ascii_space ws = true -> TrimSpace ws = [].
Proof.
  intros ws H. unfold TrimSpace, TrimLeft.
  rewrite <- (app_nil_r ws) at 2.
  rewrite <- (Nat.add_0_r (length ws)).
  rewrite trim_with_spaces;
    [reflexivity|intros c t Hc; apply (ascii_space_width c t Hc)|assumption].
Qed.

(** X8 -- ASCII white space (blank, tab, line feed, vertical tab, form
    feed, carriage return) before and after a line makes no difference to
    [ParseKDtreeCommand], for every line that starts and ends with an
    ASCII byte that is not white space. *)
Theorem X8_surrounding_space_ignored :
  forall pre line post,
    forallb ascii_space pre = true -> forallb ascii_space post = true ->
    plain (hd " "%char line) = true -> plain (last line " "%char) = true ->
    ParseKDtreeCommand (pre ++ line ++ post) = ParseKDtreeCommand line.
Proof.
  intros pre line post Hpre Hpost Hh Hl.
  rewrite !ParseKDtreeCommand_alternatives.
  rewrite (TrimSpace_spaces pre line post Hpre Hpost Hh Hl).
  pose proof (TrimSpace_spaces [] line [] eq_refl eq_refl Hh Hl) as E.
  cbn [app] in E. rewrite app_nil_r in E. now rewrite E.
Qed.

Lemma X8_surrounding_space_ignored_witness :
  ParseKDtreeCommand
    ((" "%char :: ["009"%char]) ++ bs "KNN {1, 2} 3"
       ++ ["013"%char; "010"%char])
  = ParseKDtreeCommand (bs "KNN {1, 2} 3").
Proof.
  apply (X8_surrounding_space_ignored
           (" "%char :: ["009"%char]) (bs "KNN {1, 2} 3")
           ["013"%char; "010"%char]); reflexivity.
Defined.

(** X9 -- a line of ASCII white space only, the empty line included, is
    invalid: the parser returns the zero expression on the empty buffer;
    [daemon.go] answers it with INVALID COMMAND and reads on with the
    store unchanged, the second source file closes the connection. *)
Theorem X9_blank_line_invalid :
  forall ws, forallb ascii_space ws = true ->
    ParseKDtreeCommand ws = Some (new_Expr []) /\
    (forall T (HT : KDTree T) rest (store : T),
       Daemon.loop (ReadOk ws :: rest) store =
       emit [EvWrite InvalidCommand] (Daemon.loop rest store)) /\
    (forall T (HT : KDTree T) rest (tree : T),
       Sibling.loop (ReadOk ws :: rest) tree = (tree, [EvClose], Returned)).
Proof.
  intros ws H.
  assert (ParseKDtreeCommand ws = Some (new_Expr [])) as Hp.
  { rewrite ParseKDtreeCommand_scan, (TrimSpace_blank ws H). reflexivity. }
  split; [exact Hp|]. split; intros T HT rest st.
  - now apply (Daemon_invalid_line ws (new_Expr [])).
  - now apply (Sibling_invalid_line ws (new_Expr [])).
Qed.

Lemma X9_blank_line_invalid_witness :
  ParseKDtreeCommand ["013"%char; "010"%char] = Some (new_Expr []).
Proof.
  apply (proj1 (X9_blank_line_invalid ["013"%char; "010"%char] eq_refl)).
Defined.

(** ** Text after a command, and blanks inside it *)

Lemma TrimSpace_keeps_prefix :
  forall c0 a c g, plain c0 = true -> plain c = true ->
    exists g' g'',
      g = g' ++ g'' /\
      TrimSpace (c0 :: a ++ c :: g) = c0 :: a ++ c :: g'.
Proof.
  intros c0 a c g H0 H. unfold TrimSpace.
  rewrite TrimLeft_plain by assumption. unfold TrimRight.
  change (c0 :: a ++ c :: g) with ((c0 :: a) ++ c :: g).
  rewrite rev_app_distr. cbn [rev]. rewrite <- app_assoc. cbn [app].
  destruct (trim_last_keeps (length (c0 :: a ++ c :: g))
              (rev g) c (rev a ++ [c0]) H) as [j Hj].
  rewrite Hj.
  exists (rev (skipn j (rev g))), (rev (firstn j (rev g))). split.
  - rewrite <- rev_app_distr, firstn_skipn. now rewrite rev_involutive.
  - rewrite rev_app_distr. cbn [rev]. rewrite rev_app_distr, rev_involutive.
    cbn [rev app]. rewrite <- app_assoc. reflexivity.
Qed.

Lemma starts_with_digit_prefix :
  forall g' g'', starts_with_digit (g' ++ g'') = false ->
    starts_with_digit g' = false.
Proof. intros [|c g'] g'' H; [reflexivity|exact H]. Qed.

Lemma first_keyword_prefix :
  forall kw rest, In kw keywords -> first_keyword (kw ++ rest) = Some kw.
Proof.
  intros kw rest H. rewrite <- Find_action_scan.
  now apply Find_action_keyword.
Qed.

Lemma first_point_text :
  forall x y rest, digit_group x = true -> digit_group y = true ->
    first_point (point_text x y ++ rest) = Some (x, y).
Proof.
  intros x y rest Hx Hy.
  pose proof (point_at_text x y rest Hx Hy) as P.
  destruct (point_text x y ++ rest); cbn [first_point]; now rewrite P.
Qed.

Lemma first_point_blank :
  forall s, first_point (" "%char :: s) = first_point s.
Proof. reflexivity. Qed.

Lemma first_digits_group :
  forall n g, digit_group n = true -> starts_with_digit g = false ->
    first_digits (n ++ g) = Some n.
Proof.
  intros [|c n] g Hn Hg; [discriminate|].
  apply digit_group_cons in Hn. destruct Hn as [Hc Hn].
  cbn [app first_digits]. rewrite Hc.
  now destruct (take_digits_app n g Hn Hg) as [-> _].
Qed.

Lemma slice_from_skipn :
  forall s p cur, slice_from s p = Some cur -> skipn p s = cur.
Proof.
  intros s p cur H. unfold slice_from in H.
  destruct (p <=? length s); [now injection H|discriminate].
Qed.

(** A full command with one blank before the point and any text after
    the payload that does not start with a digit. *)
Lemma scan_parse_full :
  forall kw x y n g,
    In kw keywords ->
    digit_group x = true -> digit_group y = true -> digit_group n = true ->
    starts_with_digit g = false ->
    first_keyword (kw ++ bs " " ++ point_text x y ++ bs " " ++ n ++ g)
      = Some kw /\
    first_point
      (skipn 3 (kw ++ bs " " ++ point_text x y ++ bs " " ++ n ++ g))
      = Some (x, y) /\
    first_digits
      (skipn (3 + length (point_text x y))
         (kw ++ bs " " ++ point_text x y ++ bs " " ++ n ++ g))
      = Some n.
Proof.
  intros kw x y n g Hk Hx Hy Hn Hg.
  split; [now apply first_keyword_prefix|]. split.
  - rewrite (slice_from_skipn _ _ (bs " " ++ point_text x y ++ bs " " ++ n
                                     ++ g)).
    + cbn [bs list_ascii_of_string app]. rewrite first_point_blank.
      now apply first_point_text.
    + apply slice_from_app. now rewrite (keyword_length kw Hk).
  - rewrite (slice_from_skipn _ _ _
               (slice_after_point kw x y (bs " " ++ n ++ g) Hk)).
    cbn [bs list_ascii_of_string app first_digits].
    replace (is_digit "}") with false by reflexivity.
    replace (is_digit " ") with false by reflexivity.
    now apply first_digits_group.
Qed.

Lemma TrimSpace_full_line :
  forall k0 k1 k2 x y n g,
    plain k0 = true -> digit_group n = true ->
    starts_with_digit g = false ->
    exists g',
      starts_with_digit g' = false /\
      TrimSpace ([k0; k1; k2] ++ bs " " ++ point_text x y ++ bs " " ++ n ++ g)
      = [k0; k1; k2] ++ bs " " ++ point_text x y ++ bs " " ++ n ++ g'.
Proof.
  intros k0 k1 k2 x y n g Hk Hn Hg.
  destruct (digit_group_last n Hn) as (n' & c & -> & Hc).
  destruct (TrimSpace_keeps_prefix k0
              ([k1; k2] ++ bs " " ++ point_text x y ++ bs " " ++ n') c g
              Hk Hc) as (g' & g'' & Eg & E).
  exists g'. split.
  - subst g. now apply starts_with_digit_prefix in Hg.
  - replace ([k0; k1; k2] ++ bs " " ++ point_text x y ++ bs " "
               ++ (n' ++ [c]) ++ g)
      with (k0 :: ([k1; k2] ++ bs " " ++ point_text x y ++ bs " " ++ n')
               ++ c :: g) by (now norm_app).
    rewrite E. now norm_app.
Qed.

(** X10 -- text after a complete [ADD {x, y} n] or [KNN {x, y} n] is
    ignored as long as it does not start with a digit: the line is a valid
    command with the point of x and y and the payload of n. *)
Theorem X10_text_after_full_command_ignored :
  forall x y n g,
    digit_group x = true -> digit_group y = true -> digit_group n = true ->
    starts_with_digit g = false ->
    (exists e,
       ParseKDtreeCommand (line_add x y n ++ g) = Some e /\
       valid e = true /\ action e = bs "ADD" /\
       point e = coords x y /\ data e = mkData (Atoi n)) /\
    (exists e,
       ParseKDtreeCommand (line_knn x y n ++ g) = Some e /\
       valid e = true /\ action e = bs "KNN" /\
       point e = coords x y /\ data e = mkData (Atoi n)).
Proof.
  intros x y n g Hx Hy Hn Hg. split.
  - unfold line_add. rewrite <- !app_assoc.
    rewrite ParseKDtreeCommand_scan.
    destruct (TrimSpace_full_line "A" "D" "D" x y n g eq_refl Hn Hg)
      as (g' & Hg' & E).
    change ["A"; "D"; "D"]%char with (bs "ADD") in E. rewrite E.
    destruct (scan_parse_full (bs "ADD") x y n g' in_keywords_ADD
                Hx Hy Hn Hg') as (K & P & D).
    unfold scan_parse. rewrite K, P, D.
    eexists. split; [reflexivity|]. repeat split.
  - unfold line_knn. rewrite <- !app_assoc.
    rewrite ParseKDtreeCommand_scan.
    destruct (TrimSpace_full_line "K" "N" "N" x y n g eq_refl Hn Hg)
      as (g' & Hg' & E).
    change ["K"; "N"; "N"]%char with (bs "KNN") in E. rewrite E.
    destruct (scan_parse_full (bs "KNN") x y n g' in_keywords_KNN
                Hx Hy Hn Hg') as (K & P & D).
    unfold scan_parse. rewrite K, P, D.
    eexists. split; [reflexivity|]. repeat split.
Qed.

Lemma X10_text_after_full_command_ignored_witness :
  exists e,
    ParseKDtreeCommand (line_add (bs "3") (bs "4") (bs "7") ++ bs " please")
      = Some e /\
    valid e = true /\ action e = bs "ADD" /\
    point e = coords (bs "3") (bs "4") /\ data e = mkData (Atoi (bs "7")).
Proof.
  apply (proj1 (X10_text_after_full_command_ignored
                  (bs "3") (bs "4") (bs "7") (bs " please")
                  eq_refl eq_refl eq_refl eq_refl)).
Defined.

Lemma Atoi_one_digit :
  forall c, is_digit c = true -> Atoi [c] = digit_val c.
Proof.
  intros c H.
  assert (digit_group [c] = true) as Hg by (cbn; now rewrite H).
  pose proof (digit_val_range c H) as Hr.
  rewrite Atoi_exact; [reflexivity|exact Hg|].
  unfold dec_value, dec_step, maxInt. cbn [fold_left]. lia.
Qed.

Lemma scan_parse_two_blanks :
  forall kw x y' c n,
    In kw keywords ->
    digit_group x = true -> forallb is_digit y' = true -> is_digit c = true ->
    first_keyword
      (kw ++ bs "  " ++ point_text x (y' ++ [c]) ++ bs " " ++ n) = Some kw /\
    first_point
      (skipn 3 (kw ++ bs "  " ++ point_text x (y' ++ [c]) ++ bs " " ++ n))
      = Some (x, y' ++ [c]) /\
    first_digits
      (skipn (3 + length (point_text x (y' ++ [c])))
         (kw ++ bs "  " ++ point_text x (y' ++ [c]) ++ bs " " ++ n))
      = Some [c].
Proof.
  intros kw x y' c n Hk Hx Hy Hc.
  assert (digit_group (y' ++ [c]) = true) as Hyc.
  { destruct y' as [|c' y']; cbn [app digit_group forallb].
    - now rewrite Hc.
    - cbn [forallb] in Hy. rewrite forallb_app. cbn [forallb].
      apply andb_true_iff in Hy. destruct Hy as [-> ->]. now rewrite Hc. }
  split; [now apply first_keyword_prefix|]. split.
  - rewrite (slice_from_skipn _ _ (bs "  " ++ point_text x (y' ++ [c])
                                     ++ bs " " ++ n)).
    + cbn [bs list_ascii_of_string app]. rewrite !first_point_blank.
      now apply first_point_text.
    + apply slice_from_app. now rewrite (keyword_length kw Hk).
  - rewrite (slice_from_skipn _ _ (c :: bs "} " ++ n)).
    + cbn [first_digits]. rewrite Hc. reflexivity.
    + replace (kw ++ bs "  " ++ point_text x (y' ++ [c]) ++ bs " " ++ n)
        with ((kw ++ bs "  " ++ bs "{" ++ x ++ bs ", " ++ y')
                ++ c :: bs "} " ++ n)
        by (unfold point_text; rewrite <- !app_assoc; now norm_app).
      apply slice_from_app. unfold point_text.
      rewrite !length_app, (keyword_length kw Hk). simpl. lia.
Qed.

(** X11 -- with two blanks between the keyword and the point, an [ADD] or
    [KNN] line is still valid with the point of x and y, but its payload
    is the last digit of y and not n: the cursor is advanced by the length
    of each token and so stands two bytes before the end of the point when
    the payload is searched. *)
Theorem X11_two_blanks_shift_payload :
  forall x y' c n,
    digit_group x = true -> forallb is_digit y' = true ->
    is_digit c = true -> digit_group n = true ->
    (exists e,
       ParseKDtreeCommand
         (bs "ADD" ++ bs "  " ++ point_text x (y' ++ [c]) ++ bs " " ++ n)
         = Some e /\
       valid e = true /\ action e = bs "ADD" /\
       point e = coords x (y' ++ [c]) /\ value (data e) = digit_val c) /\
    (exists e,
       ParseKDtreeCommand
         (bs "KNN" ++ bs "  " ++ point_text x (y' ++ [c]) ++ bs " " ++ n)
         = Some e /\
       valid e = true /\ action e = bs "KNN" /\
       point e = coords x (y' ++ [c]) /\ value (data e) = digit_val c).
Proof.
  intros x y' c n Hx Hy Hc Hn.
  destruct (digit_group_last n Hn) as (n' & cn & -> & Hcn).
  split.
  - rewrite ParseKDtreeCommand_scan.
    replace (bs "ADD" ++ bs "  " ++ point_text x (y' ++ [c]) ++ bs " "
               ++ n' ++ [cn])
      with ("A"%char :: (bs "DD  " ++ point_text x (y' ++ [c]) ++ bs " "
                           ++ n') ++ [cn]) by (now norm_app).
    rewrite TrimSpace_id by (reflexivity || assumption).
    replace ("A"%char :: (bs "DD  " ++ point_text x (y' ++ [c]) ++ bs " "
                            ++ n') ++ [cn])
      with (bs "ADD" ++ bs "  " ++ point_text x (y' ++ [c]) ++ bs " "
              ++ n' ++ [cn]) by (now norm_app).
    destruct (scan_parse_two_blanks (bs "ADD") x y' c (n' ++ [cn])
                in_keywords_ADD Hx Hy Hc) as (K & P & D).
    unfold scan_parse. rewrite K, P, D.
    eexists. split; [reflexivity|]. repeat split.
    cbn [data value]. now apply Atoi_one_digit.
  - rewrite ParseKDtreeCommand_scan.
    replace (bs "KNN" ++ bs "  " ++ point_text x (y' ++ [c]) ++ bs " "
               ++ n' ++ [cn])
      with ("K"%char :: (bs "NN  " ++ point_text x (y' ++ [c]) ++ bs " "
                           ++ n') ++ [cn]) by (now norm_app).
    rewrite TrimSpace_id by (reflexivity || assumption).
    replace ("K"%char :: (bs "NN  " ++ point_text x (y' ++ [c]) ++ bs " "
                            ++ n') ++ [cn])
      with (bs "KNN" ++ bs "  " ++ point_text x (y' ++ [c]) ++ bs " "
              ++ n' ++ [cn]) by (now norm_app).
    destruct (scan_parse_two_blanks (bs "KNN") x y' c (n' ++ [cn])
                in_keywords_KNN Hx Hy Hc) as (K & P & D).
    unfold scan_parse. rewrite K, P, D.
    eexists. split; [reflexivity|]. repeat split.
    cbn [data value]. now apply Atoi_one_digit.
Qed.

Lemma X11_two_blanks_shift_payload_witness :
  exists e,
    ParseKDtreeCommand
      (bs "ADD" ++ bs "  " ++ point_text (bs "1") (bs "2" ++ ["5"%char])
         ++ bs " " ++ bs "9") = Some e /\
    valid e = true /\ action e = bs "ADD" /\
    point e = coords (bs "1") (bs "2" ++ ["5"%char]) /\
    value (data e) = digit_val "5".
Proof.
  apply (proj1 (X11_two_blanks_shift_payload
                  (bs "1") (bs "2") "5"%char (bs "9")
                  eq_refl eq_refl eq_refl eq_refl)).
Defined.

(** ** [MakePoint] on other texts *)

Lemma find_at_digit_free :
  forall s off, digit_free s = true -> find_at re_digits off s = None.
Proof.
  intros s. induction s as [|c s IH]; intros off H.
  - reflexivity.
  - cbn [digit_free forallb] in H. apply andb_true_iff in H.
    destruct H as [Hc Hs]. apply negb_true_iff in Hc.
    rewrite find_at_digits_skip by assumption. now apply IH.
Qed.

Lemma digit_free_start :
  forall s, digit_free s = true -> starts_with_digit s = false.
Proof.
  intros [|c s] H; [reflexivity|].
  cbn [digit_free forallb] in H. apply andb_true_iff in H.
  destruct H as [Hc _]. now apply negb_true_iff in Hc.
Qed.

Lemma find_at_one_group :
  forall pre d post off,
    digit_free pre = true -> digit_group d = true ->
    starts_with_digit post = false ->
    find_at re_digits off (pre ++ d ++ post) = Some (off + length pre, d).
Proof.
  intros pre d post. induction pre as [|c pre IH]; intros off Hp Hd Hs.
  - cbn [app length]. rewrite Nat.add_0_r. now apply find_at_digits.
  - cbn [digit_free forallb] in Hp. apply andb_true_iff in Hp.
    destruct Hp as [Hc Hp]. apply negb_true_iff in Hc.
    cbn [app]. rewrite find_at_digits_skip by assumption.
    rewrite (IH (S off) Hp Hd Hs). cbn [length]. f_equal. f_equal. lia.
Qed.

Lemma FindAllString_none :
  forall s, digit_free s = true -> FindAllString re_digits s = [].
Proof.
  intros s H. unfold FindAllString. cbn [find_all].
  now rewrite find_at_digit_free.
Qed.

Lemma FindAllString_one :
  forall pre d post,
    digit_free pre = true -> digit_group d = true -> digit_free post = true ->
    FindAllString re_digits (pre ++ d ++ post) = [d].
Proof.
  intros pre d post Hp Hd Hs. unfold FindAllString. cbn [find_all].
  rewrite (find_at_one_group pre d post 0 Hp Hd (digit_free_start _ Hs)).
  destruct d as [|c d]; [discriminate|].
  cbn [Nat.add]. rewrite skipn_app.
  rewrite skipn_all2 by lia.
  replace (length pre + length (c :: d) - length pre) with (length (c :: d))
    by lia.
  rewrite skipn_app, skipn_all, Nat.sub_diag. cbn [app skipn].
  match goal with
  | |- context [find_all re_digits ?f true post] => destruct f
  end; cbn [find_all]; [reflexivity|].
  now rewrite find_at_digit_free.
Qed.

(** X12 -- [MakePoint] panics on every text with fewer than two digit
    groups, that is, with no digit at all (the empty text included) or
    with a single run of digits; on the text [{x, y}] of two digit groups
    it returns the two coordinates. *)
Theorem X12_MakePoint_needs_two_groups :
  (forall s, digit_free s = true -> MakePoint s = None) /\
  (forall pre d post,
     digit_free pre = true -> digit_group d = true ->
     digit_free post = true ->
     MakePoint (pre ++ d ++ post) = None) /\
  (forall x y,
     digit_group x = true -> digit_group y = true ->
     MakePoint (point_text x y) =
     Some [float64_of_int (Atoi x); float64_of_int (Atoi y)]).
Proof.
  split; [|split].
  - intros s H. unfold MakePoint. now rewrite FindAllString_none.
  - intros pre d post Hp Hd Hs. unfold MakePoint.
    now rewrite FindAllString_one.
  - exact MakePoint_point.
Qed.

Lemma X12_MakePoint_needs_two_groups_witness :
  MakePoint (bs "{" ++ bs "12" ++ bs "}") = None.
Proof.
  apply (proj1 (proj2 X12_MakePoint_needs_two_groups)
           (bs "{") (bs "12") (bs "}")); reflexivity.
Defined.

(** ** The sessions, command by command *)

Lemma result_emit :
  forall T a (r : T * list event * outcome), result (emit a r) = result r.
Proof. intros T a [[t evs] o]. reflexivity. Qed.

Lemma trace_emit :
  forall T a (r : T * list event * outcome),
    trace (emit a r) = a ++ trace r.
Proof. intros T a [[t evs] o]. reflexivity. Qed.

Lemma final_store_emit :
  forall T a (r : T * list event * outcome),
    final_store (emit a r) = final_store r.
Proof. intros T a [[t evs] o]. reflexivity. Qed.

Lemma bytes_eqb_eq : forall a b, bytes_eqb a b = true -> a = b.
Proof.
  intros a b H. unfold bytes_eqb in H.
  now destruct (list_eq_dec ascii_dec a b).
Qed.

Lemma bytes_eqb_refl : forall a, bytes_eqb a a = true.
Proof.
  intros a. unfold bytes_eqb.
  now destruct (list_eq_dec ascii_dec a a).
Qed.

(** What the parser returns is never a valid expression that the
    [switch] does not know, and the arguments for the tree are well
    formed. *)
Lemma command_of_scan :
  forall B,
    match command_of (scan_parse B) with
    | CmdInvalid | CmdEnd => True
    | CmdAdd p d => point2 p /\ (0 <= value d <= maxInt)%Z
    | CmdDel p => point2 p
    | CmdKnn p k => point2 p /\ (0 <= k <= maxInt)%Z
    | CmdNone => False
    end.
Proof.
  intros B.
  destruct (scan_parse_wf B) as (_ & _ & _ & Hv & _).
  unfold command_of.
  destruct (valid (scan_parse B)); cbn [negb andb]; [|exact I].
  destruct (Hv eq_refl) as (Hin & Hp & Hd).
  destruct (bytes_eqb (action (scan_parse B)) (bs "END")) eqn:E;
    [exact I|].
  assert (action (scan_parse B) <> bs "END") as Hne.
  { intros Heq. rewrite Heq, bytes_eqb_refl in E. discriminate. }
  specialize (Hp Hne).
  unfold keywords in Hin. simpl in Hin.
  destruct Hin as [Ha|[Ha|[Ha|[Ha|[]]]]]; rewrite <- Ha in *;
    try (exfalso; apply Hne; reflexivity);
    cbn; auto.
Qed.

Lemma command_of_end :
  forall B,
    command_of (scan_parse B) = CmdEnd <->
    match first_keyword B with
    | Some kw => bytes_eqb kw (bs "END")
    | None => false
    end = true.
Proof.
  intros B.
  destruct (scan_parse_wf B) as (_ & _ & Ha & Hv & _).
  assert (forall kw, first_keyword B = Some kw ->
            bytes_eqb kw (bs "END") = true ->
            valid (scan_parse B) = true) as Hend.
  { intros kw K E. unfold scan_parse. rewrite K.
    apply bytes_eqb_eq in E. subst kw.
    destruct (first_point (skipn 3 B)) as [[x y]|];
      [destruct (first_digits _)|]; reflexivity. }
  unfold command_of. rewrite Ha.
  destruct (first_keyword B) as [kw|] eqn:K.
  - destruct (bytes_eqb kw (bs "END")) eqn:E.
    + rewrite (Hend kw eq_refl E). cbn. tauto.
    + destruct (valid (scan_parse B)); cbn [negb andb].
      * split; [|discriminate].
        repeat match goal with
        | |- context [if ?b then _ else _] => destruct b
        end; discriminate.
      * split; discriminate.
  - destruct (valid (scan_parse B)) eqn:V.
    + destruct (Hv eq_refl) as (Hin & _). rewrite Ha in Hin.
      unfold keywords in Hin. simpl in Hin.
      destruct Hin as [H|[H|[H|[H|[]]]]]; discriminate.
    + cbn. split; discriminate.
Qed.

Section SessionSteps.
Context {T : Type} `{KDTree T}.

Lemma Daemon_loop_command :
  forall line rest (store : T),
    Daemon.loop (ReadOk line :: rest) store =
    match command_of (scan_parse (TrimSpace line)) with
    | CmdInvalid => emit [EvWrite InvalidCommand] (Daemon.loop rest store)
    | CmdEnd => (store, [EvWrite Bye; EvClose], Returned)
    | CmdAdd p d =>
        emit [EvLock; EvInsert p d; EvUnlock; EvWrite (Added p)]
             (Daemon.loop rest (Insert store p d))
    | CmdDel p =>
        emit [EvLock; EvRemove p; EvUnlock; EvWrite (Deleted p)]
             (Daemon.loop rest (Remove store p))
    | CmdKnn p k =>
        match KNN store p k with
        | Some rst =>
            emit [EvKNN p k; EvWrite (KnnResult rst)] (Daemon.loop rest store)
        | None => (store, [EvKNN p k], Panicked)
        end
    | CmdNone => Daemon.loop rest store
    end.
Proof.
  intros line rest store. cbn [Daemon.loop].
  rewrite ParseKDtreeCommand_scan. unfold command_of.
  repeat match goal with
  | |- context [if ?b then _ else _] => destruct b
  end; reflexivity.
Qed.

Lemma Sibling_loop_command :
  forall line rest (tree : T),
    Sibling.loop (ReadOk line :: rest) tree =
    match command_of (scan_parse (TrimSpace line)) with
    | CmdInvalid => (tree, [EvClose], Returned)
    | CmdEnd => (tree, [EvClose], Returned)
    | CmdAdd p d =>
        emit [EvInsert p d; EvWrite (Added p)]
             (Sibling.loop rest (Insert tree p d))
    | CmdDel p =>
        emit [EvRemove p; EvWrite (Deleted p)]
             (Sibling.loop rest (Remove tree p))
    | CmdKnn p k =>
        match KNN tree p k with
        | Some rst =>
            emit [EvKNN p k; EvWrite (KnnResult rst)] (Sibling.loop rest tree)
        | None => (tree, [EvKNN p k], Panicked)
        end
    | CmdNone => Sibling.loop rest tree
    end.
Proof.
  intros line rest tree. cbn [Sibling.loop].
  rewrite ParseKDtreeCommand_scan. unfold command_of.
  repeat match goal with
  | |- context [if ?b then _ else _] => destruct b
  end; reflexivity.
Qed.

End SessionSteps.

(** One step of an induction over the reads of a session: the line is
    replaced by the command it stands for, with what is known of it, and
    a nearest-neighbour call by its result. *)
Ltac session_step line :=
  first [rewrite Daemon_loop_command | rewrite Sibling_loop_command];
  let Hc := fresh "Hc" in
  pose proof (command_of_scan (TrimSpace line)) as Hc;
  pose proof (command_of_end (TrimSpace line));
  destruct (command_of (scan_parse (TrimSpace line)));
  try contradiction;
  try match goal with
      | |- context [match KNN ?t ?p ?k with _ => _ end] =>
          let K := fresh "K" in destruct (KNN t p k) eqn:K
      end.

(** ** The sessions over all reads *)

Ltac end_line_false :=
  match goal with
  | Hiff : _ = CmdEnd <-> ?X = true |- _ =>
      let E := fresh "E" in
      destruct X eqn:E;
      [ (destruct Hiff as [_ Hiff]; specialize (Hiff eq_refl); discriminate)
      | clear Hiff ]
  end.

Ltac end_line_true :=
  match goal with
  | Hiff : CmdEnd = CmdEnd <-> ?X = true |- _ =>
      let E := fresh "E" in
      assert (X = true) as E by (apply Hiff; reflexivity);
      try rewrite E in *; clear Hiff
  end.

Section DaemonSessions.
Context {T : Type} `{KDTree T}.

Lemma Daemon_loop_outcome :
  forall reads (store : T),
    result (Daemon.loop reads store) <> ProcessExit /\
    (result (Daemon.loop reads store) = Returned ->
     existsb is_end_line reads = true) /\
    (existsb is_end_line reads = true ->
     result (Daemon.loop reads store) = Returned \/
     result (Daemon.loop reads store) = Panicked) /\
    (In EvClose (trace (Daemon.loop reads store)) <->
     result (Daemon.loop reads store) = Returned).
Proof.
  intros reads. induction reads as [|r reads IH]; intros store.
  - cbn. repeat split; auto; try discriminate; tauto.
  - destruct r as [line|].
    + session_step line; cbn [existsb is_end_line];
        try end_line_false; try end_line_true;
        rewrite ?result_emit, ?trace_emit; cbn [orb app In];
        try (match goal with
             | |- context [Daemon.loop reads ?s] =>
                 destruct (IH s) as (I1 & I2 & I3 & I4)
             end;
             repeat split; try tauto;
             intros Hd; repeat (destruct Hd as [Hd|Hd];
                                [discriminate|]); tauto).
      * cbn. repeat split; auto; discriminate.
      * cbn. repeat split; try discriminate; auto.
        intros [Hd|[]]; discriminate.
    + cbn [Daemon.loop existsb is_end_line orb].
      rewrite result_emit, trace_emit. cbn [app In].
      destruct (IH store) as (I1 & I2 & I3 & I4).
      repeat split; try tauto.
      intros [Hd|Hd]; [discriminate|tauto].
Qed.

Lemma Daemon_loop_writes :
  forall reads (store : T),
    count_writes (trace (Daemon.loop reads store)) <= length reads /\
    (result (Daemon.loop reads store) = Reading ->
     count_writes (trace (Daemon.loop reads store)) = length reads).
Proof.
  intros reads. induction reads as [|r reads IH]; intros store.
  - cbn. auto.
  - destruct r as [line|].
    + session_step line; clear H0;
        rewrite ?result_emit, ?trace_emit;
        cbn [app count_writes length];
        try (match goal with
             | |- context [Daemon.loop reads ?s] =>
                 destruct (IH s) as (I1 & I2)
             end;
             split; [lia|intros Hr; rewrite (I2 Hr); reflexivity]).
      all: cbn; split; [lia|discriminate].
    + cbn [Daemon.loop]. rewrite result_emit, trace_emit.
      cbn [app count_writes length].
      destruct (IH store) as (I1 & I2).
      split; [lia|intros Hr; rewrite (I2 Hr); reflexivity].
Qed.

Lemma Daemon_loop_lock_discipline :
  forall reads (store : T),
    lock_discipline false (trace (Daemon.loop reads store)) = true.
Proof.
  intros reads. induction reads as [|r reads IH]; intros store.
  - reflexivity.
  - destruct r as [line|].
    + session_step line; clear H0; rewrite ?trace_emit;
        cbn [app lock_discipline negb andb trace fst snd]; auto.
    + cbn [Daemon.loop]. rewrite trace_emit.
      cbn [app lock_discipline negb andb]. apply IH.
Qed.

Lemma replay_app :
  forall a b (t : T), replay (a ++ b) t = replay b (replay a t).
Proof. intros a b t. unfold replay. apply fold_left_app. Qed.

Lemma Daemon_loop_replay :
  forall reads (store : T),
    final_store (Daemon.loop reads store) =
    replay (trace (Daemon.loop reads store)) store.
Proof.
  intros reads. induction reads as [|r reads IH]; intros store.
  - reflexivity.
  - destruct r as [line|].
    + session_step line; clear H0;
        rewrite ?final_store_emit, ?trace_emit, ?replay_app;
        try (rewrite IH; reflexivity).
      all: reflexivity.
    + cbn [Daemon.loop].
      rewrite final_store_emit, trace_emit, replay_app. now rewrite IH.
Qed.

Lemma Sibling_loop_replay :
  forall reads (tree : T),
    final_store (Sibling.loop reads tree) =
    replay (trace (Sibling.loop reads tree)) tree.
Proof.
  intros reads. induction reads as [|r reads IH]; intros tree.
  - reflexivity.
  - destruct r as [line|]; [|reflexivity].
    session_step line; clear H0;
      rewrite ?final_store_emit, ?trace_emit, ?replay_app;
      try (rewrite IH; reflexivity);
      reflexivity.
Qed.

(** A session panics only in a nearest-neighbour call of the tree: the
    call is the last event of the trace, and it is the call that fails on
    the tree as the mutations before it have left it. *)
Lemma Daemon_loop_panic :
  forall reads (store : T),
    result (Daemon.loop reads store) = Panicked ->
    exists evs p k,
      trace (Daemon.loop reads store) = evs ++ [EvKNN p k] /\
      KNN (replay evs store) p k = None.
Proof.
  intros reads. induction reads as [|r reads IH]; intros store.
  - discriminate.
  - destruct r as [line|].
    + session_step line; clear H0;
        rewrite ?result_emit, ?trace_emit; intros Hr;
        try discriminate;
        try (match goal with
             | |- context [Daemon.loop reads ?s] =>
                 destruct (IH s Hr) as (evs & p & k & Ht & Hk)
             end;
             rewrite Ht; eexists (_ ++ evs), p, k;
             split; [rewrite <- app_assoc; reflexivity
                    |rewrite replay_app; exact Hk]).
      exists [], l, z. split; [reflexivity|exact K].
    + cbn [Daemon.loop]. rewrite result_emit, trace_emit. intros Hr.
      destruct (IH store Hr) as (evs & p & k & Ht & Hk).
      rewrite Ht. exists ([EvWrite ReadError] ++ evs), p, k.
      split; [reflexivity|rewrite replay_app; exact Hk].
Qed.

Lemma Sibling_loop_panic :
  forall reads (tree : T),
    result (Sibling.loop reads tree) = Panicked ->
    exists evs p k,
      trace (Sibling.loop reads tree) = evs ++ [EvKNN p k] /\
      KNN (replay evs tree) p k = None.
Proof.
  intros reads. induction reads as [|r reads IH]; intros tree.
  - discriminate.
  - destruct r as [line|]; [|discriminate].
    session_step line; clear H0;
      rewrite ?result_emit, ?trace_emit; intros Hr;
      try discriminate;
      try (match goal with
           | |- context [Sibling.loop reads ?s] =>
               destruct (IH s Hr) as (evs & p & k & Ht & Hk)
           end;
           rewrite Ht; eexists (_ ++ evs), p, k;
           split; [rewrite <- app_assoc; reflexivity
                  |rewrite replay_app; exact Hk]).
    exists [], l, z. split; [reflexivity|exact K].
Qed.

Lemma Daemon_loop_events_ok :
  forall reads (store : T),
    Forall event_ok (trace (Daemon.loop reads store)).
Proof.
  intros reads. induction reads as [|r reads IH]; intros store.
  - constructor.
  - destruct r as [line|].
    + session_step line; clear H0; rewrite ?trace_emit;
        cbn [app trace fst snd];
        repeat (constructor; [cbn [event_ok]; tauto|]);
        try apply IH; constructor.
    + cbn [Daemon.loop]. rewrite trace_emit. cbn [app].
      constructor; [exact I|apply IH].
Qed.

Lemma Sibling_loop_events_ok :
  forall reads (tree : T),
    Forall event_ok (trace (Sibling.loop reads tree)).
Proof.
  intros reads. induction reads as [|r reads IH]; intros tree.
  - constructor.
  - destruct r as [line|].
    + session_step line; clear H0; rewrite ?trace_emit;
        cbn [app trace fst snd];
        repeat (constructor; [cbn [event_ok]; tauto|]);
        try apply IH; constructor.
    + cbn. repeat constructor.
Qed.

End DaemonSessions.

(** X13 -- a session of [daemon.go] never calls [log.Fatal], and
    nothing of [daemon.go] itself panics in it.  It returns only when one
    of the lines read has END as its leftmost keyword (as in [BLEND] or
    [SEND {1, 2} 3]), and with such a line among the reads it returns
    unless it panics before; read errors and invalid lines never end it.
    The connection is closed exactly when the session returns.  The one
    way for it to panic is a nearest-neighbour call of the tree that
    panics: that call is then the last event of the trace, and it is the
    call that fails on the tree as the mutations before it have left
    it. *)
Theorem X13_daemon_session_ends_on_END_only :
  forall T (HT : KDTree T) reads (store : T),
    result (Daemon.HandleRequest reads store) <> ProcessExit /\
    (result (Daemon.HandleRequest reads store) = Returned ->
     existsb is_end_line reads = true) /\
    (existsb is_end_line reads = true ->
     result (Daemon.HandleRequest reads store) = Returned \/
     result (Daemon.HandleRequest reads store) = Panicked) /\
    (In EvClose (trace (Daemon.HandleRequest reads store)) <->
     result (Daemon.HandleRequest reads store) = Returned) /\
    (result (Daemon.HandleRequest reads store) = Panicked ->
     exists evs p k,
       trace (Daemon.HandleRequest reads store) = evs ++ [EvKNN p k] /\
       KNN (replay evs store) p k = None).
Proof.
  intros T HT reads store. unfold Daemon.HandleRequest.
  rewrite result_emit, trace_emit.
  destruct (Daemon_loop_outcome reads store) as (I1 & I2 & I3 & I4).
  cbn [app In]. repeat split; try tauto.
  - intros [Hd|Hd]; [discriminate|tauto].
  - intros Hr.
    destruct (Daemon_loop_panic reads store Hr) as (evs & p & k & Ht & Hk).
    rewrite Ht. exists (EvWrite Greeting :: evs), p, k.
    split; [reflexivity|exact Hk].
Qed.

(** X14 -- [daemon.go] answers every read with exactly one write: a
    session that is still reading has written the greeting and one
    response for each read, errors and invalid lines included, and no
    session writes more than that. *)
Theorem X14_daemon_one_response_per_read :
  forall T (HT : KDTree T) reads (store : T),
    count_writes (trace (Daemon.HandleRequest reads store))
      <= S (length reads) /\
    (result (Daemon.HandleRequest reads store) = Reading ->
     count_writes (trace (Daemon.HandleRequest reads store))
       = S (length reads)).
Proof.
  intros T HT reads store. unfold Daemon.HandleRequest.
  rewrite result_emit, trace_emit. cbn [app count_writes].
  destruct (Daemon_loop_writes reads store) as (I1 & I2).
  split; [lia|]. intros Hr. now rewrite (I2 Hr).
Qed.

(** X15 -- the mutex in a session of [daemon.go], on all inputs: it is
    taken only when free and released only when held, [Insert] and
    [Remove] run only while it is held, nothing is written to the
    connection and the connection is not closed while it is held, and it
    is free whenever the session reads, returns or stops. *)
Theorem X15_daemon_lock_discipline :
  forall T (HT : KDTree T) reads (store : T),
    lock_discipline false (trace (Daemon.HandleRequest reads store)) = true.
Proof.
  intros T HT reads store. unfold Daemon.HandleRequest.
  rewrite trace_emit. cbn [app lock_discipline negb andb].
  apply Daemon_loop_lock_discipline.
Qed.

(** X16 -- in both source files the tree at the end of a session is the
    initial tree with the [Insert] and [Remove] calls of the trace applied
    in their order: nearest-neighbour queries, invalid lines, END and read
    errors leave the tree as it is. *)
Theorem X16_store_changes_by_mutations_only :
  forall T (HT : KDTree T) reads (store : T),
    final_store (Daemon.HandleRequest reads store) =
      replay (trace (Daemon.HandleRequest reads store)) store /\
    final_store (Sibling.HandleRequest reads store) =
      replay (trace (Sibling.HandleRequest reads store)) store.
Proof.
  intros T HT reads store.
  unfold Daemon.HandleRequest, Sibling.HandleRequest.
  rewrite !final_store_emit, !trace_emit, !replay_app.
  split; [apply Daemon_loop_replay|apply Sibling_loop_replay].
Qed.

(** X17 -- in both source files, whatever is read, the tree is only ever
    handed points of exactly two coordinates, none negative, and payloads
    and neighbour counts between 0 and 2^63 - 1. *)
Theorem X17_tree_arguments_well_formed :
  forall T (HT : KDTree T) reads (store : T),
    Forall event_ok (trace (Daemon.HandleRequest reads store)) /\
    Forall event_ok (trace (Sibling.HandleRequest reads store)).
Proof.
  intros T HT reads store.
  unfold Daemon.HandleRequest, Sibling.HandleRequest.
  rewrite !trace_emit. cbn [app].
  split; (constructor; [exact I|]);
    [apply Daemon_loop_events_ok|apply Sibling_loop_events_ok].
Qed.

Section SiblingSessions.
Context {T : Type} `{KDTree T}.

Lemma Sibling_loop_outcome :
  forall reads (tree : T),
    forallb (fun ev => negb (is_status ev)) (trace (Sibling.loop reads tree))
      = true /\
    (result (Sibling.loop reads tree) = ProcessExit <->
     In EvFatal (trace (Sibling.loop reads tree))) /\
    (result (Sibling.loop reads tree) = Returned <->
     In EvClose (trace (Sibling.loop reads tree))).
Proof.
  intros reads. induction reads as [|r reads IH]; intros tree.
  - cbn. repeat split; try discriminate; tauto.
  - destruct r as [line|].
    + session_step line; clear H0;
        rewrite ?result_emit, ?trace_emit; cbn [app forallb In];
        try (match goal with
             | |- context [Sibling.loop reads ?s] =>
                 destruct (IH s) as (I2 & I3 & I4)
             end;
             cbn [is_status negb andb];
             repeat split; try tauto;
             intros Hd; repeat (destruct Hd as [Hd|Hd];
                                [discriminate|]); tauto);
        cbn; repeat split; try discriminate; try tauto;
        intros [Hd|[]]; discriminate.
    + cbn. repeat split; try discriminate; try tauto.
      intros [Hd|[]]; discriminate.
Qed.

Lemma sessions_agree :
  forall reads (t t' : T) evs,
    Sibling.loop reads t = (t', evs, Reading) ->
    exists evs',
      Daemon.loop reads t = (t', evs', Reading) /\
      without_locks evs' = evs.
Proof.
  intros reads. induction reads as [|r reads IH]; intros t t' evs Hs.
  - cbn in Hs. injection Hs as <- <-. exists []. split; reflexivity.
  - destruct r as [line|]; [|discriminate].
    rewrite Sibling_loop_command in Hs. rewrite Daemon_loop_command.
    pose proof (command_of_scan (TrimSpace line)) as Hc.
    destruct (command_of (scan_parse (TrimSpace line)));
      try discriminate; try contradiction;
      try match goal with
          | |- context [match KNN ?a ?p ?k with _ => _ end] =>
              destruct (KNN a p k)
          end;
      try discriminate;
      apply emit_inv in Hs; destruct Hs as (evs0 & Hs & ->);
      destruct (IH _ _ _ Hs) as (evs0' & Hd & <-);
      rewrite Hd; eexists; (split; [reflexivity|]); reflexivity.
Qed.

End SiblingSessions.

(** X18 -- a session of the second source file never writes a status
    text (no READ ERROR, INVALID COMMAND or BYE); it ends the process
    through [log.Fatal] exactly when its trace has the [log.Fatal], and
    returns exactly when it has closed the connection, so that the
    connection is not closed when the process is ended.  Nothing of the
    source file itself panics in it: when it panics, the last event of
    the trace is a nearest-neighbour call of the tree, the one that fails
    on the tree as the mutations before it have left it. *)
Theorem X18_sibling_session_silent :
  forall T (HT : KDTree T) reads (tree : T),
    forallb (fun ev => negb (is_status ev))
      (trace (Sibling.HandleRequest reads tree)) = true /\
    (result (Sibling.HandleRequest reads tree) = ProcessExit <->
     In EvFatal (trace (Sibling.HandleRequest reads tree))) /\
    (result (Sibling.HandleRequest reads tree) = Returned <->
     In EvClose (trace (Sibling.HandleRequest reads tree))) /\
    ~ (In EvFatal (trace (Sibling.HandleRequest reads tree)) /\
       In EvClose (trace (Sibling.HandleRequest reads tree))) /\
    (result (Sibling.HandleRequest reads tree) = Panicked ->
     exists evs p k,
       trace (Sibling.HandleRequest reads tree) = evs ++ [EvKNN p k] /\
       KNN (replay evs tree) p k = None).
Proof.
  intros T HT reads tree. unfold Sibling.HandleRequest.
  rewrite result_emit, trace_emit. cbn [app forallb In is_status negb andb].
  destruct (Sibling_loop_outcome reads tree) as (I2 & I3 & I4).
  assert (forall ev, ev <> EvWrite Greeting ->
            (EvWrite Greeting = ev \/ In ev (trace (Sibling.loop reads tree)))
            <-> In ev (trace (Sibling.loop reads tree))) as Hg.
  { intros ev Hne. split; [intros [Hd|Hd]; [congruence|exact Hd]|tauto]. }
  rewrite !Hg by discriminate.
  repeat split; try tauto.
  - intros [Hf Hcl]. apply I3 in Hf. apply I4 in Hcl. congruence.
  - intros Hr.
    destruct (Sibling_loop_panic reads tree Hr) as (evs & p & k & Ht & Hk).
    rewrite Ht. exists (EvWrite Greeting :: evs), p, k.
    split; [reflexivity|exact Hk].
Qed.

(** X19 -- on reads after which the session of the second source file is
    still reading, the session of [daemon.go] is still reading too, has
    made the same tree, and its trace is the trace of the second source
    file with the mutex taken and released around each mutation. *)
Theorem X19_sessions_agree_up_to_locks :
  forall T (HT : KDTree T) reads (tree : T),
    result (Sibling.HandleRequest reads tree) = Reading ->
    result (Daemon.HandleRequest reads tree) = Reading /\
    final_store (Daemon.HandleRequest reads tree) =
      final_store (Sibling.HandleRequest reads tree) /\
    without_locks (trace (Daemon.HandleRequest reads tree)) =
      trace (Sibling.HandleRequest reads tree).
Proof.
  intros T HT reads tree. unfold Daemon.HandleRequest, Sibling.HandleRequest.
  rewrite !result_emit, !final_store_emit, !trace_emit.
  destruct (Sibling.loop reads tree) as [[t' evs] o] eqn:Hs.
  cbn [result snd]. intros ->.
  destruct (sessions_agree reads tree t' evs Hs) as (evs' & Hd & He).
  rewrite Hd. cbn [result final_store trace fst snd app without_locks filter].
  repeat split. f_equal. exact He.
Qed.

Lemma X19_sessions_agree_up_to_locks_witness :
  without_locks
    (trace (Daemon.HandleRequest
              [ReadOk (bs "ADD {1, 2} 3"); ReadOk (bs "KNN {0, 0} 1")]
              ([] : SpecStore.Store))) =
  trace (Sibling.HandleRequest
           [ReadOk (bs "ADD {1, 2} 3"); ReadOk (bs "KNN {0, 0} 1")]
           ([] : SpecStore.Store)).
Proof.
  apply (X19_sessions_agree_up_to_locks SpecStore.Store SpecStore.spec_tree
           [ReadOk (bs "ADD {1, 2} 3"); ReadOk (bs "KNN {0, 0} 1")] []).
  reflexivity.
Defined.

(** ** Numbers beyond the range of [int], and sessions in parts *)

(** X22 -- the numbers of a command are clamped, not rejected: for all
    digit groups, however long, [ADD {x, y} n] and [KNN {x, y} n] are
    valid with the payload min(n, 2^63 - 1) and with the coordinates
    float64(min(x, 2^63 - 1)) and float64(min(y, 2^63 - 1)). *)
Theorem X22_numbers_are_clamped :
  forall x y n,
    digit_group x = true -> digit_group y = true -> digit_group n = true ->
    (exists e,
       ParseKDtreeCommand (line_add x y n) = Some e /\
       valid e = true /\ action e = bs "ADD" /\
       point e = [float64_of_int (Z.min (dec_value x) maxInt);
                  float64_of_int (Z.min (dec_value y) maxInt)] /\
       value (data e) = Z.min (dec_value n) maxInt) /\
    (exists e,
       ParseKDtreeCommand (line_knn x y n) = Some e /\
       valid e = true /\ action e = bs "KNN" /\
       point e = [float64_of_int (Z.min (dec_value x) maxInt);
                  float64_of_int (Z.min (dec_value y) maxInt)] /\
       value (data e) = Z.min (dec_value n) maxInt).
Proof.
  intros x y n Hx Hy Hn. split.
  - rewrite ParseKDtreeCommand_add by assumption.
    eexists. split; [reflexivity|].
    cbn [valid action point data value]. unfold coords.
    rewrite !Atoi_digits by assumption. repeat split.
  - rewrite ParseKDtreeCommand_knn by assumption.
    eexists. split; [reflexivity|].
    cbn [valid action point data value]. unfold coords.
    rewrite !Atoi_digits by assumption. repeat split.
Qed.

Lemma X22_numbers_are_clamped_witness :
  exists e,
    ParseKDtreeCommand
      (line_add (bs "1") (bs "2") (bs "99999999999999999999")) = Some e /\
    valid e = true /\ action e = bs "ADD" /\
    point e = [float64_of_int (Z.min (dec_value (bs "1")) maxInt);
               float64_of_int (Z.min (dec_value (bs "2")) maxInt)] /\
    value (data e) = Z.min (dec_value (bs "99999999999999999999")) maxInt.
Proof.
  apply (proj1 (X22_numbers_are_clamped
                  (bs "1") (bs "2") (bs "99999999999999999999")
                  eq_refl eq_refl eq_refl)).
Defined.

(** X23 -- sessions compose: in both source files, when the session is
    still reading after some reads, what it does on these reads followed
    by more reads is what it did on the first, followed by what a session
    does on the further reads from the tree that the first left. *)
Theorem X23_sessions_compose :
  forall T (HT : KDTree T) pre more (store st' : T) evs,
    (Daemon.loop pre store = (st', evs, Reading) ->
     Daemon.loop (pre ++ more) store = emit evs (Daemon.loop more st')) /\
    (Sibling.loop pre store = (st', evs, Reading) ->
     Sibling.loop (pre ++ more) store = emit evs (Sibling.loop more st')).
Proof.
  intros T HT pre more store st' evs. split.
  - apply Daemon_loop_app.
  - apply Sibling_loop_app.
Qed.

Lemma X23_sessions_compose_witness :
  Daemon.loop ([ReadOk (bs "ADD {1, 2} 3")] ++ [ReadOk (bs "KNN {1, 2} 1")])
    ([] : SpecStore.Store) =
  emit [EvLock; EvInsert [1; 2]%Z (mkData 3); EvUnlock;
        EvWrite (Added [1; 2]%Z)]
       (Daemon.loop [ReadOk (bs "KNN {1, 2} 1")] [([1; 2]%Z, mkData 3)]).
Proof.
  apply (proj1 (X23_sessions_compose SpecStore.Store SpecStore.spec_tree
                  [ReadOk (bs "ADD {1, 2} 3")] [ReadOk (bs "KNN {1, 2} 1")]
                  [] [([1; 2]%Z, mkData 3)]
                  [EvLock; EvInsert [1; 2]%Z (mkData 3); EvUnlock;
                   EvWrite (Added [1; 2]%Z)])).
  reflexivity.
Defined.
